(** * F1 2026 regulation-impact simulator: Monte Carlo engine and dashboard reader

    A shallow embedding of the numerical core of the repository:

    - [_summarise_predictions], [MonteCarloSimulator.run] and
      [_perturb_features] of [src/monte_carlo.py], and [train_model] of
      [main.py], as they are quoted in the repository's top-K analysis note;
    - [KEY_REGULATION_FEATURES], [loadRegulationFactors],
      [extractTeamPerformance], [extractCircuitComparisons] and the helpers
      of [frontend/src/utils/dataAdapter.ts];
    - the scenario transform ([src/regulation_transform.py]) and the
      assembly of the result artifact ([main.py]), which are not among the
      sources, as the specification describes them.

    Numbers.  The program computes with IEEE-754 doubles.  Here a number is
    an exact rational ([Q]): comparisons, counting, clipping and the choice
    of order statistics are those of the program, while the rounding of
    sums, products and quotients is not modelled.  Statements about numbers
    are therefore up to [==] on [Q] unless a value is copied unchanged. *)

From Stdlib Require Import ZArith QArith Qround Lia Lra Psatz Ascii String.
From stdpp Require Import base option list strings gmap sorting pretty.

#[local] Open Scope Q_scope.

(** ** Exceptions *)

(** The Python and JavaScript exceptions the modelled code can raise. *)
Inductive exception : Type :=
  | ValueError   (* numpy: negative dimension, reduction of an empty array,
                    shape mismatch in an assignment *)
  | IndexError   (* numpy: column index out of bounds *)
  | KeyError     (* pandas: column not in the frame *)
  | TypeError.   (* JavaScript: property read on undefined or null *)

(** A computation that returns a value or raises. *)
Inductive result (A : Type) : Type :=
  | Ok (a : A)
  | Raise (e : exception).
Arguments Ok {A} a.
Arguments Raise {A} e.

#[global] Instance result_ret : MRet result := fun A a => Ok a.

#[global] Instance result_bind : MBind result := fun A B k r =>
  match r with
  | Ok a => k a
  | Raise e => Raise e
  end.

(** ** Python dictionaries

    A [dict] keeps its keys in insertion order; assigning to a key that is
    already present replaces the value in place. *)

Definition dict (V : Type) : Type := list (string * V).

Fixpoint dict_get {V} (d : dict V) (k : string) : option V :=
  match d with
  | [] => None
  | (k', v) :: d' => if String.eqb k k' then Some v else dict_get d' k
  end.

Fixpoint dict_set {V} (d : dict V) (k : string) (v : V) : dict V :=
  match d with
  | [] => [(k, v)]
  | (k', v') :: d' =>
      if String.eqb k k' then (k, v) :: d' else (k', v') :: dict_set d' k v
  end.

Definition dict_keys {V} (d : dict V) : list string := map fst d.

(** ** numpy reductions on a one-dimensional array *)

#[global] Instance Qle_dec : RelDecision Qle :=
  fun x y => match Qlt_le_dec y x with
             | left H => right (Qlt_not_le _ _ H)
             | right H => left H
             end.

Definition Qnat (n : nat) : Q := inject_Z (Z.of_nat n).

Definition np_sum (a : list Q) : Q := fold_right Qplus 0 a.

(** [a.mean()].  On an empty array numpy yields NaN; callers below never
    reach that case (see [column_stats]). *)
Definition np_mean (a : list Q) : Q := np_sum a / Qnat (length a).

(** [a.min()] and [a.max()] of a non-empty array with first element [x]. *)
Definition np_min (x : Q) (a : list Q) : Q :=
  fold_left (fun m v => if decide (v <= m) then v else m) a x.

Definition np_max (x : Q) (a : list Q) : Q :=
  fold_left (fun m v => if decide (m <= v) then v else m) a x.

(** [np.sort(a)]. *)
Definition np_sort (a : list Q) : list Q := merge_sort Qle a.

(** [np.median(a)]: the mean of the middle element (odd length) or of the
    two middle elements (even length) of the sorted array. *)
Definition np_median (a : list Q) : Q :=
  let s := np_sort a in
  let index := (length s / 2)%nat in
  if Nat.even (length s)
  then np_mean (take 2 (drop (index - 1) s))
  else np_mean (take 1 (drop index s)).

(** Clamp a virtual index into the valid positions of an array of [n]
    elements. *)
Definition clip_index (n : nat) (i : Z) : nat :=
  Z.to_nat (Z.max 0 (Z.min i (Z.of_nat n - 1))).

(** Linear interpolation in a sorted array at a fractional position: the
    neighbours are the elements at the floor of the position and one
    further, both clamped to the array. *)
Definition lerp_at (s : list Q) (virtual_index : Q) : Q :=
  let n := length s in
  let previous := Qfloor virtual_index in
  let gamma := virtual_index - inject_Z previous in
  let lo := nth (clip_index n previous) s 0 in
  let hi := nth (clip_index n (previous + 1)) s 0 in
  lo + (hi - lo) * gamma.

(** [np.percentile(a, q)] with the default [linear] method: the virtual
    index is [(q / 100) * (n - 1)], and the result interpolates linearly
    between the two neighbouring order statistics. *)
Definition np_percentile (a : list Q) (q : Q) : Q :=
  lerp_at (np_sort a) ((q / 100) * (Qnat (length a) - 1)).

(** [(a <= k).mean()]: the boolean array read as zeros and ones. *)
Definition le_indicator (k v : Q) : Q := if decide (v <= k) then 1 else 0.

Definition np_le_mean (a : list Q) (k : Q) : Q :=
  np_mean (map (le_indicator k) a).

(** The fraction of the values of [a] that are at most [k]. *)
Definition count_le (a : list Q) (k : Q) : nat :=
  length (filter (fun v => v <= k) a).

Definition fraction_le (a : list Q) (k : Q) : Q :=
  Qnat (count_le a k) / Qnat (length a).

(** ** The accumulator of draws *)

(** A two-dimensional array of shape [(length rows, ncols)]. *)
Record ndarray : Type := mk_ndarray {
  ncols : nat;
  rows : list (list Q)
}.

(** [np.zeros((n, m))]. *)
Definition np_zeros (n m : nat) : ndarray :=
  mk_ndarray m (repeat (repeat 0 m) n).

(** [predictions[:, idx]]. *)
Definition column (p : ndarray) (idx : nat) : result (list Q) :=
  if (idx <? ncols p)%nat
  then Ok (map (fun r => nth idx r 0) (rows p))
  else Raise IndexError.

Section Summarise.

(** The floating-point square root behind [std]; its rounding is not
    modelled, so it is a parameter. *)
Variable fsqrt : Q -> Q.

(** [a.std(ddof=0)]: the population standard deviation. *)
Definition np_std (a : list Q) : Q :=
  let m := np_mean a in
  fsqrt (np_mean (map (fun v => (v - m) * (v - m)) a)).

(** The dictionary built for one driver in [_summarise_predictions].  On an
    empty distribution ([n_simulations] rows = 0) [mean], [std] and [median]
    are NaN and [distribution.min()] raises [ValueError]. *)
Definition column_stats (distribution : list Q) : result (dict Q) :=
  match distribution with
  | [] => Raise ValueError
  | x :: rest =>
      Ok [ ("mean", np_mean distribution);
           ("std", np_std distribution);
           ("median", np_median distribution);
           ("min", np_min x rest);
           ("max", np_max x rest);
           ("percentile_5", np_percentile distribution 5);
           ("percentile_95", np_percentile distribution 95);
           ("top3_probability", np_le_mean distribution 3);
           ("top5_probability", np_le_mean distribution 5) ]
  end.

(** The loop [for idx, driver in enumerate(driver_list)], started at [idx]
    with the dictionary built so far. *)
Fixpoint summarise_from (predictions : ndarray) (idx : nat)
    (drivers : list string) (stats : dict (dict Q)) : result (dict (dict Q)) :=
  match drivers with
  | [] => Ok stats
  | driver :: drivers' =>
      distribution ← column predictions idx;
      entry ← column_stats distribution;
      summarise_from predictions (S idx) drivers' (dict_set stats driver entry)
  end.

Definition _summarise_predictions (predictions : ndarray)
    (drivers : list string) : result (dict (dict Q)) :=
  summarise_from predictions 0 drivers [].

End Summarise.

(** ** Data frames *)

(** A pandas frame of numbers, column-oriented: [df_len] rows, the column
    labels in order, and the column vectors. *)
Record DataFrame : Type := mk_frame {
  df_len : nat;
  df_columns : list string;
  df_data : gmap string (list Q)
}.

(** [frame[column]] read: [KeyError] when the label is absent. *)
Definition get_column (frame : DataFrame) (c : string) : result (list Q) :=
  match df_data frame !! c with
  | Some v => Ok v
  | None => Raise KeyError
  end.

(** [frame[column] = f(frame[column])]. *)
Definition map_column (f : list Q -> list Q) (frame : DataFrame) (c : string)
    : result DataFrame :=
  v ← get_column frame c;
  Ok (mk_frame (df_len frame) (df_columns frame) (<[c := f v]> (df_data frame))).

(** [frame.loc[:, cols] = f(frame.loc[:, cols])], column by column. *)
Fixpoint map_columns (f : list Q -> list Q) (frame : DataFrame)
    (cols : list string) : result DataFrame :=
  match cols with
  | [] => Ok frame
  | c :: cols' => frame' ← map_column f frame c; map_columns f frame' cols'
  end.

(** [features[feature_columns].copy()]: the listed columns, in the listed
    order; [KeyError] when one is absent. *)
Fixpoint select_data (data : gmap string (list Q)) (cols : list string)
    : result (gmap string (list Q)) :=
  match cols with
  | [] => Ok ∅
  | c :: cols' =>
      match data !! c with
      | Some v => rest ← select_data data cols'; Ok (<[c := v]> rest)
      | None => Raise KeyError
      end
  end.

Definition select_columns (features : DataFrame) (cols : list string)
    : result DataFrame :=
  data ← select_data (df_data features) cols;
  Ok (mk_frame (df_len features) cols data).

(** ** Column groups of the perturbation *)

(** Python's [token in col] on strings. *)
Fixpoint contains (token s : string) : bool :=
  String.prefix token s ||
  match s with
  | EmptyString => false
  | String _ s' => contains token s'
  end.

Definition is_form_col (col : string) : bool :=
  contains "pos" col || contains "grid" col.

Definition is_weather_col (col : string) : bool :=
  existsb (fun token => contains token col) ["rain"; "temp"; "wind"].

Definition is_strategy_col (col : string) : bool :=
  existsb (fun token => contains token col) ["pit"; "fuel"; "compound"].

(** ** The simulator *)

(** The [monte_carlo] block of [config.yaml]. *)
Record Config : Type := mk_config {
  n_simulations : Z;
  driver_form_sigma : Q;
  weather_sigma : Q;
  strategy_delta : Q;
  random_seed : Z
}.

(** The numpy generator behind [self._rng]: a state and the two sampling
    methods the simulator calls, each returning [size] samples and the
    advanced state. *)
Class Generator (G : Type) : Type := {
  rng_normal : G -> Q -> Q -> nat -> list Q * G;
  rng_integers : G -> Z -> Z -> nat -> list Z * G
}.

(** The fields of a [MonteCarloSimulator] other than the generator, whose
    state is threaded explicitly.  The fitted regressor is opaque: only
    [model.predict] is used, which returns a vector or raises. *)
Record MonteCarloSimulator : Type := mk_simulator {
  model_predict : DataFrame -> result (list Q);
  feature_columns : list string;
  config : Config
}.

(** Methods that advance [self._rng]: the generator state comes back
    whether the method returns or raises. *)
Definition sim (G A : Type) : Type := G -> result A * G.

#[global] Instance sim_ret {G} : MRet (sim G) := fun A a g => (Ok a, g).

#[global] Instance sim_bind {G} : MBind (sim G) := fun A B k m g =>
  match m g with
  | (Ok a, g') => k a g'
  | (Raise e, g') => (Raise e, g')
  end.

Definition lift {G A} (r : result A) : sim G A := fun g => (r, g).

(** [x * (1 + noise)] and [x + delta] on column vectors. *)
Definition scale_by (noise : list Q) (v : list Q) : list Q :=
  zip_with (fun x e => x * (1 + e)) v noise.

Definition shift_by (delta : list Q) (v : list Q) : list Q :=
  zip_with (fun x d => x + d) v delta.

Section Simulator.

Context {G : Type} `{Generator G}.
Variable self : MonteCarloSimulator.

Definition form_cols : list string :=
  filter (fun col => is_form_col col = true) (feature_columns self).

Definition weather_cols : list string :=
  filter (fun col => is_weather_col col = true) (feature_columns self).

Definition strategy_cols : list string :=
  filter (fun col => is_strategy_col col = true) (feature_columns self).

(** [self._rng.normal(loc, scale, size=size)]: numpy checks the scale
    before it samples and raises [ValueError] when it is negative. *)
Definition normal (loc scale : Q) (size : nat) : sim G (list Q) := fun g =>
  if Qlt_le_dec scale 0 then (Raise ValueError, g)
  else let (noise, g') := rng_normal g loc scale size in (Ok noise, g').

(** [if form_cols: ...]: one normal draw per row, shared by all form
    columns. *)
Definition perturb_form (frame : DataFrame) : sim G DataFrame :=
  match form_cols with
  | [] => mret frame
  | _ =>
      noise ← normal 0 (driver_form_sigma (config self)) (df_len frame);
      lift (map_columns (scale_by noise) frame form_cols)
  end.

(** [for column in weather_cols: ...]: a fresh normal draw per column. *)
Fixpoint perturb_weather (cols : list string) (frame : DataFrame)
    : sim G DataFrame :=
  match cols with
  | [] => mret frame
  | column :: cols' =>
      noise ← normal 0 (weather_sigma (config self)) (df_len frame);
      frame' ← lift (map_column (scale_by noise) frame column);
      perturb_weather cols' frame'
  end.

(** [for column in strategy_cols: ...]: a fresh draw from {-1, 0, 1} per
    column, scaled by [strategy_delta]. *)
Fixpoint perturb_strategy (cols : list string) (frame : DataFrame)
    : sim G DataFrame :=
  match cols with
  | [] => mret frame
  | column :: cols' => fun g =>
      let (steps, g') := rng_integers g (-1) 2 (df_len frame) in
      let delta :=
        map (fun k => inject_Z k * strategy_delta (config self)) steps in
      (frame' ← lift (map_column (shift_by delta) frame column);
       perturb_strategy cols' frame') g'
  end.

Definition _perturb_features (frame : DataFrame) : sim G DataFrame :=
  frame1 ← perturb_form frame;
  frame2 ← perturb_weather weather_cols frame1;
  perturb_strategy strategy_cols frame2.

(** [np.clip(values, 1.0, 20.0)]. *)
Definition clip_value (lo hi x : Q) : Q :=
  if decide (x <= lo) then lo else if decide (hi <= x) then hi else x.

Definition np_clip (values : list Q) (lo hi : Q) : list Q :=
  map (clip_value lo hi) values.

(** [predictions[sim_index] = values]: numpy broadcasts a vector of the row
    length or of length one, and raises [ValueError] otherwise. *)
Definition set_row (predictions : ndarray) (sim_index : nat)
    (values : list Q) : result ndarray :=
  if (length values =? ncols predictions)%nat
  then Ok (mk_ndarray (ncols predictions)
             (<[sim_index := values]> (rows predictions)))
  else match values with
       | [x] => Ok (mk_ndarray (ncols predictions)
                      (<[sim_index := repeat x (ncols predictions)]>
                         (rows predictions)))
       | _ => Raise ValueError
       end.

(** The body of [for sim_index in range(n_sims)], for the [remaining]
    indices from [sim_index] on. *)
Fixpoint draw_loop (feature_matrix : DataFrame) (remaining sim_index : nat)
    (predictions : ndarray) : sim G ndarray :=
  match remaining with
  | O => mret predictions
  | S remaining' =>
      perturbed ← _perturb_features feature_matrix;
      values ← lift (model_predict self perturbed);
      predictions' ← lift (set_row predictions sim_index
                             (np_clip values 1 20));
      draw_loop feature_matrix remaining' (S sim_index) predictions'
  end.

(** What [remaining] executed draws produce, without the accumulator: each
    draw perturbs the feature matrix with the generator as the draw before
    left it, asks the regressor, and clips; the rows come in the order of
    the draws. *)
Fixpoint executed_draws (feature_matrix : DataFrame) (remaining : nat)
    : sim G (list (list Q)) :=
  match remaining with
  | O => mret []
  | S remaining' =>
      perturbed ← _perturb_features feature_matrix;
      values ← lift (model_predict self perturbed);
      rest ← executed_draws feature_matrix remaining';
      mret (np_clip values 1 20 :: rest)
  end.

(** [n_simulations or self.config.n_simulations]: [None] and [0] are
    falsy. *)
Definition effective_n_sims (requested : option Z) : Z :=
  match requested with
  | Some n => if (n =? 0)%Z then n_simulations (config self) else n
  | None => n_simulations (config self)
  end.

(** [np.zeros((n_sims, m))] with a Python integer: a negative dimension
    raises [ValueError]. *)
Definition np_zeros_checked (n_sims : Z) (m : nat) : result ndarray :=
  if (n_sims <? 0)%Z then Raise ValueError
  else Ok (np_zeros (Z.to_nat n_sims) m).

(** The part of [run] that fills the accumulator. *)
Definition run_draws (features : DataFrame) (requested : option Z)
    : sim G ndarray :=
  let n_sims := effective_n_sims requested in
  feature_matrix ← lift (select_columns features (feature_columns self));
  predictions ← lift (np_zeros_checked n_sims (df_len feature_matrix));
  draw_loop feature_matrix (Z.to_nat n_sims) 0 predictions.

Variable fsqrt : Q -> Q.

Definition run (features : DataFrame) (driver_names : list string)
    (requested : option Z) : sim G (dict (dict Q)) :=
  predictions ← run_draws features requested;
  lift (_summarise_predictions fsqrt predictions driver_names).

End Simulator.

(** ** Training: imputation of missing values *)

(** A column of the historical feature table; [None] is a missing value
    (NaN). *)
Definition raw_column : Type := list (option Q).

(** The present values of a column. *)
Definition present (col : raw_column) : list Q := omap id col.

(** [column.mean()] of pandas: the mean of the present values, NaN ([None])
    when there is none. *)
Definition column_mean (col : raw_column) : option Q :=
  match present col with
  | [] => None
  | vs => Some (np_mean vs)
  end.

(** [column.fillna(value)]: a NaN fill value leaves the column as it is. *)
Definition fillna (fill : option Q) (col : raw_column) : raw_column :=
  match fill with
  | Some m => map (fun cell => match cell with
                               | Some v => Some v
                               | None => Some m
                               end) col
  | None => col
  end.

(** [features[feature_columns].fillna(features[feature_columns].mean())]:
    every selected column is filled with its own mean.  The mean is taken
    on [features] as passed in, before any split. *)
Fixpoint impute (features : gmap string raw_column) (cols : list string)
    : result (gmap string raw_column) :=
  match cols with
  | [] => Ok ∅
  | c :: cols' =>
      match features !! c with
      | Some col =>
          rest ← impute features cols';
          Ok (<[c := fillna (column_mean col) col]> rest)
      | None => Raise KeyError
      end
  end.

(** The rows of a column at the given positions, in that order. *)
Definition take_rows {A} (idx : list nat) (col : list A) : list A :=
  omap (fun i => col !! i) idx.

Section Training.

(** [train_test_split(X, y, test_size=0.2, random_state=42)]: the shuffle
    is scikit-learn's; here it is the pair of row positions (train, test)
    it returns for a table of [n] rows. *)
Variable train_test_split : nat -> list nat * list nat.

(** [XGBRegressor(...).fit(X_train, y_train)], opaque. *)
Variable Model : Type.
Variable fit : gmap string raw_column -> raw_column -> Model.

Definition train_model (n_rows : nat) (features : gmap string raw_column)
    (target : raw_column) (feature_columns : list string) : result Model :=
  X ← impute features feature_columns;
  let y := target in
  let '(train, test) := train_test_split n_rows in
  let X_train := take_rows train <$> X in
  let y_train := take_rows train y in
  Ok (fit X_train y_train).

End Training.

(** What imputation on the training fold alone would use for a column: the
    mean of its present values among the [train] rows. *)
Definition train_fold_mean (train : list nat) (col : raw_column) : option Q :=
  column_mean (take_rows train col).

(** ** The dashboard's regulation table ([dataAdapter.ts]) *)

Inductive category : Type := power | aero | weight | fuel | tire.

Record RegulationFeature : Type := mk_feature {
  id : string;
  name : string;
  feature_category : category;
  description : string;
  baseline : Q;
  target2026 : Q;
  multiplier : Q
}.

Definition KEY_REGULATION_FEATURES : list RegulationFeature :=
  [ mk_feature "power_ratio" "ERS Power Split" power
      "50% electric power (up from 15%)" 0.15 0.50 3.33;
    mk_feature "aero_coeff" "Active Aerodynamics" aero
      "Movable aero elements for efficiency" 1.00 1.05 1.05;
    mk_feature "weight_ratio" "Chassis Weight" weight
      "768kg minimum (down from 798kg)" 1.00 0.962 0.962;
    mk_feature "fuel_flow_ratio" "Fuel Flow Limit" fuel
      "Reduced flow rate with efficiency focus" 1.00 0.75 0.75;
    mk_feature "tire_grip_ratio" "Tire Specification" tire
      "New 18-inch low-profile tires" 1.00 0.94 0.94;
    mk_feature "avg_pos_last5" "Driver Form" power
      "Average position over last 5 races" 10.0 10.0 1.0 ].

(** ** The scenario transform *)

(** Modelled from the spec: [src/regulation_transform.py]
    ([apply_2026_regulations], [REGULATION_MULTIPLIERS]) is not among the
    sources.  Section 4.1: each listed column is replaced by its value times
    the multiplier, every other column passes through unchanged, and a
    listed column absent from the row is an error. *)
Fixpoint apply_scenario (scenario : list (string * Q)) (row : gmap string Q)
    : result (gmap string Q) :=
  match scenario with
  | [] => Ok row
  | (c, m) :: scenario' =>
      match row !! c with
      | Some v => apply_scenario scenario' (<[c := v * m]> row)
      | None => Raise KeyError
      end
  end.

(** Modelled from the spec: the multiplier table of the future scenario as
    section 4.1 states it. *)
Definition future_scenario : list (string * Q) :=
  [ ("power_ratio", 3.33); ("aero_coeff", 0.70); ("weight_ratio", 0.962);
    ("fuel_flow_ratio", 0.75); ("tire_grip_ratio", 0.94) ].

(** ** The result artifact and its reader ([dataAdapter.ts]) *)

(** One event of [monte_carlo_results.json] as the dashboard reads it: the
    [event_name] string and, under the remaining keys, the scenarios, each
    mapping a driver to its statistics. *)
Record Race : Type := mk_race {
  event_name : string;
  scenarios : dict (dict (dict Q))
}.



(** A JavaScript number that may be NaN ([None]); [undefined] behaves as
    NaN in the sums below. *)
Definition number : Type := option Q.

Definition js_add (a b : number) : number :=
  match a, b with
  | Some x, Some y => Some (x + y)
  | _, _ => None
  end.

(** [arr.reduce((a, b) => a + b, 0) / arr.length]. *)
Definition average (arr : list number) : number :=
  match fold_left js_add arr (Some 0), arr with
  | Some s, _ :: _ => Some (s / Qnat (length arr))
  | _, _ => None
  end.

(** [race.current || {}] and [race['2026'] || {}]. *)
Definition race_current (race : Race) : dict (dict Q) :=
  default [] (dict_get (scenarios race) "current").

Definition race_future (race : Race) : dict (dict Q) :=
  default [] (dict_get (scenarios race) "2026").

(** [stats[driverName]?.mean]. *)
Definition mean_of (scenario : dict (dict Q)) (driverName : string) : number :=
  entry ← dict_get scenario driverName; dict_get entry "mean".

(** [a || b] on numbers: [undefined], NaN and zero are falsy. *)
Definition js_or (a b : number) : number :=
  match a with
  | Some x => if Qeq_bool x 0 then b else Some x
  | None => b
  end.

Definition extractTeamName (driverName : string) : string := "Unknown Team".

Record TeamStats : Type := mk_team_stats {
  ts_baseline : list number;
  ts_predicted : list number;
  ts_drivers : list string   (* a JavaScript Set, in insertion order *)
}.

Definition set_add (s : list string) (x : string) : list string :=
  if bool_decide (x ∈ s) then s else s ++ [x].

(** The body of [Object.keys(current).forEach(driverName => ...)]. *)
Definition add_driver (current future : dict (dict Q))
    (teamStats : dict TeamStats) (driverName : string) : dict TeamStats :=
  let teamName := extractTeamName driverName in
  let old := default (mk_team_stats [] [] []) (dict_get teamStats teamName) in
  dict_set teamStats teamName
    (mk_team_stats
       (ts_baseline old ++ [mean_of current driverName])
       (ts_predicted old ++
          [js_or (mean_of future driverName) (mean_of current driverName)])
       (set_add (ts_drivers old) driverName)).

(** The body of [Object.values(monteCarloResults).forEach(race => ...)]. *)
Definition add_race (teamStats : dict TeamStats) (race : Race)
    : dict TeamStats :=
  let current := race_current race in
  let future := race_future race in
  fold_left (add_driver current future) (dict_keys current) teamStats.

Definition is_space (c : ascii) : bool :=
  bool_decide (nat_of_ascii c ∈ [32; 9; 10; 11; 12; 13]%nat).

Definition lower_ascii (c : ascii) : ascii :=
  let n := nat_of_ascii c in
  if ((65 <=? n) && (n <=? 90))%nat then ascii_of_nat (n + 32) else c.

(** [s.toLowerCase()] on ASCII text. *)
Fixpoint toLowerCase (s : string) : string :=
  match s with
  | EmptyString => EmptyString
  | String c s' => String (lower_ascii c) (toLowerCase s')
  end.

(** [s.replace(/\s+/g, '-')]: every run of white space becomes one dash. *)
Fixpoint replace_spaces (in_run : bool) (s : string) : string :=
  match s with
  | EmptyString => EmptyString
  | String c s' =>
      if is_space c
      then if in_run then replace_spaces true s'
           else String "-" (replace_spaces true s')
      else String c (replace_spaces false s')
  end.

Definition team_id (teamName : string) : string :=
  replace_spaces false (toLowerCase teamName).

Record Driver : Type := mk_driver {
  driver_id : string;
  driver_name : string;
  driver_number : nat;
  driver_teamId : string;
  baseline2025Position : Q;
  predicted2026Position : Q;
  confidence : Q
}.

Record TeamPerformance : Type := mk_team {
  teamId : string;
  teamName : string;
  constructor_ : string;
  baseline2025 : number;
  predicted2026 : number;
  drivers : list Driver;
  factorImpacts : dict Q
}.

Definition team_performance (entry : string * TeamStats) : TeamPerformance :=
  let '(teamName, stats) := entry in
  mk_team (team_id teamName) teamName teamName
    (average (ts_baseline stats)) (average (ts_predicted stats))
    (imap (fun idx name =>
             mk_driver (teamName +:+ "-" +:+ pretty idx) name (idx + 1)
               (team_id teamName) 10 10 0.85)
          (ts_drivers stats))
    [].

Definition extractTeamPerformance (monteCarloResults : dict Race)
    : list TeamPerformance :=
  let teamStats := fold_left add_race (map snd monteCarloResults) [] in
  map team_performance teamStats.

(** ** Statements about the summary *)

(** A fractional position that lies within an array. *)
Definition in_range (s : list Q) (v : Q) : Prop :=
  0 <= v ∧ v <= Qnat (length s) - 1.

(** The order relations between the statistics of one driver. *)
Definition aggregation_consistent (entry : dict Q) : Prop :=
  ∃ mn p5 med p95 mx t3 t5,
    dict_get entry "min" = Some mn ∧
    dict_get entry "percentile_5" = Some p5 ∧
    dict_get entry "median" = Some med ∧
    dict_get entry "percentile_95" = Some p95 ∧
    dict_get entry "max" = Some mx ∧
    dict_get entry "top3_probability" = Some t3 ∧
    dict_get entry "top5_probability" = Some t5 ∧
    (mn <= p5 ∧ p5 <= med ∧ med <= p95 ∧ p95 <= mx) ∧
    (0 <= t3 ∧ t3 <= t5 ∧ t5 <= 1).

(** ** Statements about the simulator *)

(** All values of a row lie in a closed interval. *)
Definition within (lo hi : Q) (values : list Q) : Prop :=
  Forall (fun v => lo <= v ∧ v <= hi) values.

(** The frame holds every listed column. *)
Definition has_columns (cols : list string) (frame : DataFrame) : Prop :=
  ∀ c, c ∈ cols → is_Some (df_data frame !! c).

(** Two frames have the same rows and the same column labels. *)
Definition same_shape (frame frame' : DataFrame) : Prop :=
  df_len frame' = df_len frame ∧
  ∀ c, is_Some (df_data frame' !! c) ↔ is_Some (df_data frame !! c).

(** Every column of the frame has [df_len] rows. *)
Definition well_formed (frame : DataFrame) : Prop :=
  ∀ c v, df_data frame !! c = Some v → length v = df_len frame.

(** What numpy guarantees of the two samplers: [size] samples come back. *)
Definition sized_generator (G : Type) `{Generator G} : Prop :=
  (∀ g loc scale size, length (rng_normal g loc scale size).1 = size) ∧
  (∀ g low high size, length (rng_integers g low high size).1 = size).

(** Two frames agree on every column outside [cols]. *)
Definition same_outside (cols : list string) (frame frame' : DataFrame) : Prop :=
  ∀ c, c ∉ cols → df_data frame' !! c = df_data frame !! c.

(** A column that one of the three perturbation groups selects. *)
Definition perturbed_col (col : string) : bool :=
  is_form_col col || is_weather_col col || is_strategy_col col.

(** The feature catalogue of the repository, by category. *)
Definition driver_form_features : list string :=
  ["avg_pos_last5"; "points_last5"; "dnf_count_last5"].
Definition qualifying_features : list string :=
  ["grid_position"; "grid_vs_race_delta"].
Definition track_features : list string :=
  ["track_type_index"; "corners"; "straight_fraction"; "overtaking_difficulty"].
Definition weather_features : list string :=
  ["rain_probability"; "track_temperature"; "wind_speed"].
Definition strategy_features : list string :=
  ["pit_stops_count"; "tire_compound_change_count"; "fuel_efficiency_rating"].
Definition regulation_features : list string :=
  ["power_ratio"; "aero_coeff"; "weight_ratio"; "tire_grip_ratio";
   "fuel_flow_ratio"].
Definition derived_features : list string :=
  ["team_consistency_score"; "driver_aggressiveness_index"].
Definition context_features : list string :=
  ["season_year"; "round_number"; "season_phase"].

(** The whole catalogue, in the order of the documentation. *)
Definition catalogue : list string :=
  driver_form_features ++ qualifying_features ++ track_features ++
  weather_features ++ strategy_features ++ regulation_features ++
  derived_features ++ context_features.

(** The documented columns outside the form, weather and strategy groups
    whose names carry none of the perturbation markers. *)
Definition unmarked_features : list string :=
  track_features ++ derived_features ++ context_features ++
  ["power_ratio"; "aero_coeff"; "weight_ratio"; "tire_grip_ratio"].


(** Every way to pick [k] distinct positions out of [pool], in any order. *)
Fixpoint arrangements (k : nat) (pool : list nat) : list (list nat) :=
  match k with
  | O => [[]]
  | S k' =>
      flat_map (fun i =>
                  map (cons i)
                    (arrangements k' (filter (fun j => j ≠ i) pool)))
               pool
  end.

(** ** Example data *)

(** A square root to six decimals, for examples. *)
Definition approx_sqrt (q : Q) : Q :=
  Z.sqrt (Qnum q * 10 ^ 12 / QDen q) # 10 ^ 6.

(** A generator for examples: every normal sample is [loc + scale], every
    integer sample is [high - 1], and the state counts the calls. *)
#[global] Instance stub_generator : Generator nat := {|
  rng_normal g loc scale size := (repeat (loc + scale) size, S g);
  rng_integers g low high size := (repeat (high - 1)%Z size, S g)
|}.

(** A three-driver event and a regressor that predicts position 10 for
    every driver. *)
Definition example_columns : list string :=
  ["grid_position"; "rain_probability"; "fuel_efficiency_rating";
   "fuel_flow_ratio"; "corners"].

Definition example_features : DataFrame :=
  mk_frame 3 ("position" :: example_columns)
    {[ "position" := [1; 2; 3];
       "grid_position" := [2; 1; 3];
       "rain_probability" := [0.2; 0.2; 0.2];
       "fuel_efficiency_rating" := [1; 1; 1];
       "fuel_flow_ratio" := [1; 1; 1];
       "corners" := [19; 19; 19] ]}.

Definition example_simulator : MonteCarloSimulator :=
  mk_simulator (fun frame => Ok (repeat 10 (df_len frame))) example_columns
    (mk_config 2 0.05 0.10 0.10 42).

Definition example_drivers : list string := ["VER"; "PER"; "SAI"].

Definition example_predictions : ndarray :=
  mk_ndarray 3 [[1; 4; 12]; [3; 6; 11]; [2; 5; 13]; [4; 2; 12]].

Definition example_summary : dict (dict Q) :=
  match _summarise_predictions approx_sqrt example_predictions example_drivers with
  | Ok stats => stats
  | Raise _ => []
  end.

(** A six-row column with one missing value. *)
Definition example_table : gmap string raw_column :=
  {[ "grid_position" := [None; Some 1; Some 2; Some 4; Some 8; Some 16] ]}.

(** A feature row under the current rules. *)
Definition baseline_row : gmap string Q :=
  {[ "power_ratio" := 0.15; "aero_coeff" := 1; "weight_ratio" := 1;
     "fuel_flow_ratio" := 1; "tire_grip_ratio" := 1;
     "avg_pos_last5" := 10; "corners" := 19 ]}.

(** The statistics of the same event under the future scenario. *)
Definition example_predictions_future : ndarray :=
  mk_ndarray 3 [[2; 3; 12]; [4; 5; 11]; [3; 4; 13]; [5; 2; 12]].

Definition example_summary_future : dict (dict Q) :=
  match _summarise_predictions approx_sqrt example_predictions_future
          example_drivers with
  | Ok stats => stats
  | Raise _ => []
  end.

(** The example event after one perturbation from generator state 0. *)
Definition example_perturbed : DataFrame :=
  match (_perturb_features example_simulator example_features 0%nat).1 with
  | Ok frame' => frame'
  | Raise _ => example_features
  end.

(** A split for examples: the last fifth of the rows (rounded up) is held
    out, without shuffling. *)
Definition example_split (n : nat) : list nat * list nat :=
  let n_test := ((n + 4) / 5)%nat in
  (seq 0 (n - n_test), seq (n - n_test) n_test).

Definition example_target : raw_column :=
  [Some 1; Some 2; Some 3; Some 4; Some 5; Some 6].

(** A stand-in for the fitted regressor in examples: the training data. *)
Definition example_model : gmap string raw_column * raw_column :=
  match train_model example_split _ pair 6 example_table example_target
          ["grid_position"] with
  | Ok model => model
  | Raise _ => (∅, [])
  end.

(** The fill value [m] differs from the mean of the column over the
    training rows [train]. *)
Definition differs_from_fold_mean (m : Q) (col : raw_column)
    (train : list nat) : bool :=
  match train_fold_mean train col with
  | Some m' => negb (Qeq_bool m m')
  | None => true
  end.

(** An event object handed to the dashboard readers in the examples, with
    its second scenario under the key [future_key]. *)
Definition event_object (future_key : string) (label : string)
    (current future : dict (dict Q)) : Race :=
  mk_race label [("current", current); (future_key, future)].

(** The example event as an artifact whose second scenario is stored under
    the key [future_key]. *)
Definition example_artifact (future_key : string) : dict Race :=
  [("2024_R01",
    event_object future_key "Bahrain Grand Prix"
      example_summary example_summary_future)].

(** The example table after imputation. *)
Definition example_imputed : gmap string raw_column :=
  match impute example_table ["grid_position"] with
  | Ok X => X
  | Raise _ => ∅
  end.

(** The baseline row under the future scenario. *)
Definition future_row : gmap string Q :=
  match apply_scenario future_scenario baseline_row with
  | Ok row' => row'
  | Raise _ => ∅
  end.

(** The statistics of one driver of the example. *)
Definition example_entry : dict Q :=
  default [] (dict_get example_summary "PER").

(** ** Further example data *)

(** An accumulator with a single column, and one with no draw. *)
Definition example_single_column : ndarray := mk_ndarray 1 [[2]; [3]].

Definition example_no_draws : ndarray := np_zeros 0 3.

(** The statistics [run] returns for the example event. *)
Definition example_run_stats : dict (dict Q) :=
  match (run example_simulator approx_sqrt example_features example_drivers
           None 0%nat).1 with
  | Ok stats => stats
  | Raise _ => []
  end.

Definition example_run_entry : dict Q :=
  default [] (dict_get example_run_stats "PER").

(** The example event without its [rain_probability] column. *)
Definition example_features_incomplete : DataFrame :=
  mk_frame 3 (df_columns example_features)
    (delete "rain_probability" (df_data example_features)).

(** A generator whose normal samples grow with its state, so that the
    perturbed frames differ from draw to draw. *)
Record ramp : Type := mk_ramp { ramp_calls : nat }.

#[global] Instance ramp_generator : Generator ramp := {|
  rng_normal g loc scale size :=
    (repeat (loc + scale * Qnat (ramp_calls g)) size,
     mk_ramp (S (ramp_calls g)));
  rng_integers g low high size :=
    (repeat low size, mk_ramp (S (ramp_calls g)))
|}.

(** A simulator on the grid position alone, with a regressor that raises
    as soon as the first grid position has moved away from 2. *)
Definition late_failing_simulator : MonteCarloSimulator :=
  mk_simulator
    (fun frame =>
       match df_data frame !! "grid_position" with
       | Some (x :: _) =>
           if Qeq_bool x 2 then Ok (repeat 10 (df_len frame))
           else Raise ValueError
       | _ => Raise KeyError
       end)
    ["grid_position"] (mk_config 3 0.05 0.10 0.10 42).

Definition example_grid_matrix : DataFrame :=
  mk_frame 3 ["grid_position"] {[ "grid_position" := [2; 1; 3] ]}.

(** The frame the second draw of [late_failing_simulator] predicts on. *)
Definition example_grid_second_draw : DataFrame :=
  match _perturb_features late_failing_simulator example_grid_matrix
          (mk_ramp 1) with
  | (Ok frame, _) => frame
  | (Raise _, _) => example_grid_matrix
  end.

(** A simulator whose feature columns carry no perturbation marker. *)
Definition unmarked_simulator : MonteCarloSimulator :=
  mk_simulator (fun frame => Ok (repeat 10 (df_len frame)))
    ["corners"; "power_ratio"] (mk_config 2 0.05 0.10 0.10 42).

(** A simulator with two form columns and no other marked column. *)
Definition form_simulator : MonteCarloSimulator :=
  mk_simulator (fun frame => Ok (repeat 10 (df_len frame)))
    ["avg_pos_last5"; "grid_position"; "corners"]
    (mk_config 2 0.05 0.10 0.10 42).

Definition form_features : DataFrame :=
  mk_frame 2 ["avg_pos_last5"; "grid_position"; "corners"]
    {[ "avg_pos_last5" := [4; 8];
       "grid_position" := [2; 10];
       "corners" := [19; 19] ]}.

Definition form_perturbed : DataFrame :=
  match (_perturb_features form_simulator form_features 0%nat).1 with
  | Ok frame' => frame'
  | Raise _ => form_features
  end.

(** Two feature columns, one of them without any present value. *)
Definition example_table_two : gmap string raw_column :=
  {[ "grid_position" := [None; Some 1; Some 2; Some 4; Some 8; Some 16];
     "wind_speed" := [None; None; None; None; None; None] ]}.

(** ** Regulation factors of the dashboard *)

(** [factorId.includes(token)]. *)
Definition includes (s token : string) : bool := contains token s.

Definition getCategoryFromFactorId (factorId : string) : category :=
  if includes factorId "power" || includes factorId "hybrid"
     || includes factorId "boost" then power
  else if includes factorId "aero" then aero
  else if includes factorId "chassis" || includes factorId "weight" then weight
  else if includes factorId "tyre" || includes factorId "tire" then tire
  else if includes factorId "fuel" then fuel
  else power.

Record RegulationFactor : Type := mk_factor {
  factor_id : string;
  factor_name : string;
  impact : Q;
  factor_category : category;
  factor_description : string
}.

(** An entry of [data.factors] in [regulation_factors_breakdown.json]. *)
Record FactorJson : Type := mk_factor_json {
  json_factor_id : string;
  json_factor_name : string;
  impact_score : Q;
  json_description : string
}.

(** [loadRegulationFactors]; [response] is [None] when the fetch, the
    parsing or the reading of [data.factors] throws, which the [catch]
    branch answers from [KEY_REGULATION_FEATURES]. *)
Definition loadRegulationFactors (response : option (list FactorJson))
    : list RegulationFactor :=
  match response with
  | Some factors =>
      map (fun factor =>
             mk_factor (json_factor_id factor) (json_factor_name factor)
               (impact_score factor)
               (getCategoryFromFactorId (json_factor_id factor))
               (json_description factor))
          factors
  | None =>
      map (fun f =>
             mk_factor (id f) (name f) (multiplier f - 1) (feature_category f)
               (description f))
          KEY_REGULATION_FEATURES
  end.

(** ** Circuit comparisons of the dashboard *)

Definition js_sub (a b : number) : number :=
  match a, b with
  | Some x, Some y => Some (x - y)
  | _, _ => None
  end.

Definition js_mul (a b : number) : number :=
  match a, b with
  | Some x, Some y => Some (x * y)
  | _, _ => None
  end.

(** The [undefined] entries of an array.  The arrays below hold the [mean]
    fields read from the parsed artifact: finite numbers, or [undefined]
    ([None]) where the field is missing. *)
Definition undefined_of (arr : list number) : list number :=
  omap (fun x : number =>
          match x with None => Some None | Some _ => None end) arr.

(** [[...arr].sort((a, b) => a - b)]: the numbers in ascending order;
    [sort] moves every [undefined] to the end without comparing it. *)
Definition js_sort (arr : list number) : list number :=
  (Some <$> merge_sort Qle (omap (fun x : number => x) arr))
  ++ undefined_of arr.

(** [arr[i]]: [undefined] outside the array. *)
Definition js_index (arr : list number) (i : Z) : number :=
  if (i <? 0)%Z then None else mjoin (arr !! Z.to_nat i).

Definition median (arr : list number) : number :=
  let sorted := js_sort arr in
  let mid := (Z.of_nat (length sorted) / 2)%Z in
  if Z.even (Z.of_nat (length sorted))
  then (fun s => s / 2) <$>
         js_add (js_index sorted (mid - 1)) (js_index sorted mid)
  else js_index sorted mid.

Record MonteCarloOutput : Type := mk_output {
  mc_mean : number;
  mc_median : number;
  mc_stdDev : number;
  confidence95Lower : number;
  confidence95Upper : number;
  iterations : nat
}.

Record CircuitComparison : Type := mk_comparison {
  trackId : string;
  trackName : string;
  cc_baseline2025 : MonteCarloOutput;
  cc_predicted2026 : MonteCarloOutput;
  impactDelta : number
}.

(** [a || b] on strings: the empty string is falsy. *)
Definition js_or_string (a b : string) : string :=
  if decide (a = "") then b else a.

(** [obj[key]] read for a property access that follows: a missing key gives
    [undefined], whose property access throws a [TypeError]. *)
Definition js_object {V} (d : dict V) (key : string) : result V :=
  match dict_get d key with
  | Some v => Ok v
  | None => Raise TypeError
  end.

Section Circuits.

Variable fsqrt : Q -> Q.

Definition stdDev (arr : list number) : number :=
  let avg := average arr in
  let squareDiffs :=
    map (fun value => (fun d => d * d) <$> js_sub value avg) arr in
  fsqrt <$> average squareDiffs.

(** The object literal built for [baseline2025] and for [predicted2026]. *)
Definition monte_carlo_output (positions : list number) : MonteCarloOutput :=
  let avg := average positions in
  mk_output avg (median positions) (stdDev positions)
    (js_sub avg (js_mul (Some 1.96) (stdDev positions)))
    (js_add avg (js_mul (Some 1.96) (stdDev positions)))
    2000.

(** The callback of [Object.entries(monteCarloResults).map(...)]. *)
Definition circuit_comparison (entry : string * Race)
    : result CircuitComparison :=
  let '(raceKey, raceData) := entry in
  current ← js_object (scenarios raceData) "current";
  let drivers := dict_keys current in
  let currentPositions := map (mean_of current) drivers in
  futurePositions ←
    mapM (fun d =>
            future ← js_object (scenarios raceData) "2026";
            Ok (js_or (mean_of future d) (mean_of current d)))
         drivers;
  let avgCurrent := average currentPositions in
  let avgFuture := average futurePositions in
  Ok (mk_comparison raceKey (js_or_string (event_name raceData) raceKey)
        (monte_carlo_output currentPositions)
        (monte_carlo_output futurePositions)
        (js_sub avgFuture avgCurrent)).

Definition extractCircuitComparisons (monteCarloResults : dict Race)
    : result (list CircuitComparison) :=
  mapM circuit_comparison monteCarloResults.

End Circuits.

(** ** Statement vocabulary for the dashboard readers *)

(** The (event, driver) pairs [extractTeamPerformance] visits, in order:
    for every event, the drivers listed under [current]. *)
Definition visited (monteCarloResults : dict Race) : list (Race * string) :=
  race ← map snd monteCarloResults;
  (fun driverName => (race, driverName)) <$> dict_keys (race_current race).

Definition baseline_means (monteCarloResults : dict Race) : list number :=
  (fun p : Race * string => mean_of (race_current p.1) p.2)
    <$> visited monteCarloResults.

Definition predicted_means (monteCarloResults : dict Race) : list number :=
  (fun p : Race * string =>
     js_or (mean_of (race_future p.1) p.2) (mean_of (race_current p.1) p.2))
    <$> visited monteCarloResults.

(** The events [extractCircuitComparisons] can read: [current] is present,
    and so is [2026] unless [current] lists no driver. *)
Definition readable (race : Race) : Prop :=
  ∃ current, dict_get (scenarios race) "current" = Some current ∧
             (dict_keys current = [] ∨
              is_Some (dict_get (scenarios race) "2026")).

(** The statistics collected for the placeholder team. *)
Definition pooled (teamStats : dict TeamStats) : TeamStats :=
  default (mk_team_stats [] [] []) (dict_get teamStats "Unknown Team").

Fixpoint string_forall (p : ascii -> bool) (s : string) : bool :=
  match s with
  | EmptyString => true
  | String c s' => p c && string_forall p s'
  end.

(** Text made of ASCII characters only. *)
Definition ascii_text (s : string) : bool :=
  string_forall (fun c => (nat_of_ascii c <? 128)%nat) s.

Definition is_upper (c : ascii) : bool :=
  ((65 <=? nat_of_ascii c) && (nat_of_ascii c <=? 90))%nat.

(** Two events naming the same drivers. *)
Definition example_season : dict Race :=
  [("2024_R01",
    event_object "2026" "Bahrain Grand Prix"
      example_summary example_summary_future);
   ("2024_R02",
    event_object "2026" "Saudi Arabian Grand Prix"
      example_summary_future example_summary)].

(** The comparison read from the example event. *)
Definition example_comparison : CircuitComparison :=
  match circuit_comparison approx_sqrt
          ("2024_R01",
           event_object "2026" "Bahrain Grand Prix"
             example_summary example_summary_future) with
  | Ok c => c
  | Raise _ =>
      mk_comparison "" "" (monte_carlo_output approx_sqrt [])
        (monte_carlo_output approx_sqrt []) None
  end.

(** The example event with a [2026] scenario that names no driver. *)
Definition example_event_unchanged : Race :=
  event_object "2026" "Bahrain Grand Prix" example_summary [].

Definition example_comparison_unchanged : CircuitComparison :=
  match circuit_comparison approx_sqrt ("2024_R01", example_event_unchanged)
  with
  | Ok c => c
  | Raise _ =>
      mk_comparison "" "" (monte_carlo_output approx_sqrt [])
        (monte_carlo_output approx_sqrt []) None
  end.

(** * Properties *)

(** ** Dictionaries *)

Section DictFacts.
Context {V : Type}.
Implicit Types (d : dict V) (k : string) (v : V).

Lemma dict_get_set_eq d k v : dict_get (dict_set d k v) k = Some v.
Proof.
  induction d as [|[k' v'] d IH]; simpl.
  - by rewrite String.eqb_refl.
  - destruct (String.eqb k k') eqn:E; simpl.
    + by rewrite String.eqb_refl.
    + by rewrite E.
Qed.

Lemma dict_get_set_ne d k k' v :
  k ≠ k' → dict_get (dict_set d k v) k' = dict_get d k'.
Proof.
  intros Hne. induction d as [|[k0 v0] d IH]; simpl.
  - destruct (String.eqb k' k) eqn:E; [|done].
    apply String.eqb_eq in E. congruence.
  - destruct (String.eqb k k0) eqn:E; simpl.
    + apply String.eqb_eq in E. subst k0.
      destruct (String.eqb k' k) eqn:E'; [|done].
      apply String.eqb_eq in E'. congruence.
    + by rewrite IH.
Qed.

End DictFacts.

(** ** Counting below a threshold *)

Lemma Qnat_S n : Qnat (S n) == Qnat n + 1.
Proof.
  unfold Qnat. rewrite Nat2Z.inj_succ, <- Z.add_1_r, inject_Z_plus.
  change (inject_Z 1) with 1. lra.
Qed.

Lemma Qnat_nonneg n : 0 <= Qnat n.
Proof.
  unfold Qnat. replace 0 with (inject_Z 0) by done.
  rewrite <- Zle_Qle. lia.
Qed.

Lemma Qnat_pos n : (0 < n)%nat → 0 < Qnat n.
Proof.
  intros Hn. unfold Qnat. replace 0 with (inject_Z 0) by done.
  rewrite <- Zlt_Qlt. lia.
Qed.

Lemma Qnat_le n m : (n ≤ m)%nat → Qnat n <= Qnat m.
Proof. intros Hn. unfold Qnat. rewrite <- Zle_Qle. lia. Qed.

Lemma count_le_cons a k v :
  count_le (v :: a) k = if decide (v <= k) then S (count_le a k) else count_le a k.
Proof. unfold count_le. rewrite filter_cons. by destruct (decide (v <= k)). Qed.

Lemma np_sum_indicator a k : np_sum (map (le_indicator k) a) == Qnat (count_le a k).
Proof.
  induction a as [|v a IH]; simpl.
  - reflexivity.
  - rewrite count_le_cons, IH. unfold le_indicator.
    destruct (decide (v <= k)); [rewrite Qnat_S|]; lra.
Qed.

Lemma np_le_mean_fraction a k : np_le_mean a k == fraction_le a k.
Proof.
  unfold np_le_mean, np_mean, fraction_le.
  by rewrite np_sum_indicator, length_map.
Qed.

Lemma count_le_length a k : (count_le a k ≤ length a)%nat.
Proof. unfold count_le. apply length_filter. Qed.

Lemma count_le_mono a k1 k2 : k1 <= k2 → (count_le a k1 ≤ count_le a k2)%nat.
Proof.
  intros Hk. induction a as [|v a IH]; [done|].
  rewrite !count_le_cons.
  destruct (decide (v <= k1)) as [H1|H1], (decide (v <= k2)) as [H2|H2]; try lia.
  exfalso. apply H2. lra.
Qed.

(** ** The summary loop *)

Section SummariseFacts.
Variable fsqrt : Q -> Q.

Lemma summarise_from_other predictions idx ds st stats d :
  summarise_from fsqrt predictions idx ds st = Ok stats →
  d ∉ ds →
  dict_get stats d = dict_get st d.
Proof.
  revert idx st. induction ds as [|d0 ds IH]; intros idx st Hrun Hd; simpl in Hrun.
  - by inversion Hrun.
  - destruct (column predictions idx) as [dist|]; [|done]. simpl in Hrun.
    destruct (column_stats fsqrt dist) as [entry|]; [|done]. simpl in Hrun.
    apply not_elem_of_cons in Hd as [Hne Hd].
    rewrite (IH _ _ Hrun Hd). by apply dict_get_set_ne.
Qed.

Lemma summarise_from_lookup predictions idx ds st stats k d :
  summarise_from fsqrt predictions idx ds st = Ok stats →
  NoDup ds →
  ds !! k = Some d →
  ∃ dist entry,
    column predictions (idx + k) = Ok dist ∧
    column_stats fsqrt dist = Ok entry ∧
    dict_get stats d = Some entry.
Proof.
  revert idx st k. induction ds as [|d0 ds IH]; intros idx st k Hrun Hnd Hk.
  - done.
  - simpl in Hrun.
    destruct (column predictions idx) as [dist|] eqn:Hcol; [|done]. simpl in Hrun.
    destruct (column_stats fsqrt dist) as [entry|] eqn:Hst; [|done]. simpl in Hrun.
    apply NoDup_cons in Hnd as [Hd0 Hnd].
    destruct k as [|k]; simpl in Hk.
    + inversion Hk; subst d0. exists dist, entry.
      rewrite Nat.add_0_r. split_and!; [done..|].
      rewrite (summarise_from_other _ _ _ _ _ _ Hrun Hd0).
      apply dict_get_set_eq.
    + replace (idx + S k)%nat with (S idx + k)%nat by lia.
      by eapply IH.
Qed.

(** Every entry of the result is the summary of one column. *)
Lemma summarise_from_entries predictions idx ds st stats d entry :
  summarise_from fsqrt predictions idx ds st = Ok stats →
  dict_get stats d = Some entry →
  dict_get st d = Some entry ∨
  ∃ k dist, column predictions k = Ok dist ∧ column_stats fsqrt dist = Ok entry.
Proof.
  revert idx st. induction ds as [|d0 ds IH]; intros idx st Hrun Hget; simpl in Hrun.
  - inversion Hrun; subst. by left.
  - destruct (column predictions idx) as [dist|] eqn:Hcol; [|done]. simpl in Hrun.
    destruct (column_stats fsqrt dist) as [e0|] eqn:Hst; [|done]. simpl in Hrun.
    destruct (IH _ _ Hrun Hget) as [Hin|Hex]; [|by right].
    destruct (decide (d0 = d)) as [->|Hne].
    + rewrite dict_get_set_eq in Hin. inversion Hin; subst. right. eauto.
    + rewrite dict_get_set_ne in Hin by done. by left.
Qed.

End SummariseFacts.

(** C1.  For every accumulator of draws [predictions] and every driver of
    the roster (driver names being distinct), the [top3_probability] and
    [top5_probability] that [_summarise_predictions] reports for the driver
    at position [idx] are the fractions of the draws in which the value
    stored for that driver, [predictions[:, idx]], is at most 3 and at most
    5: only the driver's own column is read, no other driver's value and no
    rank within a draw. *)
Theorem top_k_probability_is_own_column_fraction
    (fsqrt : Q -> Q) (predictions : ndarray) (drivers : list string)
    (stats : dict (dict Q)) (idx : nat) (driver : string) :
  NoDup drivers →
  _summarise_predictions fsqrt predictions drivers = Ok stats →
  drivers !! idx = Some driver →
  ∃ entry p3 p5,
    dict_get stats driver = Some entry ∧
    dict_get entry "top3_probability" = Some p3 ∧
    dict_get entry "top5_probability" = Some p5 ∧
    let distribution := map (fun draw => nth idx draw 0) (rows predictions) in
    p3 == fraction_le distribution 3 ∧ p5 == fraction_le distribution 5.
Proof.
  intros Hnd Hrun Hidx.
  destruct (summarise_from_lookup _ _ _ _ _ _ _ _ Hrun Hnd Hidx)
    as (dist & entry & Hcol & Hst & Hget).
  simpl in Hcol. unfold column in Hcol.
  destruct (idx <? ncols predictions)%nat; [|done].
  inversion Hcol as [Hdist]. clear Hcol.
  destruct dist as [|x rest] eqn:Hd; [done|].
  simpl in Hst. inversion Hst as [Hentry]. clear Hst.
  exists entry, (np_le_mean dist 3), (np_le_mean dist 5).
  subst entry dist. rewrite Hdist. split_and!; try done.
  simpl. split; apply np_le_mean_fraction.
Qed.

(** On the example accumulator, for the second driver. *)
Lemma top_k_fraction_on_example :
  NoDup example_drivers ∧
  _summarise_predictions approx_sqrt example_predictions example_drivers
    = Ok example_summary ∧
  example_drivers !! 1%nat = Some "PER" ∧
  ∃ entry p3 p5,
    dict_get example_summary "PER" = Some entry ∧
    dict_get entry "top3_probability" = Some p3 ∧
    dict_get entry "top5_probability" = Some p5 ∧
    let distribution :=
      map (fun draw => nth 1 draw 0) (rows example_predictions) in
    p3 == fraction_le distribution 3 ∧ p5 == fraction_le distribution 5.
Proof.
  assert (NoDup example_drivers) as Hnd
    by (apply (bool_decide_unpack _); vm_compute; reflexivity).
  assert (_summarise_predictions approx_sqrt example_predictions
            example_drivers = Ok example_summary) as Hrun
    by (vm_compute; reflexivity).
  assert (example_drivers !! 1%nat = Some "PER") as Hidx by reflexivity.
  split_and!; [exact Hnd|exact Hrun|exact Hidx|].
  exact (top_k_probability_is_own_column_fraction approx_sqrt
           example_predictions example_drivers example_summary 1 "PER"
           Hnd Hrun Hidx).
Defined.


#[local] Instance Qle_trans_inst : Transitive Qle := Qle_trans.
#[local] Instance Qle_total_inst : Total Qle.
Proof. intros x y. destruct (Qlt_le_dec x y) as [Hlt|Hle]; [left; by apply Qlt_le_weak|by right]. Qed.

(** ** Order statistics *)

Lemma np_sort_sorted a : StronglySorted Qle (np_sort a).
Proof. apply StronglySorted_merge_sort; apply _. Qed.

Lemma np_sort_perm a : np_sort a ≡ₚ a.
Proof. apply merge_sort_Permutation. Qed.

Lemma np_sort_length a : length (np_sort a) = length a.
Proof. by rewrite np_sort_perm. Qed.

Lemma nth_sorted_le (s : list Q) i j :
  StronglySorted Qle s → (i ≤ j)%nat → (j < length s)%nat →
  nth i s 0 <= nth j s 0.
Proof.
  intros Hs. revert i j. induction Hs as [|x l Hs IH Hall]; intros i j Hij Hj.
  - simpl in Hj. lia.
  - destruct j as [|j]; [replace i with 0%nat by lia; apply Qle_refl|].
    simpl in Hj. destruct i as [|i]; simpl.
    + rewrite Forall_lookup in Hall.
      destruct (lookup_lt_is_Some_2 l j) as [y Hy]; [lia|].
      rewrite (nth_lookup_Some _ _ _ _ Hy). eauto.
    + apply IH; lia.
Qed.

Lemma nth_elem_of (s : list Q) i : (i < length s)%nat → nth i s 0 ∈ s.
Proof.
  intros Hi. destruct (lookup_lt_is_Some_2 s i Hi) as [y Hy].
  rewrite (nth_lookup_Some _ _ _ _ Hy). by eapply list_elem_of_lookup_2.
Qed.

Lemma np_min_le a : ∀ x, np_min x a <= x ∧ Forall (fun v => np_min x a <= v) a.
Proof.
  induction a as [|v a IH]; intros x; simpl.
  - split; [apply Qle_refl|constructor].
  - unfold np_min in *. simpl.
    destruct (IH (if decide (v <= x) then v else x)) as [H1 H2].
    destruct (decide (v <= x)) as [Hv|Hv].
    + split; [lra|]. constructor; [done|done].
    + apply Qnot_le_lt in Hv. split; [done|]. constructor; [lra|done].
Qed.

Lemma np_max_ge a : ∀ x, x <= np_max x a ∧ Forall (fun v => v <= np_max x a) a.
Proof.
  induction a as [|v a IH]; intros x; simpl.
  - split; [apply Qle_refl|constructor].
  - unfold np_max in *. simpl.
    destruct (IH (if decide (x <= v) then v else x)) as [H1 H2].
    destruct (decide (x <= v)) as [Hv|Hv].
    + split; [lra|]. constructor; [done|done].
    + apply Qnot_le_lt in Hv. split; [done|]. constructor; [lra|done].
Qed.

Lemma Qfloor_bounds (v : Q) : inject_Z (Qfloor v) <= v < inject_Z (Qfloor v) + 1.
Proof.
  split; [apply Qfloor_le|].
  pose proof (Qlt_floor v) as Hlt. rewrite inject_Z_plus in Hlt.
  change (inject_Z 1) with 1 in Hlt. done.
Qed.

Lemma Qfloor_unique (v : Q) (z : Z) :
  inject_Z z <= v → v < inject_Z z + 1 → Qfloor v = z.
Proof.
  intros Hlo Hhi. destruct (Qfloor_bounds v) as [H1 H2].
  assert (inject_Z z < inject_Z (Qfloor v + 1)) as Ha.
  { rewrite inject_Z_plus. change (inject_Z 1) with 1. lra. }
  assert (inject_Z (Qfloor v) < inject_Z (z + 1)) as Hb.
  { rewrite inject_Z_plus. change (inject_Z 1) with 1. lra. }
  rewrite <- Zlt_Qlt in Ha, Hb. lia.
Qed.

Section Lerp.
Variable s : list Q.
Hypothesis Hsorted : StronglySorted Qle s.
Hypothesis Hne : (0 < length s)%nat.

Let n := length s.

Lemma floor_in_range v :
  in_range s v → (0 ≤ Qfloor v ∧ Qfloor v ≤ Z.of_nat n - 1)%Z.
Proof.
  intros [H0 H1]. destruct (Qfloor_bounds v) as [Hlo Hhi]. split.
  - assert (inject_Z (-1) < inject_Z (Qfloor v)) as Ha.
    { change (inject_Z (-1)) with (-1). lra. }
    rewrite <- Zlt_Qlt in Ha. lia.
  - assert (inject_Z (Qfloor v) <= inject_Z (Z.of_nat n - 1)) as Ha.
    { unfold Zminus. rewrite inject_Z_plus, inject_Z_opp.
      change (inject_Z 1) with 1. unfold Qnat in H1. fold n in H1. lra. }
    rewrite <- Zle_Qle in Ha. lia.
Qed.

Lemma lerp_at_between v :
  in_range s v →
  nth (Z.to_nat (Qfloor v)) s 0 <= lerp_at s v
  ∧ lerp_at s v <= nth (clip_index n (Qfloor v + 1)) s 0.
Proof.
  intros Hv. destruct (floor_in_range v Hv) as [Hp0 Hp1].
  destruct (Qfloor_bounds v) as [Hlo Hhi].
  unfold lerp_at. fold n.
  assert (clip_index n (Qfloor v) = Z.to_nat (Qfloor v)) as -> by (unfold clip_index; lia).
  set (lo := nth (Z.to_nat (Qfloor v)) s 0).
  set (hi := nth (clip_index n (Qfloor v + 1)) s 0).
  assert (lo <= hi) as Hlh.
  { apply nth_sorted_le; [done|unfold clip_index; lia|unfold clip_index; fold n; lia]. }
  set (g := v - inject_Z (Qfloor v)).
  assert (0 <= g ∧ g <= 1) as [Hg0 Hg1] by (unfold g; split; lra).
  split; nra.
Qed.

Lemma lerp_at_mono v1 v2 :
  in_range s v1 → in_range s v2 → v1 <= v2 → lerp_at s v1 <= lerp_at s v2.
Proof.
  intros Hv1 Hv2 Hle.
  destruct (floor_in_range v1 Hv1) as [Hp0 Hp1].
  destruct (floor_in_range v2 Hv2) as [Hq0 Hq1].
  pose proof (Qfloor_resp_le _ _ Hle) as Hfl.
  destruct (decide (Qfloor v1 = Qfloor v2)) as [Heq|Hneq].
  - unfold lerp_at. fold n. rewrite Heq.
    set (lo := nth (clip_index n (Qfloor v2)) s 0).
    set (hi := nth (clip_index n (Qfloor v2 + 1)) s 0).
    assert (lo <= hi) as Hlh.
    { apply nth_sorted_le; [done|unfold clip_index; lia|unfold clip_index; fold n; lia]. }
    nra.
  - destruct (lerp_at_between v1 Hv1) as [_ Hup].
    destruct (lerp_at_between v2 Hv2) as [Hdown _].
    eapply Qle_trans; [exact Hup|]. eapply Qle_trans; [|exact Hdown].
    apply nth_sorted_le; [done|unfold clip_index; lia|fold n; lia].
Qed.

Lemma lerp_at_proper v v' : v == v' → lerp_at s v == lerp_at s v'.
Proof.
  intros Hv. unfold lerp_at. rewrite (Qfloor_comp _ _ Hv). by rewrite Hv.
Qed.

End Lerp.

Lemma take1_drop (s : list Q) i :
  (i < length s)%nat → take 1 (drop i s) = [nth i s 0].
Proof.
  intros Hi. destruct (lookup_lt_is_Some_2 s i Hi) as [y Hy].
  rewrite (drop_S _ _ _ Hy), (nth_lookup_Some _ _ _ _ Hy). done.
Qed.

Lemma take2_drop (s : list Q) i :
  (S i < length s)%nat → take 2 (drop i s) = [nth i s 0; nth (S i) s 0].
Proof.
  intros Hi.
  destruct (lookup_lt_is_Some_2 s i) as [y Hy]; [lia|].
  destruct (lookup_lt_is_Some_2 s (S i) Hi) as [z Hz].
  rewrite (drop_S _ _ _ Hy), (drop_S _ _ _ Hz).
  rewrite (nth_lookup_Some _ _ _ _ Hy), (nth_lookup_Some _ _ _ _ Hz). done.
Qed.

Lemma Qnat_ge_1 n : (0 < n)%nat → 1 <= Qnat n.
Proof.
  intros Hn. unfold Qnat. change 1 with (inject_Z 1). rewrite <- Zle_Qle. lia.
Qed.

Lemma Qnat_double m : Qnat (2 * m) == 2 * Qnat m.
Proof.
  unfold Qnat. rewrite Nat2Z.inj_mul, inject_Z_mult. reflexivity.
Qed.

Lemma inject_Z_pred (z : Z) : inject_Z (z - 1) == inject_Z z - 1.
Proof.
  unfold Zminus. rewrite inject_Z_plus, inject_Z_opp.
  change (inject_Z 1) with 1. lra.
Qed.

Lemma np_median_is_percentile_50 (a : list Q) :
  (0 < length a)%nat → np_median a == np_percentile a 50.
Proof.
  intros Hlen. unfold np_median, np_percentile.
  pose proof (np_sort_length a) as Hsl.
  set (s := np_sort a) in *. rewrite <- Hsl. clear Hsl.
  assert (0 < length s)%nat as Hs by (subst s; rewrite np_sort_length; done).
  clearbody s. clear Hlen a.
  assert (50 / 100 == 1 # 2) as H50 by reflexivity.
  transitivity (lerp_at s ((1 # 2) * (Qnat (length s) - 1)));
    [|apply lerp_at_proper; by rewrite H50].
  clear H50. unfold lerp_at.
  set (v := (1 # 2) * (Qnat (length s) - 1)).
  destruct (Nat.even (length s)) eqn:Heven.
  - apply Nat.even_spec in Heven as [m Hm].
    assert (0 < m)%nat as Hm0 by lia.
    assert (length s `div` 2 = m)%nat as ->.
    { rewrite Hm, Nat.mul_comm. apply Nat.div_mul. lia. }
    assert (Qnat (length s) == 2 * Qnat m) as Hq by (rewrite Hm; apply Qnat_double).
    assert (Qfloor v = Z.of_nat m - 1)%Z as Hfl.
    { apply Qfloor_unique; rewrite inject_Z_pred; fold (Qnat m);
        unfold v; rewrite Hq; lra. }
    rewrite Hfl.
    assert (clip_index (length s) (Z.of_nat m - 1) = (m - 1)%nat) as ->
      by (unfold clip_index; lia).
    assert (clip_index (length s) (Z.of_nat m - 1 + 1) = S (m - 1)) as ->
      by (unfold clip_index; lia).
    rewrite take2_drop by lia.
    unfold np_mean. simpl length. simpl np_sum.
    rewrite inject_Z_pred. fold (Qnat m).
    change (Qnat 2) with 2. unfold v. rewrite Hq. field.
  - assert (Nat.odd (length s) = true) as Hodd.
    { rewrite <- Nat.negb_even, Heven. done. }
    apply Nat.odd_spec in Hodd as [m Hm].
    assert (length s `div` 2 = m)%nat as ->.
    { rewrite Hm, Nat.add_comm, Nat.mul_comm. rewrite Nat.div_add by lia. done. }
    assert (Qnat (length s) == 2 * Qnat m + 1) as Hq.
    { rewrite Hm, Nat.add_1_r, Qnat_S, Qnat_double. reflexivity. }
    assert (Qfloor v = Z.of_nat m) as Hfl.
    { apply Qfloor_unique; fold (Qnat m); unfold v; rewrite Hq; lra. }
    rewrite Hfl. fold (Qnat m).
    assert (clip_index (length s) (Z.of_nat m) = m) as ->
      by (unfold clip_index; lia).
    rewrite take1_drop by lia.
    unfold np_mean. simpl length. simpl np_sum.
    change (Qnat 1) with 1. unfold v. rewrite Hq. field.
Qed.

Lemma percent_fraction (q : Q) : 0 <= q → q <= 100 → 0 <= q / 100 ∧ q / 100 <= 1.
Proof.
  intros H0 H1. split.
  - apply Qle_shift_div_l; lra.
  - apply Qle_shift_div_r; lra.
Qed.

Lemma percentile_index_in_range (s : list Q) (q : Q) :
  (0 < length s)%nat → 0 <= q → q <= 100 →
  in_range s (q / 100 * (Qnat (length s) - 1)).
Proof.
  intros Hs H0 H1. destruct (percent_fraction q H0 H1) as [Ht0 Ht1].
  pose proof (Qnat_ge_1 _ Hs) as Hn. unfold in_range.
  set (t := q / 100) in *. set (X := Qnat (length s)) in *.
  split; nra.
Qed.

Lemma np_percentile_mono (a : list Q) (q1 q2 : Q) :
  (0 < length a)%nat → 0 <= q1 → q1 <= q2 → q2 <= 100 →
  np_percentile a q1 <= np_percentile a q2.
Proof.
  intros Ha H0 H12 H2. unfold np_percentile.
  rewrite <- (np_sort_length a) in *.
  apply lerp_at_mono; [apply np_sort_sorted|done|..].
  - apply percentile_index_in_range; [done|lra..].
  - apply percentile_index_in_range; [done|lra..].
  - pose proof (Qnat_ge_1 _ Ha) as Hn.
    assert (q1 / 100 <= q2 / 100) as Ht.
    { unfold Qdiv. apply Qmult_le_compat_r; [done|]. by vm_compute. }
    set (t1 := q1 / 100) in *. set (t2 := q2 / 100) in *.
    set (X := Qnat (length (np_sort a))) in *. nra.
Qed.

Lemma np_sort_elem (a : list Q) (y : Q) : y ∈ np_sort a → y ∈ a.
Proof. intros Hy. by rewrite np_sort_perm in Hy. Qed.

Lemma np_percentile_between (a : list Q) (q : Q) :
  (0 < length a)%nat → 0 <= q → q <= 100 →
  ∃ lo hi, lo ∈ a ∧ hi ∈ a ∧ lo <= np_percentile a q ∧ np_percentile a q <= hi.
Proof.
  intros Ha H0 H1. unfold np_percentile.
  pose proof (np_sort_length a) as Hlen.
  assert (0 < length (np_sort a))%nat as Hs by lia.
  rewrite <- Hlen.
  pose proof (percentile_index_in_range (np_sort a) q Hs H0 H1) as Hr.
  destruct (lerp_at_between _ (np_sort_sorted a) Hs _ Hr) as [Hlo Hhi].
  destruct (floor_in_range _ Hs _ Hr) as [Hf0 Hf1].
  eexists _, _. split_and!; [| |exact Hlo|exact Hhi].
  - apply np_sort_elem, nth_elem_of. lia.
  - apply np_sort_elem, nth_elem_of. unfold clip_index. lia.
Qed.

Lemma fraction_le_bounds (a : list Q) (k1 k2 : Q) :
  (0 < length a)%nat → k1 <= k2 →
  0 <= fraction_le a k1 ∧ fraction_le a k1 <= fraction_le a k2
  ∧ fraction_le a k2 <= 1.
Proof.
  intros Ha Hk. unfold fraction_le.
  pose proof (Qnat_pos _ Ha) as Hn.
  pose proof (Qnat_nonneg (count_le a k1)) as Hc1.
  pose proof (Qnat_le _ _ (count_le_mono a k1 k2 Hk)) as Hc12.
  pose proof (Qnat_le _ _ (count_le_length a k2)) as Hc2.
  split_and!.
  - apply Qle_shift_div_l; lra.
  - unfold Qdiv. apply Qmult_le_compat_r; [done|].
    apply Qinv_le_0_compat. lra.
  - apply Qle_shift_div_r; lra.
Qed.

Lemma column_stats_consistent fsqrt (distribution : list Q) (entry : dict Q) :
  column_stats fsqrt distribution = Ok entry → aggregation_consistent entry.
Proof.
  intros Hst. destruct distribution as [|x rest]; [done|].
  simpl in Hst. inversion Hst as [Hentry]. clear Hst Hentry.
  set (a := x :: rest).
  assert (0 < length a)%nat as Ha by (simpl; lia).
  destruct (np_min_le rest x) as [Hmin0 Hmin].
  destruct (np_max_ge rest x) as [Hmax0 Hmax].
  assert (∀ y, y ∈ a → np_min x rest <= y) as Hmn.
  { intros y [->|Hy]%elem_of_cons; [done|]. rewrite Forall_forall in Hmin. eauto. }
  assert (∀ y, y ∈ a → y <= np_max x rest) as Hmx.
  { intros y [->|Hy]%elem_of_cons; [done|]. rewrite Forall_forall in Hmax. eauto. }
  destruct (np_percentile_between a 5 Ha) as (lo & _ & Hlo & _ & Hlo5 & _); [lra..|].
  destruct (np_percentile_between a 95 Ha) as (_ & hi & _ & Hhi & _ & Hhi95); [lra..|].
  pose proof (np_percentile_mono a 5 50 Ha) as H550.
  pose proof (np_percentile_mono a 50 95 Ha) as H5095.
  pose proof (np_median_is_percentile_50 a Ha) as Hmed.
  destruct (fraction_le_bounds a 3 5 Ha) as (Hf0 & Hf35 & Hf1); [lra|].
  exists (np_min x rest), (np_percentile a 5), (np_median a),
    (np_percentile a 95), (np_max x rest), (np_le_mean a 3), (np_le_mean a 5).
  split_and!; try done.
  - eapply Qle_trans; [apply (Hmn lo Hlo)|done].
  - rewrite Hmed. apply H550; lra.
  - rewrite Hmed. apply H5095; lra.
  - eapply Qle_trans; [exact Hhi95|by apply Hmx].
  - by rewrite np_le_mean_fraction.
  - by rewrite !np_le_mean_fraction.
  - by rewrite np_le_mean_fraction.
Qed.

(** C9.  For every accumulator of draws and every driver that
    [_summarise_predictions] reports on, the statistics of the driver
    satisfy min <= percentile_5 <= median <= percentile_95 <= max and
    0 <= top3_probability <= top5_probability <= 1. *)
Theorem aggregation_consistency
    (fsqrt : Q -> Q) (predictions : ndarray) (drivers : list string)
    (stats : dict (dict Q)) (driver : string) (entry : dict Q) :
  _summarise_predictions fsqrt predictions drivers = Ok stats →
  dict_get stats driver = Some entry →
  aggregation_consistent entry.
Proof.
  intros Hrun Hget.
  destruct (summarise_from_entries _ _ _ _ _ _ _ _ Hrun Hget)
    as [Hnil|(k & dist & _ & Hst)]; [done|].
  by eapply column_stats_consistent.
Qed.

(** On the example accumulator, for the second driver. *)
Lemma consistency_on_example :
  _summarise_predictions approx_sqrt example_predictions example_drivers
    = Ok example_summary ∧
  dict_get example_summary "PER" = Some example_entry ∧
  aggregation_consistent example_entry.
Proof.
  assert (_summarise_predictions approx_sqrt example_predictions
            example_drivers = Ok example_summary) as Hrun
    by (vm_compute; reflexivity).
  assert (dict_get example_summary "PER" = Some example_entry) as Hget
    by (vm_compute; reflexivity).
  split_and!; [exact Hrun|exact Hget|].
  exact (aggregation_consistency approx_sqrt example_predictions
           example_drivers example_summary "PER" example_entry Hrun Hget).
Defined.

(** ** Column updates *)

Lemma same_shape_refl frame : same_shape frame frame.
Proof. by split. Qed.

Lemma same_shape_trans f1 f2 f3 :
  same_shape f1 f2 → same_shape f2 f3 → same_shape f1 f3.
Proof.
  intros [H1 H2] [H3 H4]. split; [congruence|].
  intros c. by rewrite H4, H2.
Qed.

Lemma map_column_spec f frame c frame' :
  map_column f frame c = Ok frame' →
  same_shape frame frame' ∧ same_outside [c] frame frame'.
Proof.
  unfold map_column, get_column. destruct (df_data frame !! c) as [v|] eqn:Hc; [|done].
  cbn [mbind result_bind]. intros [= <-].
  split; [split; [done|]|]; cbn [df_data df_len].
  - intros c'. destruct (decide (c = c')) as [<-|Hne].
    + rewrite lookup_insert_eq, Hc. split; eauto.
    + rewrite lookup_insert_ne by done. done.
  - intros c' Hc'. apply not_elem_of_cons in Hc' as [Hne _].
    cbn [df_data]. by rewrite lookup_insert_ne.
Qed.

Lemma map_column_ok f frame c :
  is_Some (df_data frame !! c) → ∃ frame', map_column f frame c = Ok frame'.
Proof.
  intros [v Hv]. unfold map_column, get_column. rewrite Hv. simpl. eauto.
Qed.

Lemma map_columns_spec f cols : ∀ frame frame',
  map_columns f frame cols = Ok frame' →
  same_shape frame frame' ∧ same_outside cols frame frame'.
Proof.
  induction cols as [|c cols IH]; intros frame frame' Hrun; simpl in Hrun.
  - inversion Hrun; subst. split; [apply same_shape_refl|done].
  - destruct (map_column f frame c) as [frame1|] eqn:H1; [|done]. simpl in Hrun.
    destruct (map_column_spec _ _ _ _ H1) as [Hs1 Ho1].
    destruct (IH _ _ Hrun) as [Hs2 Ho2].
    split; [by eapply same_shape_trans|].
    intros c' Hc'. apply not_elem_of_cons in Hc' as [Hne Hc'].
    rewrite Ho2 by done. apply Ho1. by intros ?%list_elem_of_singleton.
Qed.

Lemma map_columns_ok f cols : ∀ frame,
  has_columns cols frame → ∃ frame', map_columns f frame cols = Ok frame'.
Proof.
  induction cols as [|c cols IH]; intros frame Hhas; simpl; [eauto|].
  destruct (map_column_ok f frame c) as [frame1 H1]; [apply Hhas; by left|].
  rewrite H1. simpl. apply IH. intros c' Hc'.
  destruct (map_column_spec _ _ _ _ H1) as [[_ Hs] _].
  apply Hs, Hhas. by right.
Qed.

Lemma has_columns_same_shape cols frame frame' :
  same_shape frame frame' → has_columns cols frame → has_columns cols frame'.
Proof. intros [_ Hs] Hhas c Hc. apply Hs, Hhas, Hc. Qed.

Lemma has_columns_filter (P : string → Prop) `{∀ c, Decision (P c)} cols frame :
  has_columns cols frame → has_columns (filter P cols) frame.
Proof. intros Hhas c Hc. apply Hhas. by apply list_elem_of_filter in Hc as [_ Hc]. Qed.

(** ** The perturbation *)

Section PerturbFacts.
Context {G : Type} `{Generator G}.
Variable self : MonteCarloSimulator.

Lemma normal_inv loc scale size g noise g' :
  normal loc scale size g = (Ok noise, g') →
  0 <= scale ∧ rng_normal g loc scale size = (noise, g').
Proof.
  unfold normal. destruct (Qlt_le_dec scale 0) as [Hneg|Hpos]; [done|].
  destruct (rng_normal g loc scale size) as [noise0 g0].
  by intros [= <- <-].
Qed.

Lemma normal_ok loc scale size g :
  0 <= scale →
  normal loc scale size g
    = (Ok (rng_normal g loc scale size).1, (rng_normal g loc scale size).2).
Proof.
  intros Hpos. unfold normal.
  destruct (Qlt_le_dec scale 0) as [Hneg|_]; [lra|].
  by destruct (rng_normal g loc scale size).
Qed.

Lemma normal_negative loc scale size g :
  scale < 0 → normal loc scale size g = (Raise ValueError, g).
Proof.
  intros Hneg. unfold normal.
  destruct (Qlt_le_dec scale 0) as [_|Hpos]; [done|lra].
Qed.

Lemma perturb_form_spec frame g frame' g' :
  perturb_form self frame g = (Ok frame', g') →
  same_shape frame frame' ∧ same_outside (form_cols self) frame frame'.
Proof.
  unfold perturb_form. destruct (form_cols self) as [|c cols] eqn:Hcols.
  - intros [= <- <-]. split; [apply same_shape_refl|done].
  - unfold mbind, sim_bind, lift.
    destruct (normal _ _ _ g) as [[noise|] g1]; [|done]. intros [= Hrun <-].
    by apply (map_columns_spec _ (c :: cols)) in Hrun.
Qed.

Lemma perturb_form_ok frame g :
  0 <= driver_form_sigma (config self) →
  has_columns (form_cols self) frame →
  ∃ frame' g', perturb_form self frame g = (Ok frame', g').
Proof.
  intros Hsigma Hhas. unfold perturb_form.
  destruct (form_cols self) as [|c cols] eqn:Hcols; [by eexists _, _|].
  unfold mbind, sim_bind, lift. rewrite (normal_ok _ _ _ _ Hsigma).
  destruct (map_columns_ok
              (scale_by (rng_normal g 0 (driver_form_sigma (config self))
                           (df_len frame)).1)
              (c :: cols) frame Hhas) as [frame' ->].
  by eexists _, _.
Qed.

Lemma perturb_weather_spec cols : ∀ frame g frame' g',
  perturb_weather self cols frame g = (Ok frame', g') →
  same_shape frame frame' ∧ same_outside cols frame frame'.
Proof.
  induction cols as [|c cols IH]; intros frame g frame' g' Hrun; simpl in Hrun.
  - inversion Hrun; subst. split; [apply same_shape_refl|done].
  - unfold mbind, sim_bind, lift in Hrun.
    destruct (normal _ _ _ g) as [[noise|] g1]; [|done].
    destruct (map_column _ frame c) as [frame1|] eqn:H1; [|done].
    destruct (map_column_spec _ _ _ _ H1) as [Hs1 Ho1].
    destruct (IH _ _ _ _ Hrun) as [Hs2 Ho2].
    split; [by eapply same_shape_trans|].
    intros c' Hc'. apply not_elem_of_cons in Hc' as [Hne Hc'].
    rewrite Ho2 by done. apply Ho1. by intros ?%list_elem_of_singleton.
Qed.

Lemma perturb_weather_ok cols : ∀ frame g,
  0 <= weather_sigma (config self) →
  has_columns cols frame →
  ∃ frame' g', perturb_weather self cols frame g = (Ok frame', g').
Proof.
  induction cols as [|c cols IH]; intros frame g Hsigma Hhas; simpl;
    [by eexists _, _|].
  unfold mbind, sim_bind, lift. rewrite (normal_ok _ _ _ _ Hsigma).
  destruct (map_column_ok
              (scale_by (rng_normal g 0 (weather_sigma (config self))
                           (df_len frame)).1) frame c) as [frame1 H1];
    [apply Hhas; by left|].
  rewrite H1. apply IH; [done|].
  destruct (map_column_spec _ _ _ _ H1) as [Hs _].
  eapply has_columns_same_shape; [done|]. intros c' Hc'. apply Hhas. by right.
Qed.

Lemma perturb_strategy_spec cols : ∀ frame g frame' g',
  perturb_strategy self cols frame g = (Ok frame', g') →
  same_shape frame frame' ∧ same_outside cols frame frame'.
Proof.
  induction cols as [|c cols IH]; intros frame g frame' g' Hrun; simpl in Hrun.
  - inversion Hrun; subst. split; [apply same_shape_refl|done].
  - destruct (rng_integers _ _ _ _) as [steps g1].
    unfold mbind, sim_bind, lift in Hrun.
    destruct (map_column _ frame c) as [frame1|] eqn:H1; [|done].
    destruct (map_column_spec _ _ _ _ H1) as [Hs1 Ho1].
    destruct (IH _ _ _ _ Hrun) as [Hs2 Ho2].
    split; [by eapply same_shape_trans|].
    intros c' Hc'. apply not_elem_of_cons in Hc' as [Hne Hc'].
    rewrite Ho2 by done. apply Ho1. by intros ?%list_elem_of_singleton.
Qed.

Lemma perturb_strategy_ok cols : ∀ frame g,
  has_columns cols frame →
  ∃ frame' g', perturb_strategy self cols frame g = (Ok frame', g').
Proof.
  induction cols as [|c cols IH]; intros frame g Hhas; simpl; [by eexists _, _|].
  destruct (rng_integers _ _ _ _) as [steps g1].
  unfold mbind, sim_bind, lift.
  destruct (map_column_ok
              (shift_by (map (fun k => inject_Z k * strategy_delta (config self)) steps))
              frame c) as [frame1 H1]; [apply Hhas; by left|].
  rewrite H1. apply IH.
  destruct (map_column_spec _ _ _ _ H1) as [Hs _].
  eapply has_columns_same_shape; [done|]. intros c' Hc'. apply Hhas. by right.
Qed.

Lemma perturb_features_spec frame g frame' g' :
  _perturb_features self frame g = (Ok frame', g') →
  same_shape frame frame' ∧
  same_outside (form_cols self ++ weather_cols self ++ strategy_cols self)
    frame frame'.
Proof.
  unfold _perturb_features, mbind, sim_bind. intros Hrun.
  destruct (perturb_form self frame g) as [[frame1|] g1] eqn:H1; [|done].
  destruct (perturb_weather self _ frame1 g1) as [[frame2|] g2] eqn:H2; [|done].
  apply perturb_form_spec in H1 as [Hs1 Ho1].
  apply perturb_weather_spec in H2 as [Hs2 Ho2].
  apply perturb_strategy_spec in Hrun as [Hs3 Ho3].
  split; [eauto using same_shape_trans|].
  intros c Hc. rewrite !not_elem_of_app in Hc. destruct Hc as (Hf & Hw & Hst).
  by rewrite Ho3, Ho2, Ho1.
Qed.

Lemma perturb_features_ok frame g :
  0 <= driver_form_sigma (config self) →
  0 <= weather_sigma (config self) →
  has_columns (feature_columns self) frame →
  ∃ frame' g', _perturb_features self frame g = (Ok frame', g').
Proof.
  intros Hform Hweather Hhas. unfold _perturb_features, mbind, sim_bind.
  destruct (perturb_form_ok frame g) as (frame1 & g1 & H1);
    [done|by apply has_columns_filter|].
  rewrite H1. apply perturb_form_spec in H1 as [Hs1 _].
  destruct (perturb_weather_ok (weather_cols self) frame1 g1)
    as (frame2 & g2 & H2); [done| |].
  { eapply has_columns_same_shape; [done|]. by apply has_columns_filter. }
  rewrite H2. apply perturb_weather_spec in H2 as [Hs2 _].
  apply perturb_strategy_ok.
  eapply (has_columns_same_shape _ frame); [by eapply same_shape_trans|].
  by apply has_columns_filter.
Qed.

End PerturbFacts.

(** ** Clipping and the accumulator *)

Lemma clip_value_within lo hi x :
  lo <= hi → lo <= clip_value lo hi x ∧ clip_value lo hi x <= hi.
Proof.
  intros Hlh. unfold clip_value.
  destruct (decide (x <= lo)) as [H1|H1]; [split; lra|].
  destruct (decide (hi <= x)) as [H2|H2]; [split; lra|].
  apply Qnot_le_lt in H1, H2. split; lra.
Qed.

Lemma np_clip_within values lo hi : lo <= hi → within lo hi (np_clip values lo hi).
Proof.
  intros Hlh. unfold within, np_clip. apply Forall_map, Forall_true.
  intros x. by apply clip_value_within.
Qed.

Lemma np_clip_length values lo hi : length (np_clip values lo hi) = length values.
Proof. apply length_map. Qed.

Lemma within_repeat lo hi x n : within lo hi [x] → within lo hi (repeat x n).
Proof.
  intros Hx. apply Forall_cons in Hx as [Hx _].
  induction n; constructor; done.
Qed.

Lemma set_row_spec predictions i values predictions' lo hi :
  set_row predictions i values = Ok predictions' →
  within lo hi values →
  ncols predictions' = ncols predictions ∧
  ∃ row, within lo hi row ∧ rows predictions' = <[i := row]> (rows predictions).
Proof.
  unfold set_row. intros Hset Hw.
  destruct (length values =? ncols predictions)%nat.
  - inversion Hset; subst; simpl. eauto.
  - destruct values as [|x [|y values]]; [done| |done].
    inversion Hset; subst; simpl. split; [done|].
    eexists; split; [|done]. by apply within_repeat.
Qed.

Lemma set_row_ok predictions i values :
  length values = ncols predictions →
  ∃ predictions', set_row predictions i values = Ok predictions'.
Proof.
  intros Hlen. unfold set_row. apply Nat.eqb_eq in Hlen as ->. eauto.
Qed.

Section LoopFacts.
Context {G : Type} `{Generator G}.
Variable self : MonteCarloSimulator.

Lemma draw_loop_spec feature_matrix remaining :
  ∀ sim_index predictions g predictions' g',
    draw_loop self feature_matrix remaining sim_index predictions g
      = (Ok predictions', g') →
    (sim_index + remaining ≤ length (rows predictions))%nat →
    ncols predictions' = ncols predictions ∧
    length (rows predictions') = length (rows predictions) ∧
    ∀ j row, rows predictions' !! j = Some row →
      (sim_index ≤ j < sim_index + remaining)%nat ∧ within 1 20 row
      ∨ ((j < sim_index ∨ sim_index + remaining ≤ j)%nat
         ∧ rows predictions !! j = Some row).
Proof.
  induction remaining as [|remaining IH];
    intros sim_index predictions g predictions' g' Hrun Hlen; simpl in Hrun.
  - inversion Hrun; subst. split_and!; [done..|].
    intros j row Hj. right. split; [lia|done].
  - unfold mbind, sim_bind, lift in Hrun.
    destruct (_perturb_features self feature_matrix g)
      as [[perturbed|] g1] eqn:Hp; [|done].
    destruct (model_predict self perturbed) as [values|]; [|done].
    destruct (set_row predictions sim_index _) as [predictions1|] eqn:Hset; [|done].
    destruct (set_row_spec _ _ _ _ 1 20 Hset) as (Hn1 & row1 & Hw1 & Hr1);
      [apply np_clip_within; lra|].
    assert (length (rows predictions1) = length (rows predictions)) as Hl1
      by (rewrite Hr1; apply length_insert).
    destruct (IH _ _ _ _ _ Hrun) as (Hn2 & Hl2 & Hrows); [lia|].
    split_and!; [congruence..|].
    intros j row Hj. destruct (Hrows j row Hj) as [[Hin Hw]|[Hout Hold]].
    + left. split; [lia|done].
    + rewrite Hr1 in Hold.
      destruct (decide (j = sim_index)) as [->|Hne].
      * rewrite list_lookup_insert_eq in Hold by lia.
        inversion Hold; subst. left. split; [lia|done].
      * rewrite list_lookup_insert_ne in Hold by done.
        right. split; [lia|done].
Qed.

Lemma draw_loop_ok feature_matrix remaining :
  0 <= driver_form_sigma (config self) →
  0 <= weather_sigma (config self) →
  has_columns (feature_columns self) feature_matrix →
  (∀ frame, ∃ values,
     model_predict self frame = Ok values ∧ length values = df_len frame) →
  ∀ sim_index predictions g,
    ncols predictions = df_len feature_matrix →
    ∃ predictions' g',
      draw_loop self feature_matrix remaining sim_index predictions g
        = (Ok predictions', g').
Proof.
  intros Hform Hweather Hhas Hpred.
  induction remaining as [|remaining IH]; intros sim_index predictions g Hn; simpl.
  - by eexists _, _.
  - unfold mbind, sim_bind, lift.
    destruct (perturb_features_ok self feature_matrix g Hform Hweather Hhas)
      as (perturbed & g1 & Hp).
    rewrite Hp. apply perturb_features_spec in Hp as [[Hlen _] _].
    destruct (Hpred perturbed) as (values & -> & Hvalues).
    destruct (set_row_ok predictions sim_index (np_clip values 1 20))
      as [predictions1 Hset].
    { rewrite np_clip_length, Hvalues. congruence. }
    rewrite Hset. apply IH.
    destruct (set_row_spec _ _ _ _ 1 20 Hset) as (Hn1 & _);
      [apply np_clip_within; lra|congruence].
Qed.

Lemma select_data_spec data cols selected :
  select_data data cols = Ok selected →
  ∀ c, c ∈ cols → selected !! c = data !! c ∧ is_Some (selected !! c).
Proof.
  revert selected. induction cols as [|c0 cols IH]; intros selected Hsel c Hc.
  - by apply elem_of_nil in Hc.
  - simpl in Hsel. destruct (data !! c0) as [v|] eqn:Hv; [|done].
    destruct (select_data data cols) as [rest|] eqn:Hrest; [|done].
    simpl in Hsel. inversion Hsel; subst.
    destruct (decide (c0 = c)) as [->|Hne].
    + rewrite lookup_insert_eq, Hv. eauto.
    + rewrite lookup_insert_ne by done. apply (IH rest); [done|].
      apply elem_of_cons in Hc as [?|?]; [congruence|done].
Qed.

Lemma select_columns_spec features cols feature_matrix :
  select_columns features cols = Ok feature_matrix →
  df_len feature_matrix = df_len features ∧ has_columns cols feature_matrix.
Proof.
  unfold select_columns. intros Hsel.
  destruct (select_data (df_data features) cols) as [data|] eqn:Hdata; [|done].
  simpl in Hsel. inversion Hsel; subst. split; [done|].
  intros c Hc. by destruct (select_data_spec _ _ _ Hdata c Hc).
Qed.

Lemma select_columns_ok features :
  has_columns (feature_columns self) features →
  ∃ feature_matrix,
    select_columns features (feature_columns self) = Ok feature_matrix ∧
    df_len feature_matrix = df_len features ∧
    has_columns (feature_columns self) feature_matrix.
Proof.
  intros Hhas.
  destruct (select_columns features (feature_columns self))
    as [feature_matrix|e] eqn:Hsel.
  - exists feature_matrix. split; [done|]. by apply select_columns_spec.
  - exfalso. unfold select_columns in Hsel.
    assert (∃ d, select_data (df_data features) (feature_columns self) = Ok d)
      as [d Hd]; [|by rewrite Hd in Hsel].
    clear Hsel. induction (feature_columns self) as [|c cols IH]; simpl; [eauto|].
    destruct (Hhas c) as [v ->]; [by left|].
    destruct IH as [d ->]; [intros c' Hc'; apply Hhas; by right|].
    simpl. eauto.
Qed.

Lemma np_zeros_rows n m : length (rows (np_zeros n m)) = n.
Proof. simpl. apply repeat_length. Qed.

(** The accumulator that [run] hands to the summary: every draw is a row
    of values in [1, 20]. *)
Lemma run_draws_within features requested g predictions g' :
  run_draws self features requested g = (Ok predictions, g') →
  Z.of_nat (length (rows predictions)) = effective_n_sims self requested ∧
  Forall (within 1 20) (rows predictions).
Proof.
  unfold run_draws, mbind, sim_bind, lift. intros Hrun.
  destruct (select_columns features (feature_columns self))
    as [feature_matrix|]; [|done].
  unfold np_zeros_checked in Hrun.
  destruct (effective_n_sims self requested <? 0)%Z eqn:Hneg; [done|].
  apply Z.ltb_ge in Hneg.
  apply draw_loop_spec in Hrun as (_ & Hlen & Hrows);
    [|rewrite np_zeros_rows; lia].
  rewrite np_zeros_rows in Hlen. split; [lia|].
  apply Forall_lookup. intros j row Hj.
  destruct (Hrows j row Hj) as [[_ Hw]|[Hout Hold]]; [done|].
  apply lookup_lt_Some in Hold. rewrite np_zeros_rows in Hold. lia.
Qed.

Lemma run_draws_ok features requested g :
  0 <= driver_form_sigma (config self) →
  0 <= weather_sigma (config self) →
  (0 ≤ effective_n_sims self requested)%Z →
  has_columns (feature_columns self) features →
  (∀ frame, ∃ values,
     model_predict self frame = Ok values ∧ length values = df_len frame) →
  ∃ predictions g', run_draws self features requested g = (Ok predictions, g').
Proof.
  intros Hform Hweather Hn Hhas Hpred.
  unfold run_draws, mbind, sim_bind, lift.
  destruct (select_columns features (feature_columns self))
    as [feature_matrix|e] eqn:Hsel.
  - apply select_columns_spec in Hsel as [Hlen Hfm].
    unfold np_zeros_checked.
    apply Z.ltb_ge in Hn. rewrite Hn.
    by apply draw_loop_ok.
  - exfalso. unfold select_columns in Hsel.
    assert (∃ d, select_data (df_data features) (feature_columns self) = Ok d)
      as [d Hd]; [|by rewrite Hd in Hsel].
    clear Hsel. induction (feature_columns self) as [|c cols IH]; simpl; [eauto|].
    destruct (Hhas c) as [v ->]; [by left|].
    destruct IH as [d ->]; [intros c' Hc'; apply Hhas; by right|].
    simpl. eauto.
Qed.

End LoopFacts.

(** ** The clipping interval *)

(** C2 (as amended).  For every run, every value stored in the accumulator
    of draws lies in the closed interval [1, 20], for every number of draws
    and every driver; the upper bound is the constant 20, not the number of
    drivers of the event. *)
Theorem accumulator_values_within_1_20
    {G : Type} `{Generator G} (self : MonteCarloSimulator)
    (features : DataFrame) (requested : option Z) (g g' : G)
    (predictions : ndarray) :
  run_draws self features requested g = (Ok predictions, g') →
  Forall (within 1 20) (rows predictions).
Proof. intros Hrun. by destruct (run_draws_within _ _ _ _ _ _ Hrun). Qed.

(** On the example event: two draws, all stored values are 10. *)
Lemma accumulator_within_on_example :
  run_draws example_simulator example_features None 0%nat
    = (Ok (mk_ndarray 3 [[10; 10; 10]; [10; 10; 10]]), 8%nat)
  ∧ Forall (within 1 20) [[10; 10; 10]; [10; 10; 10]].
Proof.
  split; [vm_compute; reflexivity|].
  apply (accumulator_values_within_1_20 example_simulator example_features
           None 0%nat 8%nat (mk_ndarray 3 [[10; 10; 10]; [10; 10; 10]])).
  vm_compute; reflexivity.
Defined.

(** C2 fails as stated: in an event of three drivers whose predicted
    positions are all 10, the accumulator stores 10, above the number of
    drivers. *)
Lemma clip_bound_is_not_the_entity_count :
  ∃ predictions g',
    run_draws example_simulator example_features None 0%nat
      = (Ok predictions, g') ∧
    ¬ Forall (within 1 (Qnat (df_len example_features))) (rows predictions).
Proof.
  exists (mk_ndarray 3 [[10; 10; 10]; [10; 10; 10]]), 8%nat.
  split; [vm_compute; reflexivity|].
  intros Hall. apply Forall_cons in Hall as [Hrow _].
  apply Forall_cons in Hrow as [[_ Hv] _].
  vm_compute in Hv. by apply Hv.
Qed.

(** ** The frame of the perturbation *)

Lemma perturbed_col_false c :
  perturbed_col c = false →
  is_form_col c = false ∧ is_weather_col c = false ∧ is_strategy_col c = false.
Proof.
  unfold perturbed_col. intros Hc.
  apply orb_false_iff in Hc as [Hc Hs]. apply orb_false_iff in Hc as [Hf Hw]. done.
Qed.

Lemma unmarked_features_unperturbed :
  Forall (fun c => perturbed_col c = false) unmarked_features.
Proof. by vm_compute; repeat constructor. Qed.

(** The documented features that the substring tests select. *)
Lemma catalogue_marked_columns :
  filter (fun c => perturbed_col c = true) catalogue
  = ["avg_pos_last5"; "grid_position"; "grid_vs_race_delta";
     "rain_probability"; "track_temperature"; "wind_speed";
     "pit_stops_count"; "tire_compound_change_count";
     "fuel_efficiency_rating"; "fuel_flow_ratio"].
Proof. vm_compute. reflexivity. Qed.

Lemma not_in_filter_false (P : string → bool) (c : string) (cols : list string) :
  P c = false → c ∉ filter (fun col => P col = true) cols.
Proof. intros Hc [Hin _]%list_elem_of_filter. congruence. Qed.

(** C3 (as amended).  In every draw the perturbation reads and writes only
    columns whose name contains one of the markers [pos], [grid], [rain],
    [temp], [wind], [pit], [fuel], [compound]: every column without a marker
    keeps its values.  Among the documented features these are all track
    (venue), derived and context columns and the ruleset parameters
    [power_ratio], [aero_coeff], [weight_ratio] and [tire_grip_ratio]. *)
Theorem perturbation_keeps_unmarked_columns
    {G : Type} `{Generator G} (self : MonteCarloSimulator)
    (frame frame' : DataFrame) (g g' : G) :
  _perturb_features self frame g = (Ok frame', g') →
  (∀ c, perturbed_col c = false → df_data frame' !! c = df_data frame !! c) ∧
  (∀ c, c ∈ unmarked_features → df_data frame' !! c = df_data frame !! c).
Proof.
  intros Hrun. apply perturb_features_spec in Hrun as [_ Hout].
  assert (∀ c, perturbed_col c = false →
               df_data frame' !! c = df_data frame !! c) as Hgen.
  { intros c (Hf & Hw & Hs)%perturbed_col_false. apply Hout.
    rewrite !not_elem_of_app. split_and!; by apply not_in_filter_false. }
  split; [done|]. intros c Hc. apply Hgen.
  pose proof unmarked_features_unperturbed as Hall.
  rewrite Forall_forall in Hall. by apply Hall.
Qed.

(** On the example event: [corners] carries no marker and is kept. *)
Lemma unmarked_columns_kept_on_example :
  _perturb_features example_simulator example_features 0%nat
    = (Ok example_perturbed, 4%nat) ∧
  df_data example_perturbed !! "corners"
    = df_data example_features !! "corners".
Proof.
  assert (_perturb_features example_simulator example_features 0%nat
            = (Ok example_perturbed, 4%nat)) as Hrun
    by (vm_compute; reflexivity).
  split; [exact Hrun|].
  apply (perturbation_keeps_unmarked_columns example_simulator
           example_features example_perturbed 0%nat 4%nat Hrun).
  vm_compute. right. left.
Defined.

(** C3 fails as stated: [fuel_efficiency_rating] and [fuel_flow_ratio]
    carry the strategy marker [fuel], so a draw whose integer step is not
    zero moves both. *)
Lemma perturbation_moves_fuel_columns :
  _perturb_features example_simulator example_features 0%nat
    = (Ok example_perturbed, 4%nat) ∧
  df_data example_features !! "fuel_efficiency_rating" = Some [1; 1; 1] ∧
  df_data example_features !! "fuel_flow_ratio" = Some [1; 1; 1] ∧
  df_data example_perturbed !! "fuel_efficiency_rating"
    = Some [1 + 1 * 0.10; 1 + 1 * 0.10; 1 + 1 * 0.10] ∧
  df_data example_perturbed !! "fuel_flow_ratio"
    = Some [1 + 1 * 0.10; 1 + 1 * 0.10; 1 + 1 * 0.10] ∧
  ¬ 1 + 1 * 0.10 == 1.
Proof.
  split_and!; try (vm_compute; reflexivity).
  intros Heq. vm_compute in Heq. discriminate.
Qed.

(** ** The number of draws *)

Section RunFacts.
Context {G : Type} `{Generator G}.
Variable self : MonteCarloSimulator.
Variable fsqrt : Q → Q.

Lemma effective_n_sims_default requested :
  requested = None ∨ requested = Some 0%Z →
  effective_n_sims self requested = n_simulations (config self).
Proof. by intros [->| ->]. Qed.

Lemma run_draws_negative features n g :
  (n < 0)%Z →
  ∃ e, run_draws self features (Some n) g = (Raise e, g).
Proof.
  intros Hn. unfold run_draws, mbind, sim_bind, lift.
  destruct (select_columns features (feature_columns self)); [|eauto].
  unfold np_zeros_checked, effective_n_sims.
  destruct (n =? 0)%Z eqn:H0; [lia|].
  apply Z.ltb_lt in Hn. rewrite Hn. eauto.
Qed.

End RunFacts.

(** C6 (as amended).  A call of [run] with a negative [n_simulations]
    raises before any draw, and the generator state is the one the call
    started with; [n_simulations = 0] is not an error: it is read as an
    omitted argument and selects the configured default. *)
Theorem run_rejects_negative_draw_counts_only
    {G : Type} `{Generator G} (self : MonteCarloSimulator) (fsqrt : Q → Q)
    (features : DataFrame) (driver_names : list string) (n : Z) (g : G) :
  (n < 0)%Z →
  (∃ e, run self fsqrt features driver_names (Some n) g = (Raise e, g)) ∧
  run self fsqrt features driver_names (Some 0%Z) g
    = run self fsqrt features driver_names None g.
Proof.
  intros Hn. split; [|done].
  destruct (run_draws_negative self features n g Hn) as [e He].
  exists e. unfold run, mbind, sim_bind. by rewrite He.
Qed.

(** On the example event, asking for -5 draws. *)
Lemma negative_draw_count_on_example :
  (-5 < 0)%Z ∧
  (∃ e, run example_simulator approx_sqrt example_features example_drivers
          (Some (-5)%Z) 0%nat = (Raise e, 0%nat)) ∧
  run example_simulator approx_sqrt example_features example_drivers
    (Some 0%Z) 0%nat
  = run example_simulator approx_sqrt example_features example_drivers
      None 0%nat.
Proof.
  split; [lia|].
  apply (run_rejects_negative_draw_counts_only example_simulator approx_sqrt
           example_features example_drivers (-5)%Z 0%nat).
  lia.
Defined.

(** C6 fails as stated: with [n_simulations = 0] the call returns the
    statistics of the configured two draws and has advanced the
    generator. *)
Lemma run_with_zero_draws_does_not_raise :
  ∃ stats g',
    run example_simulator approx_sqrt example_features example_drivers
      (Some 0%Z) 0%nat = (Ok stats, g') ∧
    g' ≠ 0%nat.
Proof.
  eexists _, 8%nat. split; [vm_compute; reflexivity|done].
Qed.

Lemma set_row_exact predictions sim_index values :
  length values = ncols predictions →
  set_row predictions sim_index values
    = Ok (mk_ndarray (ncols predictions)
            (<[sim_index := values]> (rows predictions))).
Proof. intros Hlen. unfold set_row. by apply Nat.eqb_eq in Hlen as ->. Qed.

Section ExecutedDraws.
Context {G : Type} `{Generator G}.
Variable self : MonteCarloSimulator.

Lemma executed_draws_length feature_matrix remaining : ∀ g drawn g',
  executed_draws self feature_matrix remaining g = (Ok drawn, g') →
  length drawn = remaining.
Proof.
  induction remaining as [|remaining IH]; intros g drawn g' Hrun;
    simpl in Hrun.
  - by injection Hrun as <- _.
  - unfold mbind, sim_bind, lift, mret, sim_ret in Hrun.
    destruct (_perturb_features self feature_matrix g)
      as [[perturbed|] g1]; [|done].
    destruct (model_predict self perturbed) as [values|]; [|done].
    destruct (executed_draws self feature_matrix remaining g1)
      as [[rest|] g2] eqn:Hrest; [|done].
    injection Hrun as <- _. cbn. f_equal. by eapply IH.
Qed.

(** The loop writes the rows of the executed draws, in order, over the
    rows [sim_index], [sim_index + 1], ... of the accumulator, and leaves
    the generator where the last draw left it. *)
Lemma draw_loop_executes feature_matrix remaining :
  0 <= driver_form_sigma (config self) →
  0 <= weather_sigma (config self) →
  has_columns (feature_columns self) feature_matrix →
  (∀ frame, ∃ values,
     model_predict self frame = Ok values ∧ length values = df_len frame) →
  ∀ sim_index predictions g,
    ncols predictions = df_len feature_matrix →
    (sim_index + remaining ≤ length (rows predictions))%nat →
    ∃ drawn predictions' g',
      executed_draws self feature_matrix remaining g = (Ok drawn, g') ∧
      draw_loop self feature_matrix remaining sim_index predictions g
        = (Ok predictions', g') ∧
      ncols predictions' = ncols predictions ∧
      rows predictions'
        = take sim_index (rows predictions) ++ drawn
          ++ drop (sim_index + remaining) (rows predictions).
Proof.
  intros Hform Hweather Hhas Hpred.
  induction remaining as [|remaining IH];
    intros sim_index predictions g Hn Hlen; simpl.
  - exists [], predictions, g. split_and!; try done.
    by rewrite Nat.add_0_r, app_nil_l, take_drop.
  - unfold mbind, sim_bind, lift, mret, sim_ret.
    destruct (perturb_features_ok self feature_matrix g Hform Hweather Hhas)
      as (perturbed & g1 & Hp).
    rewrite Hp. apply perturb_features_spec in Hp as [[Hrows _] _].
    destruct (Hpred perturbed) as (values & -> & Hvalues).
    rewrite set_row_exact
      by (rewrite np_clip_length, Hvalues; congruence).
    destruct (IH (S sim_index)
                (mk_ndarray (ncols predictions)
                   (<[sim_index := np_clip values 1 20]> (rows predictions)))
                g1)
      as (rest & predictions' & g' & Hrest & Hloop & Hcols & Hrest_rows).
    { done. }
    { cbn. rewrite length_insert. lia. }
    rewrite Hrest, Hloop. exists (np_clip values 1 20 :: rest), predictions', g'.
    split_and!; try done. rewrite Hrest_rows. cbn [rows].
    rewrite drop_insert_lt by lia.
    rewrite (take_S_r _ _ (np_clip values 1 20))
      by (apply list_lookup_insert_eq; lia).
    rewrite take_insert_ge by lia.
    rewrite <- app_assoc.
    by replace (sim_index + S remaining)%nat
      with (S sim_index + remaining)%nat by lia.
Qed.

End ExecutedDraws.

(** C10.  When [n_simulations] is omitted, [None] or zero, [run] executes
    [config.n_simulations] draws.  For a non-negative configured count,
    non-negative noise scales, a frame that holds the feature columns and a
    regressor that returns one value per row, the accumulator [run] fills
    consists of exactly the rows of [config.n_simulations] draws executed
    one after the other, in that order, and the generator is left where
    the last of these draws left it. *)
Theorem omitted_n_simulations_runs_configured_default
    {G : Type} `{Generator G} (self : MonteCarloSimulator)
    (features : DataFrame) (requested : option Z) (g : G) :
  requested = None ∨ requested = Some 0%Z →
  (0 ≤ n_simulations (config self))%Z →
  0 <= driver_form_sigma (config self) →
  0 <= weather_sigma (config self) →
  Forall (fun c => is_Some (df_data features !! c)) (feature_columns self) →
  (∀ frame, ∃ values,
     model_predict self frame = Ok values ∧ length values = df_len frame) →
  ∃ feature_matrix drawn predictions g',
    select_columns features (feature_columns self) = Ok feature_matrix ∧
    executed_draws self feature_matrix
      (Z.to_nat (n_simulations (config self))) g = (Ok drawn, g') ∧
    run_draws self features requested g = (Ok predictions, g') ∧
    rows predictions = drawn ∧
    Z.of_nat (length (rows predictions)) = n_simulations (config self) ∧
    Forall (within 1 20) (rows predictions).
Proof.
  intros Hreq Hn Hform Hweather Hcols Hpred.
  pose proof (effective_n_sims_default self requested Hreq) as Heff.
  assert (has_columns (feature_columns self) features) as Hhas.
  { intros c Hc. rewrite Forall_forall in Hcols. by apply Hcols. }
  destruct (select_columns_ok self features Hhas)
    as (feature_matrix & Hsel & Hlen & Hfm).
  destruct (draw_loop_executes self feature_matrix
              (Z.to_nat (n_simulations (config self)))
              Hform Hweather Hfm Hpred 0%nat
              (np_zeros (Z.to_nat (n_simulations (config self)))
                 (df_len feature_matrix)) g)
    as (drawn & predictions & g' & Hdrawn & Hloop & _ & Hrows).
  { done. }
  { rewrite np_zeros_rows. lia. }
  assert (run_draws self features requested g = (Ok predictions, g')) as Hrun.
  { unfold run_draws, mbind, sim_bind, lift. rewrite Hsel, Heff.
    unfold np_zeros_checked. apply Z.ltb_ge in Hn. by rewrite Hn. }
  exists feature_matrix, drawn, predictions, g'.
  destruct (run_draws_within _ _ _ _ _ _ Hrun) as [Hcount Hw].
  split_and!; try done.
  - rewrite Hrows. cbn [take app].
    rewrite drop_ge by (rewrite np_zeros_rows; lia). by rewrite app_nil_r.
  - by rewrite Hcount.
Qed.

(** On the example event, asking for 0 draws with 2 configured. *)
Lemma configured_default_on_example :
  ∃ feature_matrix drawn predictions g',
    select_columns example_features (feature_columns example_simulator)
      = Ok feature_matrix ∧
    executed_draws example_simulator feature_matrix
      (Z.to_nat (n_simulations (config example_simulator))) 0%nat
      = (Ok drawn, g') ∧
    run_draws example_simulator example_features (Some 0%Z) 0%nat
      = (Ok predictions, g') ∧
    rows predictions = drawn ∧
    Z.of_nat (length (rows predictions))
      = n_simulations (config example_simulator) ∧
    Forall (within 1 20) (rows predictions).
Proof.
  apply (omitted_n_simulations_runs_configured_default example_simulator
           example_features (Some 0%Z) 0%nat).
  - by right.
  - vm_compute. discriminate.
  - vm_compute. discriminate.
  - vm_compute. discriminate.
  - vm_compute. repeat constructor; eexists; reflexivity.
  - intros frame. eexists. split; [reflexivity|apply repeat_length].
Defined.

(** ** Imputation *)

Lemma fillna_lookup_missing fill (col : raw_column) i :
  col !! i = Some None → fillna fill col !! i = Some fill.
Proof.
  intros Hi. destruct fill as [m|]; simpl; [|done].
  revert i Hi. induction col as [|cell col IH]; intros [|i] Hi; try done.
  - by inversion Hi.
  - by apply IH.
Qed.

Lemma fillna_lookup_present fill (col : raw_column) i v :
  col !! i = Some (Some v) → fillna fill col !! i = Some (Some v).
Proof.
  intros Hi. destruct fill as [m|]; simpl; [|done].
  revert i Hi. induction col as [|cell col IH]; intros [|i] Hi; try done.
  - by inversion Hi.
  - by apply IH.
Qed.

Lemma impute_spec features cols X c :
  impute features cols = Ok X →
  c ∈ cols →
  ∃ col, features !! c = Some col ∧ X !! c = Some (fillna (column_mean col) col).
Proof.
  revert X. induction cols as [|c0 cols IH]; intros X Himp Hc.
  - by apply elem_of_nil in Hc.
  - simpl in Himp. destruct (features !! c0) as [col0|] eqn:H0; [|done].
    destruct (impute features cols) as [rest|] eqn:Hrest; [|done].
    simpl in Himp. inversion Himp; subst.
    destruct (decide (c0 = c)) as [->|Hne].
    + exists col0. by rewrite lookup_insert_eq.
    + rewrite lookup_insert_ne by done. apply (IH rest); [done|].
      apply elem_of_cons in Hc as [?|?]; [congruence|done].
Qed.

(** C8 (as amended).  [train_model] fills every missing value of a feature
    column with the mean of the present values of that column over all rows
    of the table it is given; the split into training and hold-out rows
    happens afterwards, on the filled table, so hold-out rows contribute to
    the fill value. *)
Theorem imputation_uses_the_whole_table
    (train_test_split : nat → list nat * list nat) (Model : Type)
    (fit : gmap string raw_column → raw_column → Model)
    (n_rows : nat) (features : gmap string raw_column) (target : raw_column)
    (feature_columns : list string) (model : Model) :
  train_model train_test_split Model fit n_rows features target feature_columns
    = Ok model →
  ∃ X, impute features feature_columns = Ok X ∧
    model = fit (take_rows (train_test_split n_rows).1 <$> X)
                (take_rows (train_test_split n_rows).1 target) ∧
    ∀ c col i, c ∈ feature_columns → features !! c = Some col →
      col !! i = Some None →
      ∃ filled, X !! c = Some filled ∧ filled !! i = Some (column_mean col).
Proof.
  unfold train_model. intros Hrun.
  destruct (impute features feature_columns) as [X|] eqn:Himp; [|done].
  simpl in Hrun. destruct (train_test_split n_rows) as [train test].
  inversion Hrun; subst. exists X. split_and!; [done..|].
  intros c col i Hc Hcol Hi.
  destruct (impute_spec _ _ _ _ Himp Hc) as (col' & Hcol' & HX).
  rewrite Hcol in Hcol'. inversion Hcol'; subst col'.
  eexists. split; [exact HX|]. by apply fillna_lookup_missing.
Qed.

(** On the six-row example column, with the unshuffled example split. *)
Lemma whole_table_imputation_on_example :
  train_model example_split _ pair 6 example_table example_target
    ["grid_position"] = Ok example_model ∧
  ∃ X, impute example_table ["grid_position"] = Ok X ∧
    example_model = (take_rows (example_split 6).1 <$> X,
                     take_rows (example_split 6).1 example_target) ∧
    ∀ c col i, c ∈ ["grid_position"] → example_table !! c = Some col →
      col !! i = Some None →
      ∃ filled, X !! c = Some filled ∧ filled !! i = Some (column_mean col).
Proof.
  assert (train_model example_split _ pair 6 example_table example_target
            ["grid_position"] = Ok example_model) as Hrun
    by (vm_compute; reflexivity).
  split; [exact Hrun|].
  exact (imputation_uses_the_whole_table example_split _ pair 6 example_table
           example_target ["grid_position"] example_model Hrun).
Defined.

Lemma differs_from_fold_mean_spec m col train :
  differs_from_fold_mean m col train = true →
  ∀ m', train_fold_mean train col = Some m' → ¬ m == m'.
Proof.
  unfold differs_from_fold_mean. intros Hd m' Hm'. rewrite Hm' in Hd.
  apply Qeq_bool_neq. by destruct (Qeq_bool m m').
Qed.

(** C8 fails as stated: in a six-row column with one missing value, the
    value filled in is 31/5, the mean over all six rows, and it differs from
    the mean over the training rows whichever four rows the split keeps for
    training, in whatever order. *)
Lemma fill_value_is_not_a_training_fold_mean :
  impute example_table ["grid_position"] = Ok example_imputed ∧
  ∃ filled m,
    example_imputed !! "grid_position" = Some filled ∧
    filled !! 0%nat = Some (Some m) ∧ m == 31 # 5 ∧
    ∀ train, train ∈ arrangements 4 (seq 0 6) →
      ∀ col m', example_table !! "grid_position" = Some col →
        train_fold_mean train col = Some m' → ¬ m == m'.
Proof.
  split; [vm_compute; reflexivity|].
  exists [Some (31 # 5); Some 1; Some 2; Some 4; Some 8; Some 16], (31 # 5).
  split_and!; [vm_compute; reflexivity|reflexivity|reflexivity|].
  - intros train Htrain col m' Hcol.
    vm_compute in Hcol. inversion Hcol; subst col. clear Hcol.
    apply differs_from_fold_mean_spec.
    revert train Htrain. apply Forall_forall.
    apply Forall_forall. intros train Htrain%list_elem_of_In.
    revert train Htrain. apply forallb_forall. vm_compute. reflexivity.
Qed.

(** ** The scenario transform *)

Lemma apply_scenario_other scenario : ∀ row row' c,
  apply_scenario scenario row = Ok row' →
  c ∉ scenario.*1 →
  row' !! c = row !! c.
Proof.
  induction scenario as [|[c0 m] scenario IH]; intros row row' c Happ Hc.
  - by inversion Happ.
  - simpl in Happ. destruct (row !! c0) as [v|] eqn:Hv; [|done].
    rewrite fmap_cons in Hc. apply not_elem_of_cons in Hc as [Hne Hc].
    rewrite (IH _ _ _ Happ Hc). by rewrite lookup_insert_ne.
Qed.

Lemma apply_scenario_listed scenario : ∀ row row' c m,
  NoDup scenario.*1 →
  apply_scenario scenario row = Ok row' →
  (c, m) ∈ scenario →
  row' !! c = (fun v => v * m) <$> row !! c.
Proof.
  induction scenario as [|[c0 m0] scenario IH];
    intros row row' c m Hnd Happ Hin.
  - by apply elem_of_nil in Hin.
  - simpl in Happ. destruct (row !! c0) as [v|] eqn:Hv; [|done].
    rewrite fmap_cons in Hnd. apply NoDup_cons in Hnd as [Hfresh Hnd].
    cbn [fst] in Hfresh.
    apply elem_of_cons in Hin as [[= -> ->]|Hin].
    + rewrite (apply_scenario_other _ _ _ _ Happ Hfresh).
      by rewrite lookup_insert_eq, Hv.
    + rewrite (IH _ _ _ _ Hnd Happ Hin).
      assert (c ≠ c0) as Hne.
      { intros ->. apply Hfresh. apply list_elem_of_fmap. by exists (c0, m). }
      by rewrite lookup_insert_ne.
Qed.

Lemma apply_scenario_ok scenario : ∀ row,
  Forall (fun c => is_Some (row !! c)) scenario.*1 →
  ∃ row', apply_scenario scenario row = Ok row'.
Proof.
  induction scenario as [|[c0 m0] scenario IH]; intros row Hall; [by eexists|].
  rewrite fmap_cons in Hall. apply Forall_cons in Hall as [[v Hv] Hall].
  cbn [fst] in Hv. simpl. rewrite Hv. apply IH.
  eapply Forall_impl; [exact Hall|]. intros c [w Hw]. cbn.
  destruct (decide (c0 = c)) as [->|Hne].
  - rewrite lookup_insert_eq. eauto.
  - rewrite lookup_insert_ne by done. eauto.
Qed.

(** C4.  Applying the future scenario to a feature row that holds the five
    ruleset-parameter columns multiplies exactly these: [power_ratio] by
    3.33, [aero_coeff] by 0.70, [weight_ratio] by 0.962, [fuel_flow_ratio]
    by 0.75 and [tire_grip_ratio] by 0.94; a row with [power_ratio] 0.15
    yields 0.4995, and every other column keeps its value. *)
Theorem future_scenario_scales_the_ruleset_columns (row : gmap string Q) :
  Forall (fun c => is_Some (row !! c))
    ["power_ratio"; "aero_coeff"; "weight_ratio"; "fuel_flow_ratio";
     "tire_grip_ratio"] →
  ∃ row',
    apply_scenario future_scenario row = Ok row' ∧
    row' !! "power_ratio" = (fun v => v * 3.33) <$> row !! "power_ratio" ∧
    row' !! "aero_coeff" = (fun v => v * 0.70) <$> row !! "aero_coeff" ∧
    row' !! "weight_ratio" = (fun v => v * 0.962) <$> row !! "weight_ratio" ∧
    row' !! "fuel_flow_ratio"
      = (fun v => v * 0.75) <$> row !! "fuel_flow_ratio" ∧
    row' !! "tire_grip_ratio"
      = (fun v => v * 0.94) <$> row !! "tire_grip_ratio" ∧
    (∀ v, row !! "power_ratio" = Some v → v == 0.15 →
          ∃ v', row' !! "power_ratio" = Some v' ∧ v' == 0.4995) ∧
    (∀ c, c ∉ ["power_ratio"; "aero_coeff"; "weight_ratio";
               "fuel_flow_ratio"; "tire_grip_ratio"] →
          row' !! c = row !! c).
Proof.
  intros Hall.
  destruct (apply_scenario_ok future_scenario row Hall) as [row' Happ].
  assert (NoDup future_scenario.*1) as Hnd
    by (apply (bool_decide_unpack _); vm_compute; reflexivity).
  assert (∀ c m, (c, m) ∈ future_scenario →
                 row' !! c = (fun v => v * m) <$> row !! c) as Hlisted
    by (intros c m; by apply apply_scenario_listed).
  exists row'. split_and!; [done| | | | | | |].
  - apply Hlisted. by left.
  - apply Hlisted. right. by left.
  - apply Hlisted. do 2 right. by left.
  - apply Hlisted. do 3 right. by left.
  - apply Hlisted. do 4 right. by left.
  - intros v Hv Heq. exists (v * 3.33). split.
    + rewrite (Hlisted "power_ratio" 3.33) by (by left). by rewrite Hv.
    + rewrite Heq. reflexivity.
  - intros c Hc. by apply (apply_scenario_other future_scenario).
Qed.

(** On a row at the baseline values. *)
Lemma future_scenario_on_example :
  Forall (fun c => is_Some (baseline_row !! c))
    ["power_ratio"; "aero_coeff"; "weight_ratio"; "fuel_flow_ratio";
     "tire_grip_ratio"] ∧
  apply_scenario future_scenario baseline_row = Ok future_row ∧
  future_row !! "power_ratio" = Some (0.15 * 3.33) ∧
  future_row !! "aero_coeff" = Some (1 * 0.70) ∧
  future_row !! "corners" = Some 19 ∧
  ∃ row',
    apply_scenario future_scenario baseline_row = Ok row' ∧
    row' !! "power_ratio"
      = (fun v => v * 3.33) <$> baseline_row !! "power_ratio" ∧
    row' !! "aero_coeff"
      = (fun v => v * 0.70) <$> baseline_row !! "aero_coeff" ∧
    row' !! "weight_ratio"
      = (fun v => v * 0.962) <$> baseline_row !! "weight_ratio" ∧
    row' !! "fuel_flow_ratio"
      = (fun v => v * 0.75) <$> baseline_row !! "fuel_flow_ratio" ∧
    row' !! "tire_grip_ratio"
      = (fun v => v * 0.94) <$> baseline_row !! "tire_grip_ratio" ∧
    (∀ v, baseline_row !! "power_ratio" = Some v → v == 0.15 →
          ∃ v', row' !! "power_ratio" = Some v' ∧ v' == 0.4995) ∧
    (∀ c, c ∉ ["power_ratio"; "aero_coeff"; "weight_ratio";
               "fuel_flow_ratio"; "tire_grip_ratio"] →
          row' !! c = baseline_row !! c).
Proof.
  assert (Forall (fun c => is_Some (baseline_row !! c))
            ["power_ratio"; "aero_coeff"; "weight_ratio"; "fuel_flow_ratio";
             "tire_grip_ratio"]) as Hall
    by (repeat constructor; eexists; vm_compute; reflexivity).
  split; [exact Hall|].
  split; [vm_compute; reflexivity|].
  split; [vm_compute; reflexivity|].
  split; [vm_compute; reflexivity|].
  split; [vm_compute; reflexivity|].
  exact (future_scenario_scales_the_ruleset_columns baseline_row Hall).
Defined.

(** ** The result artifact *)





(** * Further properties of the code *)

(** ** Outcomes of the summary *)

Lemma column_ok predictions idx :
  (idx < ncols predictions)%nat →
  column predictions idx
    = Ok (map (fun draw => nth idx draw 0) (rows predictions)).
Proof. intros Hi. unfold column. apply Nat.ltb_lt in Hi. by rewrite Hi. Qed.

Lemma column_out_of_bounds predictions idx :
  (ncols predictions ≤ idx)%nat → column predictions idx = Raise IndexError.
Proof. intros Hi. unfold column. apply Nat.ltb_ge in Hi. by rewrite Hi. Qed.

Lemma column_stats_ok fsqrt distribution :
  distribution ≠ [] → ∃ entry, column_stats fsqrt distribution = Ok entry.
Proof. destruct distribution; [done|]. simpl. eauto. Qed.

Section SummaryOutcomes.
Variable fsqrt : Q → Q.

Lemma summarise_from_ok predictions ds : ∀ idx st,
  rows predictions ≠ [] →
  (idx + length ds ≤ ncols predictions)%nat →
  ∃ stats, summarise_from fsqrt predictions idx ds st = Ok stats.
Proof.
  induction ds as [|d ds IH]; intros idx st Hrows Hlen; simpl; [eauto|].
  simpl in Hlen. rewrite column_ok by lia. simpl.
  destruct (column_stats_ok fsqrt
              (map (fun draw => nth idx draw 0) (rows predictions)))
    as [entry ->].
  { destruct (rows predictions); [done|]. done. }
  simpl. apply IH; [done|lia].
Qed.

Lemma summarise_from_no_draws predictions d ds idx st :
  rows predictions = [] →
  summarise_from fsqrt predictions idx (d :: ds) st
  = Raise (if (idx <? ncols predictions)%nat then ValueError else IndexError).
Proof.
  intros Hrows. simpl. unfold column. rewrite Hrows.
  by destruct (idx <? ncols predictions)%nat.
Qed.

Lemma summarise_from_too_many predictions ds : ∀ idx st,
  rows predictions ≠ [] →
  (idx ≤ ncols predictions)%nat →
  (ncols predictions < idx + length ds)%nat →
  summarise_from fsqrt predictions idx ds st = Raise IndexError.
Proof.
  induction ds as [|d ds IH]; intros idx st Hrows Hidx Hlen; simpl in *; [lia|].
  destruct (decide (idx = ncols predictions)) as [->|Hne].
  - by rewrite column_out_of_bounds.
  - rewrite column_ok by lia. simpl.
    destruct (column_stats_ok fsqrt
                (map (fun draw => nth idx draw 0) (rows predictions)))
      as [entry ->].
    { destruct (rows predictions); [done|]. done. }
    simpl. apply IH; [done|lia|lia].
Qed.

End SummaryOutcomes.

(** X1.  [_summarise_predictions] returns statistics exactly when the
    roster is empty, or the accumulator holds at least one draw and has a
    column for every driver of the roster. *)
Theorem summary_succeeds_iff
    (fsqrt : Q → Q) (predictions : ndarray) (drivers : list string) :
  (∃ stats, _summarise_predictions fsqrt predictions drivers = Ok stats) ↔
  drivers = [] ∨
  (rows predictions ≠ [] ∧ (length drivers ≤ ncols predictions)%nat).
Proof.
  unfold _summarise_predictions. split.
  - intros [stats Hrun]. destruct drivers as [|d ds]; [by left|]. right.
    destruct (rows predictions) as [|r rs] eqn:Hrows.
    { by rewrite summarise_from_no_draws in Hrun. }
    split; [done|].
    destruct (decide (length (d :: ds) ≤ ncols predictions)%nat); [done|].
    rewrite summarise_from_too_many in Hrun; [done|by rewrite Hrows|lia|lia].
  - intros [->|[Hrows Hlen]]; [simpl; eauto|].
    by apply summarise_from_ok.
Qed.

(** X2.  With no draw in the accumulator and a driver to report on, the
    summary raises: [ValueError] from the minimum of an empty column when
    the accumulator has a column for the first driver. *)
Theorem summary_of_no_draws_raises
    (fsqrt : Q → Q) (predictions : ndarray) (drivers : list string) :
  rows predictions = [] → drivers ≠ [] → (0 < ncols predictions)%nat →
  _summarise_predictions fsqrt predictions drivers = Raise ValueError.
Proof.
  intros Hrows Hd Hn. destruct drivers as [|d ds]; [done|].
  unfold _summarise_predictions. rewrite summarise_from_no_draws by done.
  apply Nat.ltb_lt in Hn. by rewrite Hn.
Qed.

Lemma summary_of_no_draws_on_example :
  rows example_no_draws = [] ∧ example_drivers ≠ [] ∧
  (0 < ncols example_no_draws)%nat ∧
  _summarise_predictions approx_sqrt example_no_draws example_drivers
    = Raise ValueError.
Proof.
  split_and!; [reflexivity|discriminate|simpl; lia|].
  apply (summary_of_no_draws_raises approx_sqrt example_no_draws
           example_drivers); [reflexivity|discriminate|simpl; lia].
Defined.

(** X3.  With more driver names than columns the summary raises
    [IndexError], after the columns that exist have been summarised. *)
Theorem summary_of_too_many_drivers_raises
    (fsqrt : Q → Q) (predictions : ndarray) (drivers : list string) :
  rows predictions ≠ [] → (ncols predictions < length drivers)%nat →
  _summarise_predictions fsqrt predictions drivers = Raise IndexError.
Proof.
  intros Hrows Hlen. unfold _summarise_predictions.
  apply summarise_from_too_many; [done|lia|lia].
Qed.

Lemma summary_of_too_many_drivers_on_example :
  rows example_single_column ≠ [] ∧
  (ncols example_single_column < length example_drivers)%nat ∧
  _summarise_predictions approx_sqrt example_single_column example_drivers
    = Raise IndexError.
Proof.
  split_and!; [discriminate|simpl; lia|].
  apply (summary_of_too_many_drivers_raises approx_sqrt example_single_column
           example_drivers); [discriminate|simpl; lia].
Defined.

(** ** The keys of the summary *)

Lemma dict_keys_set_new {V} (d : dict V) k v :
  k ∉ dict_keys d → dict_keys (dict_set d k v) = dict_keys d ++ [k].
Proof.
  induction d as [|[k' v'] d IH]; intros Hk; simpl; [done|].
  simpl in Hk. apply not_elem_of_cons in Hk as [Hne Hk].
  destruct (String.eqb k k') eqn:E.
  - apply String.eqb_eq in E. congruence.
  - simpl. f_equal. by apply IH.
Qed.

Lemma summarise_from_keys fsqrt predictions ds : ∀ idx st stats,
  summarise_from fsqrt predictions idx ds st = Ok stats →
  NoDup (dict_keys st ++ ds) →
  dict_keys stats = dict_keys st ++ ds.
Proof.
  induction ds as [|d ds IH]; intros idx st stats Hrun Hnd; simpl in Hrun.
  - inversion Hrun; subst. by rewrite app_nil_r.
  - destruct (column predictions idx) as [dist|]; [|done]. simpl in Hrun.
    destruct (column_stats fsqrt dist) as [entry|]; [|done]. simpl in Hrun.
    assert (d ∉ dict_keys st) as Hd.
    { apply NoDup_app in Hnd as (_ & Hdisj & _). intros Hin.
      apply (Hdisj d Hin). by left. }
    apply IH in Hrun.
    + rewrite Hrun, dict_keys_set_new by done. by rewrite <- app_assoc.
    + rewrite dict_keys_set_new by done. by rewrite <- app_assoc.
Qed.

(** X4.  For a roster of distinct names the summary has exactly one entry
    per driver, in roster order. *)
Theorem summary_keys_are_the_roster
    (fsqrt : Q → Q) (predictions : ndarray) (drivers : list string)
    (stats : dict (dict Q)) :
  NoDup drivers →
  _summarise_predictions fsqrt predictions drivers = Ok stats →
  dict_keys stats = drivers.
Proof.
  intros Hnd Hrun. by apply summarise_from_keys in Hrun.
Qed.

Lemma summary_keys_on_example :
  NoDup example_drivers ∧
  _summarise_predictions approx_sqrt example_predictions example_drivers
    = Ok example_summary ∧
  dict_keys example_summary = example_drivers.
Proof.
  assert (NoDup example_drivers) as Hnd
    by (apply (bool_decide_unpack _); vm_compute; reflexivity).
  assert (_summarise_predictions approx_sqrt example_predictions
            example_drivers = Ok example_summary) as Hrun
    by (vm_compute; reflexivity).
  split_and!; [exact Hnd|exact Hrun|].
  exact (summary_keys_are_the_roster approx_sqrt example_predictions
           example_drivers example_summary Hnd Hrun).
Defined.

(** ** Bounds on the statistics *)

Lemma np_sum_bounds lo hi a :
  within lo hi a →
  lo * Qnat (length a) <= np_sum a ∧ np_sum a <= hi * Qnat (length a).
Proof.
  induction 1 as [|v a [Hlo Hhi] _ [IH1 IH2]]; simpl.
  - change (Qnat 0) with 0. split; lra.
  - rewrite Qnat_S. split; lra.
Qed.

Lemma np_mean_bounds lo hi a :
  a ≠ [] → within lo hi a → lo <= np_mean a ∧ np_mean a <= hi.
Proof.
  intros Ha Hw. destruct (np_sum_bounds lo hi a Hw) as [H1 H2].
  assert (0 < Qnat (length a)) as Hn.
  { apply Qnat_pos. destruct a; [done|simpl; lia]. }
  unfold np_mean. split.
  - by apply Qle_shift_div_l.
  - by apply Qle_shift_div_r.
Qed.

Lemma np_min_elem a : ∀ x, np_min x a ∈ x :: a.
Proof.
  induction a as [|v a IH]; intros x; [by left|].
  unfold np_min in *. simpl.
  destruct (decide (v <= x)).
  - right. apply IH.
  - specialize (IH x). apply elem_of_cons in IH as [->|IH]; [by left|].
    right. by right.
Qed.

Lemma np_max_elem a : ∀ x, np_max x a ∈ x :: a.
Proof.
  induction a as [|v a IH]; intros x; [by left|].
  unfold np_max in *. simpl.
  destruct (decide (x <= v)).
  - right. apply IH.
  - specialize (IH x). apply elem_of_cons in IH as [->|IH]; [by left|].
    right. by right.
Qed.

Lemma within_elem lo hi a v : within lo hi a → v ∈ a → lo <= v ∧ v <= hi.
Proof. unfold within. rewrite Forall_forall. eauto. Qed.

(** The location statistics of a column lie wherever all its values lie. *)
Lemma column_stats_within fsqrt lo hi distribution entry :
  column_stats fsqrt distribution = Ok entry →
  within lo hi distribution →
  Forall (fun key => ∃ v, dict_get entry key = Some v ∧ lo <= v ∧ v <= hi)
    ["mean"; "median"; "min"; "max"; "percentile_5"; "percentile_95"].
Proof.
  intros Hst Hw. destruct distribution as [|x rest]; [done|].
  simpl in Hst. inversion Hst as [Hentry]. clear Hst Hentry.
  set (a := x :: rest) in *.
  assert (0 < length a)%nat as Ha by (simpl; lia).
  assert (a ≠ []) as Hne by done.
  assert (∀ q, 0 <= q → q <= 100 →
               lo <= np_percentile a q ∧ np_percentile a q <= hi) as Hp.
  { intros q H0 H1.
    destruct (np_percentile_between a q Ha H0 H1) as (l & h & Hl & Hh & H2 & H3).
    destruct (within_elem _ _ _ _ Hw Hl), (within_elem _ _ _ _ Hw Hh).
    split; lra. }
  repeat apply Forall_cons_2; [..|constructor]; eexists; (split; [reflexivity|]).
  - by apply np_mean_bounds.
  - rewrite (np_median_is_percentile_50 a Ha). apply Hp; lra.
  - apply (within_elem _ _ _ _ Hw), np_min_elem.
  - apply (within_elem _ _ _ _ Hw), np_max_elem.
  - apply Hp; lra.
  - apply Hp; lra.
Qed.

(** ** Degenerate threshold probabilities *)

Lemma count_le_full a k : count_le a k = length a ↔ Forall (fun v => v <= k) a.
Proof.
  induction a as [|v a IH]; [by split|].
  rewrite count_le_cons. pose proof (count_le_length a k) as Hle. simpl.
  destruct (decide (v <= k)) as [Hv|Hv]; split.
  - intros [= Hc]. constructor; [done|]. by apply IH.
  - intros [_ Ha]%Forall_cons. f_equal. by apply IH.
  - lia.
  - by intros [? _]%Forall_cons.
Qed.

Lemma count_le_none a k : count_le a k = 0%nat ↔ Forall (fun v => k < v) a.
Proof.
  induction a as [|v a IH]; [by split|].
  rewrite count_le_cons.
  destruct (decide (v <= k)) as [Hv|Hv]; split.
  - done.
  - intros [Hk _]%Forall_cons. lra.
  - intros Hc. constructor; [by apply Qnot_le_lt|]. by apply IH.
  - intros [_ Ha]%Forall_cons. by apply IH.
Qed.

Lemma fraction_le_degenerate a k :
  a ≠ [] →
  (fraction_le a k == 1 ↔ Forall (fun v => v <= k) a) ∧
  (fraction_le a k == 0 ↔ Forall (fun v => k < v) a).
Proof.
  intros Ha. rewrite <- count_le_full, <- count_le_none. unfold fraction_le.
  assert (0 < Qnat (length a)) as Hn.
  { apply Qnat_pos. destruct a; [done|simpl; lia]. }
  split; split.
  - intros Heq. apply Nat2Z.inj, inject_Z_injective.
    change (Qnat (count_le a k) == Qnat (length a)).
    transitivity (Qnat (count_le a k) / Qnat (length a) * Qnat (length a));
      [field; lra|rewrite Heq; lra].
  - intros ->. field. lra.
  - intros Heq. apply Nat2Z.inj, inject_Z_injective.
    change (Qnat (count_le a k) == 0).
    transitivity (Qnat (count_le a k) / Qnat (length a) * Qnat (length a));
      [field; lra|rewrite Heq; lra].
  - intros ->. change (Qnat 0) with 0. field. lra.
Qed.

(** X6.  The threshold probabilities collapse exactly when the driver's
    draws all lie on one side of the threshold: [top3_probability] is 1 if
    and only if every draw of the driver is at most 3, and 0 if and only if
    every draw is above 3; the same holds for [top5_probability] and 5. *)
Theorem threshold_probability_collapses
    (fsqrt : Q → Q) (predictions : ndarray) (drivers : list string)
    (stats : dict (dict Q)) (idx : nat) (driver : string) :
  NoDup drivers →
  _summarise_predictions fsqrt predictions drivers = Ok stats →
  drivers !! idx = Some driver →
  ∃ entry p3 p5,
    dict_get stats driver = Some entry ∧
    dict_get entry "top3_probability" = Some p3 ∧
    dict_get entry "top5_probability" = Some p5 ∧
    let distribution := map (fun draw => nth idx draw 0) (rows predictions) in
    (p3 == 1 ↔ Forall (fun v => v <= 3) distribution) ∧
    (p3 == 0 ↔ Forall (fun v => 3 < v) distribution) ∧
    (p5 == 1 ↔ Forall (fun v => v <= 5) distribution) ∧
    (p5 == 0 ↔ Forall (fun v => 5 < v) distribution).
Proof.
  intros Hnd Hrun Hidx.
  destruct (summarise_from_lookup _ _ _ _ _ _ _ _ Hrun Hnd Hidx)
    as (dist & entry & Hcol & Hst & Hget).
  simpl in Hcol. unfold column in Hcol.
  destruct (idx <? ncols predictions)%nat; [|done].
  inversion Hcol as [Hdist]. clear Hcol.
  destruct dist as [|x rest] eqn:Hd; [done|].
  simpl in Hst. inversion Hst as [Hentry]. clear Hst.
  exists entry, (np_le_mean dist 3), (np_le_mean dist 5).
  subst entry dist. rewrite Hdist.
  destruct (fraction_le_degenerate (x :: rest) 3) as [H31 H30]; [done|].
  destruct (fraction_le_degenerate (x :: rest) 5) as [H51 H50]; [done|].
  split_and!; try done. simpl. rewrite !np_le_mean_fraction. done.
Qed.

Lemma threshold_collapse_on_example :
  NoDup example_drivers ∧
  _summarise_predictions approx_sqrt example_predictions example_drivers
    = Ok example_summary ∧
  example_drivers !! 2%nat = Some "SAI" ∧
  ∃ entry p3 p5,
    dict_get example_summary "SAI" = Some entry ∧
    dict_get entry "top3_probability" = Some p3 ∧
    dict_get entry "top5_probability" = Some p5 ∧
    let distribution :=
      map (fun draw => nth 2 draw 0) (rows example_predictions) in
    (p3 == 1 ↔ Forall (fun v => v <= 3) distribution) ∧
    (p3 == 0 ↔ Forall (fun v => 3 < v) distribution) ∧
    (p5 == 1 ↔ Forall (fun v => v <= 5) distribution) ∧
    (p5 == 0 ↔ Forall (fun v => 5 < v) distribution).
Proof.
  assert (NoDup example_drivers) as Hnd
    by (apply (bool_decide_unpack _); vm_compute; reflexivity).
  assert (_summarise_predictions approx_sqrt example_predictions
            example_drivers = Ok example_summary) as Hrun
    by (vm_compute; reflexivity).
  assert (example_drivers !! 2%nat = Some "SAI") as Hidx by reflexivity.
  split_and!; [exact Hnd|exact Hrun|exact Hidx|].
  exact (threshold_probability_collapses approx_sqrt example_predictions
           example_drivers example_summary 2 "SAI" Hnd Hrun Hidx).
Defined.

(** ** The rows of the accumulator *)

Lemma set_row_length predictions i values predictions' :
  set_row predictions i values = Ok predictions' →
  ncols predictions' = ncols predictions ∧
  ∃ row, length row = ncols predictions ∧
         rows predictions' = <[i := row]> (rows predictions).
Proof.
  unfold set_row. intros Hset.
  destruct (length values =? ncols predictions)%nat eqn:Hlen.
  - apply Nat.eqb_eq in Hlen. inversion Hset; subst; simpl. eauto.
  - destruct values as [|x [|y values]]; [done| |done].
    inversion Hset; subst; simpl. split; [done|].
    eexists; split; [|done]. apply repeat_length.
Qed.

Section AccumulatorFacts.
Context {G : Type} `{Generator G}.
Variable self : MonteCarloSimulator.

Lemma draw_loop_row_lengths feature_matrix remaining :
  ∀ sim_index predictions g predictions' g',
    draw_loop self feature_matrix remaining sim_index predictions g
      = (Ok predictions', g') →
    Forall (fun row => length row = ncols predictions) (rows predictions) →
    ncols predictions' = ncols predictions ∧
    Forall (fun row => length row = ncols predictions') (rows predictions').
Proof.
  induction remaining as [|remaining IH];
    intros sim_index predictions g predictions' g' Hrun Hall; simpl in Hrun.
  - by inversion Hrun; subst.
  - unfold mbind, sim_bind, lift in Hrun.
    destruct (_perturb_features self feature_matrix g)
      as [[perturbed|] g1]; [|done].
    destruct (model_predict self perturbed) as [values|]; [|done].
    destruct (set_row predictions sim_index _) as [predictions1|] eqn:Hset;
      [|done].
    destruct (set_row_length _ _ _ _ Hset) as (Hn1 & row & Hrow & Hrows).
    destruct (IH _ _ _ _ _ Hrun) as [Hn2 Hall2].
    + rewrite Hrows, Hn1. by apply Forall_insert.
    + split; [congruence|done].
Qed.

Lemma run_draws_shape features requested g predictions g' :
  run_draws self features requested g = (Ok predictions, g') →
  ncols predictions = df_len features ∧
  Forall (fun row => length row = ncols predictions) (rows predictions).
Proof.
  unfold run_draws, mbind, sim_bind, lift. intros Hrun.
  destruct (select_columns features (feature_columns self))
    as [feature_matrix|] eqn:Hsel; [|done].
  apply select_columns_spec in Hsel as [Hlen _].
  unfold np_zeros_checked in Hrun.
  destruct (effective_n_sims self requested <? 0)%Z; [done|].
  apply draw_loop_row_lengths in Hrun as [Hn Hall].
  - split; [simpl in Hn; congruence|done].
  - simpl. apply Forall_forall. intros row Hrow%list_elem_of_In.
    apply repeat_spec in Hrow as ->. apply repeat_length.
Qed.

Lemma run_column_within features requested g predictions g' idx dist :
  run_draws self features requested g = (Ok predictions, g') →
  column predictions idx = Ok dist →
  within 1 20 dist.
Proof.
  intros Hrun Hcol.
  destruct (run_draws_shape _ _ _ _ _ Hrun) as [_ Hlen].
  destruct (run_draws_within _ _ _ _ _ _ Hrun) as [_ Hw].
  unfold column in Hcol.
  destruct (idx <? ncols predictions)%nat eqn:Hidx; [|done].
  apply Nat.ltb_lt in Hidx. inversion Hcol; subst dist.
  unfold within. apply Forall_map.
  rewrite Forall_forall in Hlen, Hw. apply Forall_forall. intros row Hrow.
  specialize (Hlen row Hrow). specialize (Hw row Hrow).
  eapply within_elem; [exact Hw|]. apply nth_elem_of. lia.
Qed.

End AccumulatorFacts.

(** X7.  Every location statistic that [run] reports (mean, median, min,
    max and the two percentiles) lies in the clipping interval [1, 20], for
    every driver. *)
Theorem run_statistics_within_1_20
    {G : Type} `{Generator G} (self : MonteCarloSimulator) (fsqrt : Q → Q)
    (features : DataFrame) (driver_names : list string)
    (requested : option Z) (g g' : G) (stats : dict (dict Q))
    (driver : string) (entry : dict Q) :
  run self fsqrt features driver_names requested g = (Ok stats, g') →
  dict_get stats driver = Some entry →
  Forall (fun key => ∃ v, dict_get entry key = Some v ∧ 1 <= v ∧ v <= 20)
    ["mean"; "median"; "min"; "max"; "percentile_5"; "percentile_95"].
Proof.
  unfold run, mbind, sim_bind, lift. intros Hrun Hget.
  destruct (run_draws self features requested g)
    as [[predictions|] g1] eqn:Hdraws; [|done].
  inversion Hrun as [[Hsum Hg]]. clear Hrun.
  destruct (summarise_from_entries _ _ _ _ _ _ _ _ Hsum Hget)
    as [Hnil|(k & dist & Hcol & Hst)]; [done|].
  eapply column_stats_within; [exact Hst|].
  by eapply run_column_within.
Qed.

Lemma run_statistics_on_example :
  run example_simulator approx_sqrt example_features example_drivers None
    0%nat = (Ok example_run_stats, 8%nat) ∧
  dict_get example_run_stats "PER" = Some example_run_entry ∧
  Forall (fun key => ∃ v, dict_get example_run_entry key = Some v
                          ∧ 1 <= v ∧ v <= 20)
    ["mean"; "median"; "min"; "max"; "percentile_5"; "percentile_95"].
Proof.
  assert (run example_simulator approx_sqrt example_features example_drivers
            None 0%nat = (Ok example_run_stats, 8%nat)) as Hrun
    by (vm_compute; reflexivity).
  assert (dict_get example_run_stats "PER" = Some example_run_entry) as Hget
    by (vm_compute; reflexivity).
  split_and!; [exact Hrun|exact Hget|].
  exact (run_statistics_within_1_20 example_simulator approx_sqrt
           example_features example_drivers None 0%nat 8%nat
           example_run_stats "PER" example_run_entry Hrun Hget).
Defined.

(** ** Failures of [run] *)

Lemma select_data_missing data cols c :
  c ∈ cols → data !! c = None → select_data data cols = Raise KeyError.
Proof.
  induction cols as [|c0 cols IH]; intros Hc Hnone; [by apply elem_of_nil in Hc|].
  simpl. destruct (data !! c0) as [v|] eqn:Hv; [|done].
  apply elem_of_cons in Hc as [->|Hc]; [congruence|].
  by rewrite IH.
Qed.

(** X8.  When a feature column of the simulator is absent from the frame,
    [run] raises [KeyError] before anything else happens: whatever the
    requested number of draws, and with the generator left as it was. *)
Theorem run_raises_on_a_missing_feature_column
    {G : Type} `{Generator G} (self : MonteCarloSimulator) (fsqrt : Q → Q)
    (features : DataFrame) (driver_names : list string)
    (requested : option Z) (g : G) (c : string) :
  c ∈ feature_columns self →
  df_data features !! c = None →
  run self fsqrt features driver_names requested g = (Raise KeyError, g).
Proof.
  intros Hc Hnone. unfold run, run_draws, mbind, sim_bind, lift, select_columns.
  by rewrite (select_data_missing _ _ c Hc Hnone).
Qed.

Lemma missing_feature_column_on_example :
  "rain_probability" ∈ feature_columns example_simulator ∧
  df_data example_features_incomplete !! "rain_probability" = None ∧
  run example_simulator approx_sqrt example_features_incomplete
    example_drivers (Some (-5)%Z) 0%nat = (Raise KeyError, 0%nat).
Proof.
  assert ("rain_probability" ∈ feature_columns example_simulator) as Hc
    by (right; left).
  assert (df_data example_features_incomplete !! "rain_probability" = None)
    as Hnone by (vm_compute; reflexivity).
  split_and!; [exact Hc|exact Hnone|].
  exact (run_raises_on_a_missing_feature_column example_simulator approx_sqrt
           example_features_incomplete example_drivers (Some (-5)%Z) 0%nat
           "rain_probability" Hc Hnone).
Defined.

Section RunFailures.
Context {G : Type} `{Generator G}.
Variable self : MonteCarloSimulator.

(** If the first [k] draws succeed with rows of the accumulator's width
    and the regressor raises in the next one, the loop stops there with
    that exception. *)
Lemma draw_loop_predictor_error feature_matrix e perturbed gk gk' : ∀ k,
  ∀ remaining sim_index predictions g drawn,
    executed_draws self feature_matrix k g = (Ok drawn, gk) →
    Forall (fun row => length row = ncols predictions) drawn →
    _perturb_features self feature_matrix gk = (Ok perturbed, gk') →
    model_predict self perturbed = Raise e →
    (k < remaining)%nat →
    draw_loop self feature_matrix remaining sim_index predictions g
      = (Raise e, gk').
Proof.
  induction k as [|k IH];
    intros remaining sim_index predictions g drawn Hdrawn Hrows Hp He Hk;
    (destruct remaining as [|remaining]; [lia|]); simpl in Hdrawn |- *.
  - injection Hdrawn as _ <-.
    unfold mbind, sim_bind, lift. by rewrite Hp, He.
  - unfold mbind, sim_bind, lift, mret, sim_ret in Hdrawn |- *.
    destruct (_perturb_features self feature_matrix g)
      as [[perturbed0|] g1]; [|done].
    destruct (model_predict self perturbed0) as [values|]; [|done].
    destruct (executed_draws self feature_matrix k g1)
      as [[rest|] g2] eqn:Hrest; [|done].
    injection Hdrawn as <- <-.
    apply Forall_cons in Hrows as [Hvalues Hrows].
    rewrite (set_row_exact _ _ _ Hvalues).
    apply (IH remaining (S sim_index) _ g1 rest); try done. lia.
Qed.

End RunFailures.

(** X9.  An error of the regressor is not swallowed, in whichever draw it
    occurs: when the first [k] draws succeed with one value per row, draw
    [k + 1] is among the draws to make and [model.predict] raises in it,
    [run] raises the same exception, with the generator as the
    perturbation of that draw left it, and returns no statistics. *)
Theorem run_surfaces_the_predictor_error
    {G : Type} `{Generator G} (self : MonteCarloSimulator) (fsqrt : Q → Q)
    (features feature_matrix perturbed : DataFrame)
    (driver_names : list string) (requested : option Z) (k : nat)
    (drawn : list (list Q)) (g gk gk' : G) (e : exception) :
  select_columns features (feature_columns self) = Ok feature_matrix →
  (Z.of_nat k < effective_n_sims self requested)%Z →
  executed_draws self feature_matrix k g = (Ok drawn, gk) →
  Forall (fun row => length row = df_len features) drawn →
  _perturb_features self feature_matrix gk = (Ok perturbed, gk') →
  model_predict self perturbed = Raise e →
  run self fsqrt features driver_names requested g = (Raise e, gk').
Proof.
  intros Hsel Hk Hdrawn Hrows Hp He.
  pose proof (select_columns_spec _ _ _ Hsel) as [Hlen _].
  unfold run, run_draws, mbind, sim_bind, lift. rewrite Hsel.
  unfold np_zeros_checked.
  assert ((effective_n_sims self requested <? 0)%Z = false) as ->
    by (apply Z.ltb_ge; lia).
  rewrite (draw_loop_predictor_error self feature_matrix e perturbed gk gk' k
             _ 0%nat _ g drawn Hdrawn); try done.
  - cbn [ncols np_zeros]. by rewrite Hlen.
  - lia.
Qed.

Lemma predictor_error_on_example :
  select_columns example_features (feature_columns late_failing_simulator)
    = Ok example_grid_matrix ∧
  (Z.of_nat 1 < effective_n_sims late_failing_simulator None)%Z ∧
  executed_draws late_failing_simulator example_grid_matrix 1 (mk_ramp 0)
    = (Ok [[10; 10; 10]], mk_ramp 1) ∧
  _perturb_features late_failing_simulator example_grid_matrix (mk_ramp 1)
    = (Ok example_grid_second_draw, mk_ramp 2) ∧
  model_predict late_failing_simulator example_grid_second_draw
    = Raise ValueError ∧
  run late_failing_simulator approx_sqrt example_features example_drivers
    None (mk_ramp 0) = (Raise ValueError, mk_ramp 2).
Proof.
  assert (select_columns example_features
            (feature_columns late_failing_simulator)
          = Ok example_grid_matrix) as Hsel by (vm_compute; reflexivity).
  assert (Z.of_nat 1 < effective_n_sims late_failing_simulator None)%Z
    as Hk by (vm_compute; reflexivity).
  assert (executed_draws late_failing_simulator example_grid_matrix 1
            (mk_ramp 0) = (Ok [[10; 10; 10]], mk_ramp 1)) as Hdrawn
    by (vm_compute; reflexivity).
  assert (Forall (fun row : list Q => length row = df_len example_features)
            [[10; 10; 10]]) as Hrows by (repeat constructor).
  assert (_perturb_features late_failing_simulator example_grid_matrix
            (mk_ramp 1) = (Ok example_grid_second_draw, mk_ramp 2)) as Hp
    by (vm_compute; reflexivity).
  assert (model_predict late_failing_simulator example_grid_second_draw
          = Raise ValueError) as He by (vm_compute; reflexivity).
  split_and!; [exact Hsel|exact Hk|exact Hdrawn|exact Hp|exact He|].
  exact (run_surfaces_the_predictor_error late_failing_simulator approx_sqrt
           example_features example_grid_matrix example_grid_second_draw
           example_drivers None 1 [[10; 10; 10]] (mk_ramp 0) (mk_ramp 1)
           (mk_ramp 2) ValueError Hsel Hk Hdrawn Hrows Hp He).
Defined.

(** X10.  [run] does not compare the roster with the frame.  When it
    returns statistics for a non-empty roster, at least one draw was made
    and there are at most as many driver names as rows; rows beyond the
    roster are simulated and then ignored, and for distinct names the
    statistics have one entry per name, in roster order. *)
Theorem run_result_shape
    {G : Type} `{Generator G} (self : MonteCarloSimulator) (fsqrt : Q → Q)
    (features : DataFrame) (driver_names : list string)
    (requested : option Z) (g g' : G) (stats : dict (dict Q)) :
  run self fsqrt features driver_names requested g = (Ok stats, g') →
  driver_names ≠ [] →
  (1 ≤ effective_n_sims self requested)%Z ∧
  (length driver_names ≤ df_len features)%nat ∧
  (NoDup driver_names → dict_keys stats = driver_names).
Proof.
  unfold run, mbind, sim_bind, lift. intros Hrun Hne.
  destruct (run_draws self features requested g)
    as [[predictions|] g1] eqn:Hdraws; [|done].
  inversion Hrun as [[Hsum Hg]]. clear Hrun.
  destruct (run_draws_shape _ _ _ _ _ _ Hdraws) as [Hncols _].
  destruct (run_draws_within _ _ _ _ _ _ Hdraws) as [Hrows _].
  destruct driver_names as [|d ds]; [done|].
  unfold _summarise_predictions in Hsum.
  destruct (rows predictions) as [|r rs] eqn:Hr.
  { by rewrite summarise_from_no_draws in Hsum. }
  split_and!.
  - simpl in Hrows. lia.
  - destruct (decide (length (d :: ds) ≤ df_len features)%nat); [done|].
    rewrite summarise_from_too_many in Hsum; [done|by rewrite Hr|lia|lia].
  - intros Hnd. by apply summarise_from_keys in Hsum.
Qed.

Lemma result_shape_on_example :
  run example_simulator approx_sqrt example_features ["VER"; "PER"] None
    0%nat = (Ok (take 2 example_run_stats), 8%nat) ∧
  ["VER"; "PER"] ≠ [] ∧
  (1 ≤ effective_n_sims example_simulator None)%Z ∧
  (length ["VER"; "PER"] ≤ df_len example_features)%nat ∧
  (NoDup ["VER"; "PER"] → dict_keys (take 2 example_run_stats) = ["VER"; "PER"]).
Proof.
  assert (run example_simulator approx_sqrt example_features ["VER"; "PER"]
            None 0%nat = (Ok (take 2 example_run_stats), 8%nat)) as Hrun
    by (vm_compute; reflexivity).
  assert (["VER"; "PER"] ≠ []) as Hne by discriminate.
  split_and!; [exact Hrun|exact Hne|..];
    apply (run_result_shape example_simulator approx_sqrt example_features
             ["VER"; "PER"] None 0%nat 8%nat (take 2 example_run_stats)
             Hrun Hne).
Defined.

(** ** Clipping keeps the order *)

Lemma clip_value_mono lo hi x y :
  lo <= hi → x <= y → clip_value lo hi x <= clip_value lo hi y.
Proof.
  intros Hlh Hxy. unfold clip_value.
  destruct (decide (x <= lo)), (decide (y <= lo)),
    (decide (hi <= x)), (decide (hi <= y)); lra.
Qed.

Lemma clip_value_fixed lo hi x :
  lo <= x → x <= hi → clip_value lo hi x == x.
Proof.
  intros Hlo Hhi. unfold clip_value.
  destruct (decide (x <= lo)), (decide (hi <= x)); lra.
Qed.

(** X11.  Clipping a draw never reverses the order of two drivers: if one
    prediction is at most another before [np.clip], it still is afterwards;
    and a prediction already in [1, 20] keeps its value. *)
Theorem clipping_keeps_the_order_of_a_draw
    (values : list Q) (i j : nat) (x y : Q) :
  values !! i = Some x → values !! j = Some y → x <= y →
  ∃ x' y',
    np_clip values 1 20 !! i = Some x' ∧ np_clip values 1 20 !! j = Some y' ∧
    x' <= y' ∧ (1 <= x → x <= 20 → x' == x).
Proof.
  intros Hi Hj Hxy. exists (clip_value 1 20 x), (clip_value 1 20 y).
  unfold np_clip. change (map ?f ?l) with (f <$> l).
  rewrite !list_lookup_fmap, Hi, Hj. split_and!; [done..| |].
  - apply clip_value_mono; [lra|done].
  - apply clip_value_fixed.
Qed.

Lemma clipping_order_on_example :
  [0.4; 25; 7] !! 2%nat = Some 7 ∧ [0.4; 25; 7] !! 1%nat = Some 25 ∧ 7 <= 25 ∧
  ∃ x' y',
    np_clip [0.4; 25; 7] 1 20 !! 2%nat = Some x' ∧
    np_clip [0.4; 25; 7] 1 20 !! 1%nat = Some y' ∧
    x' <= y' ∧ (1 <= 7 → 7 <= 20 → x' == 7).
Proof.
  split_and!; [reflexivity|reflexivity|lra|].
  apply (clipping_keeps_the_order_of_a_draw [0.4; 25; 7] 2 1 7 25);
    [reflexivity|reflexivity|lra].
Defined.

(** ** More on the perturbation *)

Lemma filter_none_marked (P : string → bool) (cols : list string) :
  Forall (fun c => P c = false) cols →
  filter (fun col => P col = true) cols = [].
Proof.
  induction 1 as [|c cols Hc _ IH]; [done|].
  rewrite filter_cons. destruct (decide (P c = true)); [congruence|done].
Qed.

Lemma scale_by_length noise v :
  length noise = length v → length (scale_by noise v) = length v.
Proof. intros Hn. unfold scale_by. rewrite length_zip_with. lia. Qed.

Lemma shift_by_length delta v :
  length delta = length v → length (shift_by delta v) = length v.
Proof. intros Hn. unfold shift_by. rewrite length_zip_with. lia. Qed.

Lemma map_column_well_formed f frame c frame' :
  (∀ v, length v = df_len frame → length (f v) = df_len frame) →
  well_formed frame →
  map_column f frame c = Ok frame' →
  well_formed frame' ∧ df_len frame' = df_len frame.
Proof.
  intros Hf Hwf. unfold map_column, get_column.
  destruct (df_data frame !! c) as [v|] eqn:Hc; [|done].
  cbn [mbind result_bind]. intros [= <-]. split; [|done].
  intros c' v'. cbn [df_data df_len].
  destruct (decide (c = c')) as [<-|Hne].
  - rewrite lookup_insert_eq. intros [= <-]. apply Hf. by eapply Hwf.
  - rewrite lookup_insert_ne by done. apply Hwf.
Qed.

Lemma map_columns_well_formed f cols : ∀ frame frame',
  (∀ v, length v = df_len frame → length (f v) = df_len frame) →
  well_formed frame →
  map_columns f frame cols = Ok frame' →
  well_formed frame' ∧ df_len frame' = df_len frame.
Proof.
  induction cols as [|c cols IH]; intros frame frame' Hf Hwf Hrun;
    simpl in Hrun.
  - by injection Hrun as <-.
  - destruct (map_column f frame c) as [frame1|] eqn:H1; [|done].
    simpl in Hrun.
    destruct (map_column_well_formed _ _ _ _ Hf Hwf H1) as [Hwf1 Hlen1].
    destruct (IH frame1 frame') as [Hwf' Hlen']; try done.
    + intros v Hv. rewrite Hlen1 in Hv |- *. by apply Hf.
    + split; [done|congruence].
Qed.

Section ShapeFacts.
Context {G : Type} `{Generator G}.
Variable self : MonteCarloSimulator.
Hypothesis Hsized : sized_generator G.

Lemma perturb_form_well_formed frame g frame' g' :
  well_formed frame →
  perturb_form self frame g = (Ok frame', g') →
  well_formed frame' ∧ df_len frame' = df_len frame.
Proof.
  intros Hwf. unfold perturb_form.
  destruct (form_cols self) as [|c cols]; [by intros [= <- <-]|].
  unfold mbind, sim_bind, lift.
  destruct (normal _ _ _ g) as [[noise|] g1] eqn:Hnoise; [|done].
  apply normal_inv in Hnoise as [_ Hnoise]. intros [= Hrun <-].
  apply (map_columns_well_formed (scale_by noise) (c :: cols) frame);
    try done.
  intros v Hv. rewrite <- Hv. apply scale_by_length.
  destruct Hsized as [Hnormal _].
  specialize (Hnormal g 0 (driver_form_sigma (config self)) (df_len frame)).
  rewrite Hnoise in Hnormal. cbn in Hnormal. congruence.
Qed.

Lemma perturb_weather_well_formed cols : ∀ frame g frame' g',
  well_formed frame →
  perturb_weather self cols frame g = (Ok frame', g') →
  well_formed frame' ∧ df_len frame' = df_len frame.
Proof.
  induction cols as [|c cols IH]; intros frame g frame' g' Hwf Hrun;
    simpl in Hrun.
  - by injection Hrun as <- _.
  - unfold mbind, sim_bind, lift in Hrun.
    destruct (normal _ _ _ g) as [[noise|] g1] eqn:Hnoise; [|done].
    apply normal_inv in Hnoise as [_ Hnoise].
    destruct (map_column _ frame c) as [frame1|] eqn:H1; [|done].
    assert (∀ v, length v = df_len frame →
                 length (scale_by noise v) = df_len frame) as Hf.
    { intros v Hv. rewrite <- Hv. apply scale_by_length.
      destruct Hsized as [Hnormal _].
      specialize (Hnormal g 0 (weather_sigma (config self)) (df_len frame)).
      rewrite Hnoise in Hnormal. cbn in Hnormal. congruence. }
    destruct (map_column_well_formed _ _ _ _ Hf Hwf H1) as [Hwf1 Hlen1].
    destruct (IH _ _ _ _ Hwf1 Hrun) as [Hwf' Hlen']. split; [done|congruence].
Qed.

Lemma perturb_strategy_well_formed cols : ∀ frame g frame' g',
  well_formed frame →
  perturb_strategy self cols frame g = (Ok frame', g') →
  well_formed frame' ∧ df_len frame' = df_len frame.
Proof.
  induction cols as [|c cols IH]; intros frame g frame' g' Hwf Hrun;
    simpl in Hrun.
  - by injection Hrun as <- _.
  - destruct (rng_integers g (-1) 2 (df_len frame)) as [steps g1] eqn:Hsteps.
    unfold mbind, sim_bind, lift in Hrun.
    destruct (map_column _ frame c) as [frame1|] eqn:H1; [|done].
    assert (∀ v, length v = df_len frame →
                 length (shift_by
                           (map (fun k =>
                                   inject_Z k * strategy_delta (config self))
                                steps) v) = df_len frame) as Hf.
    { intros v Hv. rewrite <- Hv. apply shift_by_length.
      destruct Hsized as [_ Hintegers].
      specialize (Hintegers g (-1)%Z 2%Z (df_len frame)).
      rewrite Hsteps in Hintegers. cbn in Hintegers.
      rewrite length_map. congruence. }
    destruct (map_column_well_formed _ _ _ _ Hf Hwf H1) as [Hwf1 Hlen1].
    destruct (IH _ _ _ _ Hwf1 Hrun) as [Hwf' Hlen']. split; [done|congruence].
Qed.

Lemma perturb_features_well_formed frame g frame' g' :
  well_formed frame →
  _perturb_features self frame g = (Ok frame', g') →
  well_formed frame' ∧ df_len frame' = df_len frame.
Proof.
  intros Hwf. unfold _perturb_features, mbind, sim_bind. intros Hrun.
  destruct (perturb_form self frame g) as [[frame1|] g1] eqn:H1; [|done].
  destruct (perturb_weather self _ frame1 g1) as [[frame2|] g2] eqn:H2;
    [|done].
  apply perturb_form_well_formed in H1 as [Hwf1 Hlen1]; [|done].
  apply perturb_weather_well_formed in H2 as [Hwf2 Hlen2]; [|done].
  apply perturb_strategy_well_formed in Hrun as [Hwf3 Hlen3]; [|done].
  split; [done|congruence].
Qed.

End ShapeFacts.

Lemma stub_generator_sized : sized_generator nat.
Proof. split; intros; cbn; apply repeat_length. Qed.

(** X12.  With a generator that returns as many samples as it is asked
    for, non-negative noise scales and a frame whose columns all have the
    frame's number of rows and which holds every feature column, the
    perturbation does not raise, and it returns a frame with the same set
    of columns, each column with as many rows as it had: it neither adds
    nor drops a column or a row. *)
Theorem perturbation_preserves_the_shape
    {G : Type} `{Generator G} (self : MonteCarloSimulator)
    (frame : DataFrame) (g : G) :
  sized_generator G →
  well_formed frame →
  0 <= driver_form_sigma (config self) →
  0 <= weather_sigma (config self) →
  Forall (fun c => is_Some (df_data frame !! c)) (feature_columns self) →
  ∃ frame' g',
    _perturb_features self frame g = (Ok frame', g') ∧
    dom (df_data frame') = dom (df_data frame) ∧
    (∀ c v v', df_data frame !! c = Some v → df_data frame' !! c = Some v' →
               length v' = length v).
Proof.
  intros Hsized Hwf Hform Hweather Hcols.
  destruct (perturb_features_ok self frame g Hform Hweather)
    as (frame' & g' & Hrun).
  { intros c Hc. rewrite Forall_forall in Hcols. by apply Hcols. }
  exists frame', g'. split; [done|].
  destruct (perturb_features_well_formed self Hsized _ _ _ _ Hwf Hrun)
    as [Hwf' Hlen'].
  apply perturb_features_spec in Hrun as [[Hlen Hsome] _].
  split; [|intros c v v' Hv Hv'].
  - apply set_eq. intros c. by rewrite !elem_of_dom.
  - rewrite (Hwf' _ _ Hv'), (Hwf _ _ Hv). done.
Qed.

Lemma example_features_well_formed : well_formed example_features.
Proof.
  assert (map_Forall (fun _ v => length v = 3%nat)
            (df_data example_features)) as Hall.
  { apply map_Forall_to_list. vm_compute. repeat constructor. }
  intros c v Hv. exact (Hall c v Hv).
Qed.

Lemma shape_preserved_on_example :
  ∃ frame' g',
    _perturb_features example_simulator example_features 0%nat
      = (Ok frame', g') ∧
    dom (df_data frame') = dom (df_data example_features) ∧
    (∀ c v v', df_data example_features !! c = Some v →
               df_data frame' !! c = Some v' → length v' = length v).
Proof.
  apply (perturbation_preserves_the_shape example_simulator example_features
           0%nat).
  - exact stub_generator_sized.
  - exact example_features_well_formed.
  - discriminate.
  - discriminate.
  - vm_compute. repeat constructor; eexists; reflexivity.
Defined.

(** X13.  When no feature column carries a perturbation marker, the
    perturbation returns the frame as it is and draws nothing from the
    generator. *)
Theorem perturbation_without_marked_columns
    {G : Type} `{Generator G} (self : MonteCarloSimulator)
    (frame : DataFrame) (g : G) :
  Forall (fun c => perturbed_col c = false) (feature_columns self) →
  _perturb_features self frame g = (Ok frame, g).
Proof.
  intros Hall.
  assert (form_cols self = []) as Hf.
  { apply filter_none_marked. eapply Forall_impl; [exact Hall|].
    by intros c (? & ? & ?)%perturbed_col_false. }
  assert (weather_cols self = []) as Hw.
  { apply filter_none_marked. eapply Forall_impl; [exact Hall|].
    by intros c (? & ? & ?)%perturbed_col_false. }
  assert (strategy_cols self = []) as Hs.
  { apply filter_none_marked. eapply Forall_impl; [exact Hall|].
    by intros c (? & ? & ?)%perturbed_col_false. }
  unfold _perturb_features, perturb_form, mbind, sim_bind.
  rewrite Hf, Hw, Hs. reflexivity.
Qed.

Lemma no_marked_columns_on_example :
  Forall (fun c => perturbed_col c = false)
    (feature_columns unmarked_simulator) ∧
  _perturb_features unmarked_simulator example_features 0%nat
    = (Ok example_features, 0%nat).
Proof.
  assert (Forall (fun c => perturbed_col c = false)
            (feature_columns unmarked_simulator)) as Hall
    by (repeat constructor).
  split; [exact Hall|].
  exact (perturbation_without_marked_columns unmarked_simulator
           example_features 0%nat Hall).
Defined.

Lemma map_columns_in f cols : ∀ frame frame' c v,
  NoDup cols → c ∈ cols →
  map_columns f frame cols = Ok frame' →
  df_data frame !! c = Some v →
  df_data frame' !! c = Some (f v).
Proof.
  induction cols as [|c0 cols IH]; intros frame frame' c v Hnd Hc Hrun Hv.
  - by apply elem_of_nil in Hc.
  - simpl in Hrun.
    destruct (map_column f frame c0) as [frame1|] eqn:H1; [|done].
    simpl in Hrun. apply NoDup_cons in Hnd as [Hc0 Hnd].
    pose proof H1 as H1'. unfold map_column, get_column in H1'.
    apply elem_of_cons in Hc as [->|Hc].
    + rewrite Hv in H1'. simpl in H1'. inversion H1'; subst frame1.
      apply map_columns_spec in Hrun as [_ Hout].
      rewrite Hout by done. simpl. by rewrite lookup_insert_eq.
    + eapply IH; [done|done|exact Hrun|].
      apply map_column_spec in H1 as [_ Hout]. rewrite Hout; [done|].
      intros ->%list_elem_of_singleton. done.
Qed.

(** X14.  The form columns share one noise draw: with distinct feature
    columns, every form column that is neither a weather nor a strategy
    column is multiplied, row by row, by one plus the same noise vector,
    the first normal sample drawn from the generator. *)
Theorem form_columns_share_one_noise_draw
    {G : Type} `{Generator G} (self : MonteCarloSimulator)
    (frame frame' : DataFrame) (g g' : G) (c : string) (v : list Q) :
  NoDup (feature_columns self) →
  _perturb_features self frame g = (Ok frame', g') →
  c ∈ feature_columns self →
  is_form_col c = true →
  is_weather_col c = false → is_strategy_col c = false →
  df_data frame !! c = Some v →
  df_data frame' !! c
  = Some (scale_by
            (rng_normal g 0 (driver_form_sigma (config self)) (df_len frame)).1
            v).
Proof.
  intros Hnd Hrun Hc Hform Hw Hs Hv.
  unfold _perturb_features, mbind, sim_bind in Hrun.
  destruct (perturb_form self frame g) as [[frame1|] g1] eqn:H1; [|done].
  destruct (perturb_weather self _ frame1 g1) as [[frame2|] g2] eqn:H2; [|done].
  apply perturb_weather_spec in H2 as [_ Ho2].
  apply perturb_strategy_spec in Hrun as [_ Ho3].
  rewrite Ho3 by (by apply not_in_filter_false).
  rewrite Ho2 by (by apply not_in_filter_false).
  assert (c ∈ form_cols self) as Hin by (by apply list_elem_of_filter).
  unfold perturb_form in H1.
  destruct (form_cols self) as [|c0 cols] eqn:Hcols; [by apply elem_of_nil in Hin|].
  unfold mbind, sim_bind, lift in H1.
  destruct (normal _ _ _ g) as [[noise|] g0] eqn:Hnoise; [|done].
  apply normal_inv in Hnoise as [_ Hnoise]. rewrite Hnoise. cbn [fst].
  injection H1 as Hmap Hg.
  eapply map_columns_in; [|exact Hin|exact Hmap|exact Hv].
  rewrite <- Hcols. by apply NoDup_filter.
Qed.

Lemma shared_noise_on_example :
  _perturb_features form_simulator form_features 0%nat
    = (Ok form_perturbed, 1%nat) ∧
  df_data form_perturbed !! "avg_pos_last5"
    = Some [4 * (1 + (0 + 0.05)); 8 * (1 + (0 + 0.05))] ∧
  df_data form_perturbed !! "grid_position"
    = Some [2 * (1 + (0 + 0.05)); 10 * (1 + (0 + 0.05))].
Proof.
  assert (NoDup (feature_columns form_simulator)) as Hnd
    by (apply (bool_decide_unpack _); vm_compute; reflexivity).
  assert (_perturb_features form_simulator form_features 0%nat
            = (Ok form_perturbed, 1%nat)) as Hrun
    by (vm_compute; reflexivity).
  split_and!; [exact Hrun| |].
  - apply (form_columns_share_one_noise_draw form_simulator form_features
             form_perturbed 0%nat 1%nat "avg_pos_last5" [4; 8] Hnd Hrun);
      [by left|reflexivity..|vm_compute; reflexivity].
  - apply (form_columns_share_one_noise_draw form_simulator form_features
             form_perturbed 0%nat 1%nat "grid_position" [2; 10] Hnd Hrun);
      [by right; left|reflexivity..|vm_compute; reflexivity].
Defined.

(** ** More on imputation *)

Lemma fillna_length fill (col : raw_column) : length (fillna fill col) = length col.
Proof. destruct fill; simpl; [apply length_map|done]. Qed.

Lemma fillna_all_present m (col : raw_column) :
  Forall is_Some (fillna (Some m) col).
Proof.
  simpl. apply Forall_map, Forall_true. by intros [v|]; eexists.
Qed.

Lemma column_mean_present (col : raw_column) :
  present col ≠ [] → column_mean col = Some (np_mean (present col)).
Proof. unfold column_mean. by destruct (present col). Qed.

Lemma column_mean_absent (col : raw_column) :
  present col = [] → column_mean col = None.
Proof. unfold column_mean. by intros ->. Qed.

(** X15.  Imputation touches missing cells only: a filled column has the
    length of the original, every present value is kept, no missing value
    remains when the column has at least one present value, and a column
    without any present value is left as it is. *)
Theorem imputation_fills_only_missing_cells
    (features : gmap string raw_column) (cols : list string)
    (X : gmap string raw_column) (c : string) (col : raw_column) :
  impute features cols = Ok X →
  c ∈ cols →
  features !! c = Some col →
  ∃ filled,
    X !! c = Some filled ∧
    length filled = length col ∧
    (∀ i v, col !! i = Some (Some v) → filled !! i = Some (Some v)) ∧
    (present col ≠ [] → Forall is_Some filled) ∧
    (present col = [] → filled = col).
Proof.
  intros Himp Hc Hcol.
  destruct (impute_spec _ _ _ _ Himp Hc) as (col' & Hcol' & HX).
  rewrite Hcol in Hcol'. inversion Hcol'; subst col'.
  eexists. split; [exact HX|]. split_and!.
  - apply fillna_length.
  - intros i v Hi. by apply fillna_lookup_present.
  - intros Hp. rewrite (column_mean_present _ Hp). apply fillna_all_present.
  - intros Hp. by rewrite (column_mean_absent _ Hp).
Qed.

Lemma fills_only_missing_on_example :
  impute example_table ["grid_position"] = Ok example_imputed ∧
  "grid_position" ∈ ["grid_position"] ∧
  example_table !! "grid_position"
    = Some [None; Some 1; Some 2; Some 4; Some 8; Some 16] ∧
  ∃ filled,
    example_imputed !! "grid_position" = Some filled ∧
    length filled = length [None; Some 1; Some 2; Some 4; Some 8; Some 16] ∧
    (∀ i v, [None; Some 1; Some 2; Some 4; Some 8; Some 16] !! i
              = Some (Some v) → filled !! i = Some (Some v)) ∧
    (present [None; Some 1; Some 2; Some 4; Some 8; Some 16] ≠ [] →
     Forall is_Some filled) ∧
    (present [None; Some 1; Some 2; Some 4; Some 8; Some 16] = [] →
     filled = [None; Some 1; Some 2; Some 4; Some 8; Some 16]).
Proof.
  assert (impute example_table ["grid_position"] = Ok example_imputed)
    as Himp by (vm_compute; reflexivity).
  assert ("grid_position" ∈ ["grid_position"]) as Hc by left.
  assert (example_table !! "grid_position"
            = Some [None; Some 1; Some 2; Some 4; Some 8; Some 16]) as Hcol
    by (vm_compute; reflexivity).
  split_and!; [exact Himp|exact Hc|exact Hcol|].
  exact (imputation_fills_only_missing_cells example_table ["grid_position"]
           example_imputed "grid_position" _ Himp Hc Hcol).
Defined.

Lemma fillna_fixed fill (col : raw_column) :
  Forall is_Some col → fillna fill col = col.
Proof.
  intros Hall. destruct fill as [m|]; simpl; [|done].
  induction Hall as [|cell col [v ->] _ IH]; simpl; [done|]. by f_equal.
Qed.

Lemma impute_keys features cols X c :
  impute features cols = Ok X → c ∉ cols → X !! c = None.
Proof.
  revert X. induction cols as [|c0 cols IH]; intros X Himp Hc; simpl in Himp.
  - by inversion Himp.
  - destruct (features !! c0); [|done].
    destruct (impute features cols) as [rest|] eqn:Hrest; [|done].
    simpl in Himp. inversion Himp; subst.
    apply not_elem_of_cons in Hc as [Hne Hc].
    rewrite lookup_insert_ne by done. by apply IH.
Qed.

Lemma impute_ok (features : gmap string raw_column) cols :
  Forall (fun c => is_Some (features !! c)) cols →
  ∃ X, impute features cols = Ok X.
Proof.
  induction 1 as [|c cols [col Hcol] _ [rest IH]]; simpl; [eauto|].
  rewrite Hcol, IH. simpl. eauto.
Qed.

Lemma impute_missing features cols c :
  c ∈ cols → features !! c = None → impute features cols = Raise KeyError.
Proof.
  induction cols as [|c0 cols IH]; intros Hc Hnone; [by apply elem_of_nil in Hc|].
  simpl. destruct (features !! c0) as [v|] eqn:Hv; [|done].
  apply elem_of_cons in Hc as [->|Hc]; [congruence|].
  by rewrite IH.
Qed.

(** X17.  Imputation is idempotent: imputing an imputed table again, for
    the same columns, returns it unchanged. *)
Theorem imputation_is_idempotent
    (features : gmap string raw_column) (cols : list string)
    (X : gmap string raw_column) :
  impute features cols = Ok X →
  impute X cols = Ok X.
Proof.
  intros Himp.
  destruct (impute_ok X cols) as [X' HX'].
  { apply Forall_forall. intros c Hc.
    destruct (impute_spec _ _ _ _ Himp Hc) as (col & _ & ->). eauto. }
  rewrite HX'. f_equal. apply map_eq. intros c.
  destruct (decide (c ∈ cols)) as [Hc|Hc].
  - destruct (impute_spec _ _ _ _ Himp Hc) as (col & Hcol & HX).
    destruct (impute_spec _ _ _ _ HX' Hc) as (col' & Hcol' & HX2).
    rewrite HX in Hcol'. inversion Hcol'; subst col'. rewrite HX2, HX. f_equal.
    destruct (present col) as [|x l] eqn:Hp.
    + rewrite (column_mean_absent col Hp). simpl.
      by rewrite (column_mean_absent col Hp).
    + assert (present col ≠ []) as Hne by (by rewrite Hp).
      rewrite (column_mean_present col Hne). apply fillna_fixed.
      apply fillna_all_present.
  - by rewrite (impute_keys _ _ _ _ HX' Hc), (impute_keys _ _ _ _ Himp Hc).
Qed.

Lemma idempotent_on_example :
  impute example_table_two ["grid_position"; "wind_speed"]
    = Ok (match impute example_table_two ["grid_position"; "wind_speed"] with
          | Ok X => X | Raise _ => ∅ end) ∧
  impute (match impute example_table_two ["grid_position"; "wind_speed"] with
          | Ok X => X | Raise _ => ∅ end) ["grid_position"; "wind_speed"]
    = Ok (match impute example_table_two ["grid_position"; "wind_speed"] with
          | Ok X => X | Raise _ => ∅ end).
Proof.
  assert (impute example_table_two ["grid_position"; "wind_speed"]
    = Ok (match impute example_table_two ["grid_position"; "wind_speed"] with
          | Ok X => X | Raise _ => ∅ end)) as Himp
    by (vm_compute; reflexivity).
  split; [exact Himp|].
  exact (imputation_is_idempotent example_table_two
           ["grid_position"; "wind_speed"] _ Himp).
Defined.

(** X18.  [train_model] raises [KeyError] when a listed feature column is
    absent from the table, from its first statement: before the split and
    before the regressor is fitted. *)
Theorem train_model_raises_on_a_missing_column
    (train_test_split : nat → list nat * list nat) (Model : Type)
    (fit : gmap string raw_column → raw_column → Model)
    (n_rows : nat) (features : gmap string raw_column) (target : raw_column)
    (feature_columns : list string) (c : string) :
  c ∈ feature_columns →
  features !! c = None →
  train_model train_test_split Model fit n_rows features target
    feature_columns = Raise KeyError.
Proof.
  intros Hc Hnone. unfold train_model.
  by rewrite (impute_missing _ _ c Hc Hnone).
Qed.

Lemma train_model_missing_column_on_example :
  "wind_speed" ∈ ["grid_position"; "wind_speed"] ∧
  example_table !! "wind_speed" = None ∧
  train_model example_split _ pair 6 example_table example_target
    ["grid_position"; "wind_speed"] = Raise KeyError.
Proof.
  assert ("wind_speed" ∈ ["grid_position"; "wind_speed"]) as Hc
    by (right; left).
  assert (example_table !! "wind_speed" = None) as Hnone
    by (vm_compute; reflexivity).
  split_and!; [exact Hc|exact Hnone|].
  exact (train_model_raises_on_a_missing_column example_split _ pair 6
           example_table example_target ["grid_position"; "wind_speed"]
           "wind_speed" Hc Hnone).
Defined.

(** ** The team reader of the dashboard *)

Lemma add_driver_pooled current future teamStats driverName :
  teamStats = [] ∨ (∃ st, teamStats = [("Unknown Team", st)]) →
  add_driver current future teamStats driverName =
    [("Unknown Team",
      mk_team_stats
        (ts_baseline (pooled teamStats) ++ [mean_of current driverName])
        (ts_predicted (pooled teamStats) ++
           [js_or (mean_of future driverName) (mean_of current driverName)])
        (set_add (ts_drivers (pooled teamStats)) driverName))].
Proof. intros [->|[st ->]]; reflexivity. Qed.

Lemma add_drivers_pooled current future driverNames : ∀ teamStats,
  teamStats = [] ∨ (∃ st, teamStats = [("Unknown Team", st)]) →
  let teamStats' :=
    fold_left (add_driver current future) driverNames teamStats in
  (teamStats' = [] ∧ teamStats = [] ∧ driverNames = []
   ∨ (∃ st, teamStats' = [("Unknown Team", st)])) ∧
  ts_baseline (pooled teamStats') =
    ts_baseline (pooled teamStats) ++ map (mean_of current) driverNames ∧
  ts_predicted (pooled teamStats') =
    ts_predicted (pooled teamStats) ++
      map (fun d => js_or (mean_of future d) (mean_of current d)) driverNames ∧
  ts_drivers (pooled teamStats') =
    fold_left set_add driverNames (ts_drivers (pooled teamStats)).
Proof.
  induction driverNames as [|d ds IH]; intros teamStats Hwf; cbn [fold_left].
  - cbn zeta. rewrite !app_nil_r. split_and!; try done.
    destruct Hwf as [->|Hst]; [by left|by right].
  - rewrite (add_driver_pooled _ _ _ _ Hwf).
    destruct (IH [("Unknown Team",
                   mk_team_stats
                     (ts_baseline (pooled teamStats) ++ [mean_of current d])
                     (ts_predicted (pooled teamStats) ++
                        [js_or (mean_of future d) (mean_of current d)])
                     (set_add (ts_drivers (pooled teamStats)) d))])
      as (Hshape & Hb & Hp & Hd); [right; eauto|].
    cbn zeta in *. split_and!.
    + right. destruct Hshape as [(_ & [=] & _)|Hst]. done.
    + rewrite Hb. cbn. by rewrite <- app_assoc.
    + rewrite Hp. cbn. by rewrite <- app_assoc.
    + rewrite Hd. done.
Qed.

Lemma add_races_pooled races : ∀ teamStats,
  teamStats = [] ∨ (∃ st, teamStats = [("Unknown Team", st)]) →
  let teamStats' := fold_left add_race races teamStats in
  let pairs :=
    race ← races;
    (fun driverName => (race, driverName)) <$> dict_keys (race_current race) in
  (teamStats' = [] ∧ teamStats = [] ∧ pairs = []
   ∨ (∃ st, teamStats' = [("Unknown Team", st)])) ∧
  ts_baseline (pooled teamStats') =
    ts_baseline (pooled teamStats) ++
      ((fun p : Race * string => mean_of (race_current p.1) p.2) <$> pairs) ∧
  ts_predicted (pooled teamStats') =
    ts_predicted (pooled teamStats) ++
      ((fun p : Race * string =>
          js_or (mean_of (race_future p.1) p.2)
                (mean_of (race_current p.1) p.2)) <$> pairs) ∧
  ts_drivers (pooled teamStats') =
    fold_left set_add (snd <$> pairs) (ts_drivers (pooled teamStats)).
Proof.
  induction races as [|race races IH]; intros teamStats Hwf; cbn zeta.
  - cbn. rewrite !app_nil_r. split_and!; try done.
    destruct Hwf as [->|Hst]; [by left|by right].
  - cbn [fold_left].
    change (add_race teamStats race)
      with (fold_left (add_driver (race_current race) (race_future race))
              (dict_keys (race_current race)) teamStats).
    destruct (add_drivers_pooled (race_current race) (race_future race)
                (dict_keys (race_current race)) teamStats Hwf)
      as (Hshape & Hb & Hp & Hd).
    cbn zeta in Hshape, Hb, Hp, Hd.
    set (mid := fold_left (add_driver (race_current race) (race_future race))
                  (dict_keys (race_current race)) teamStats) in *.
    assert (mid = [] ∨ (∃ st, mid = [("Unknown Team", st)])) as Hmid.
    { destruct Hshape as [(-> & _)|Hst]; [by left|by right]. }
    destruct (IH mid Hmid) as (Hshape' & Hb' & Hp' & Hd').
    cbn zeta in Hshape', Hb', Hp', Hd'.
    rewrite bind_cons, !fmap_app, <- !list_fmap_compose.
    split_and!.
    + destruct Hshape' as [(H1 & H2 & H3)|Hst]; [|by right].
      left. destruct Hshape as [(_ & -> & Hk)|[st Hst]].
      * rewrite Hk, H3. done.
      * by rewrite Hst in H2.
    + by rewrite Hb', Hb, <- app_assoc.
    + by rewrite Hp', Hp, <- app_assoc.
    + rewrite Hd', Hd, fold_left_app. f_equal.
      by rewrite list_fmap_id.
Qed.

Lemma add_races_no_driver races : ∀ teamStats,
  (race ← races;
   (fun driverName => (race, driverName)) <$> dict_keys (race_current race))
    = [] →
  fold_left add_race races teamStats = teamStats.
Proof.
  induction races as [|race races IH]; intros teamStats Hnil; [done|].
  rewrite bind_cons in Hnil. apply app_eq_nil in Hnil as [Hk Hrest].
  apply fmap_nil_inv in Hk. cbn [fold_left].
  rewrite (IH _ Hrest). unfold add_race. by rewrite Hk.
Qed.

Lemma set_add_elem s x y : y ∈ set_add s x ↔ y ∈ s ∨ y = x.
Proof.
  unfold set_add. case_bool_decide as Hx.
  - split; [by left|]. intros [Hy| ->]; done.
  - rewrite elem_of_app, list_elem_of_singleton. done.
Qed.

Lemma set_add_NoDup s x : NoDup s → NoDup (set_add s x).
Proof.
  intros Hs. unfold set_add. case_bool_decide as Hx; [done|].
  apply NoDup_app. split_and!; [done| |apply NoDup_singleton].
  intros y Hy ->%list_elem_of_singleton. done.
Qed.

Lemma fold_set_add_elem l : ∀ s y,
  y ∈ fold_left set_add l s ↔ y ∈ s ∨ y ∈ l.
Proof.
  induction l as [|x l IH]; intros s y; cbn [fold_left].
  - rewrite elem_of_nil. tauto.
  - rewrite IH, set_add_elem, elem_of_cons. tauto.
Qed.

Lemma fold_set_add_NoDup l : ∀ s, NoDup s → NoDup (fold_left set_add l s).
Proof.
  induction l as [|x l IH]; intros s Hs; cbn [fold_left]; [done|].
  by apply IH, set_add_NoDup.
Qed.

(** The closed form of [extractTeamPerformance]: nothing when no driver is
    listed, and otherwise the one placeholder team with the statistics
    pooled over every visited (event, driver) pair. *)
Lemma team_performance_pooled monteCarloResults :
  (extractTeamPerformance monteCarloResults = [] ∧
   visited monteCarloResults = [])
  ∨ (∃ st,
       extractTeamPerformance monteCarloResults
         = [team_performance ("Unknown Team", st)] ∧
       visited monteCarloResults ≠ [] ∧
       ts_baseline st = baseline_means monteCarloResults ∧
       ts_predicted st = predicted_means monteCarloResults ∧
       ts_drivers st
         = fold_left set_add (snd <$> visited monteCarloResults) []).
Proof.
  unfold extractTeamPerformance, baseline_means, predicted_means, visited.
  cbn zeta.
  destruct (add_races_pooled (map snd monteCarloResults) [])
    as (Hshape & Hb & Hp & Hd); [by left|].
  cbn zeta in Hshape, Hb, Hp, Hd.
  destruct Hshape as [(-> & _ & Hnil)|[st Hst]].
  - left. done.
  - right. exists st. rewrite Hst in Hb, Hp, Hd |- *.
    split_and!; try done.
    intros Hnil. rewrite (add_races_no_driver _ _ Hnil) in Hst. done.
Qed.

Lemma team_driver_names teamName st :
  driver_name <$> drivers (team_performance (teamName, st)) = ts_drivers st.
Proof.
  cbn. rewrite fmap_imap.
  rewrite (imap_ext _ (const (fun x : string => x))) by done.
  by rewrite imap_const, list_fmap_id.
Qed.

Lemma team_driver_numbers teamName st :
  driver_number <$> drivers (team_performance (teamName, st))
    = seq 1 (length (drivers (team_performance (teamName, st)))).
Proof.
  cbn. rewrite fmap_imap, length_imap.
  rewrite (imap_ext _ (fun j _ => S j)) by (intros; cbn; lia).
  by rewrite imap_seq_0, fmap_S_seq.
Qed.

Lemma team_driver_team_ids teamName st :
  Forall (fun d => driver_teamId d = team_id teamName)
    (drivers (team_performance (teamName, st))).
Proof.
  cbn. apply Forall_forall. intros d Hd.
  apply elem_of_lookup_imap_1 in Hd as (i & x & -> & _). done.
Qed.

(** X19.  [extractTeamPerformance] never tells teams apart: it returns no
    team when no event lists a driver under [current], and otherwise
    exactly one team, named [Unknown Team] with the id [unknown-team], to
    which every driver is assigned. *)
Theorem team_reader_returns_one_placeholder_team
    (monteCarloResults : dict Race) :
  (visited monteCarloResults = [] ∧
   extractTeamPerformance monteCarloResults = [])
  ∨ (visited monteCarloResults ≠ [] ∧
     ∃ t, extractTeamPerformance monteCarloResults = [t] ∧
          teamName t = "Unknown Team" ∧
          constructor_ t = "Unknown Team" ∧
          teamId t = "unknown-team" ∧
          Forall (fun d => driver_teamId d = "unknown-team") (drivers t) ∧
          factorImpacts t = []).
Proof.
  destruct (team_performance_pooled monteCarloResults)
    as [(Hnil & Hv)|(st & Hone & Hv & _)]; [by left|right].
  split; [done|]. eexists. split; [exact Hone|].
  split_and!; try reflexivity.
  apply (team_driver_team_ids "Unknown Team" st).
Qed.

(** X20.  The two team averages are pooled over all events: when some event
    lists a driver, [baseline2025] is the average of the [current] means of
    every (event, driver) pair, and [predicted2026] the average of their
    [2026] means, each replaced by the [current] mean where it is missing
    or zero. *)
Theorem team_averages_pool_every_event
    (monteCarloResults : dict Race) :
  visited monteCarloResults ≠ [] →
  ∃ t, extractTeamPerformance monteCarloResults = [t] ∧
       baseline2025 t = average (baseline_means monteCarloResults) ∧
       predicted2026 t = average (predicted_means monteCarloResults).
Proof.
  intros Hv.
  destruct (team_performance_pooled monteCarloResults)
    as [(_ & Hnil)|(st & Hone & _ & Hb & Hp & _)]; [done|].
  eexists. split; [exact Hone|]. cbn. by rewrite Hb, Hp.
Qed.

Lemma team_averages_on_example :
  visited example_season ≠ [] ∧
  ∃ t, extractTeamPerformance example_season = [t] ∧
       baseline2025 t = average (baseline_means example_season) ∧
       predicted2026 t
         = average (predicted_means example_season).
Proof.
  assert (visited example_season ≠ []) as Hv
    by (vm_compute; discriminate).
  split; [exact Hv|].
  exact (team_averages_pool_every_event example_season Hv).
Defined.

(** X21.  Where the [2026] scenario gives no mean for any visited driver
    (the key, the driver or the field is missing), the reader falls back on
    the [current] means: every returned team has [predicted2026] equal to
    [baseline2025]. *)
Theorem team_prediction_falls_back_on_the_baseline
    (monteCarloResults : dict Race) :
  Forall (fun p : Race * string => mean_of (race_future p.1) p.2 = None)
    (visited monteCarloResults) →
  map predicted2026 (extractTeamPerformance monteCarloResults)
    = map baseline2025 (extractTeamPerformance monteCarloResults).
Proof.
  intros Hnone.
  destruct (team_performance_pooled monteCarloResults)
    as [(-> & _)|(st & -> & _ & Hb & Hp & _)]; [done|].
  cbn. rewrite Hb, Hp. unfold predicted_means, baseline_means.
  do 2 f_equal. apply Forall_fmap_ext_1.
  eapply Forall_impl; [exact Hnone|]. intros p Hp'. cbn in Hp'.
  by rewrite Hp'.
Qed.

Lemma team_fallback_on_example :
  Forall (fun p : Race * string => mean_of (race_future p.1) p.2 = None)
    (visited (example_artifact "future")) ∧
  map predicted2026 (extractTeamPerformance (example_artifact "future"))
    = map baseline2025 (extractTeamPerformance (example_artifact "future")).
Proof.
  assert (Forall (fun p : Race * string =>
                    mean_of (race_future p.1) p.2 = None)
            (visited (example_artifact "future"))) as Hnone
    by (repeat constructor).
  split; [exact Hnone|].
  exact (team_prediction_falls_back_on_the_baseline
           (example_artifact "future") Hnone).
Defined.

(** X22.  The drivers of the returned team are the distinct driver names
    found under [current] in any event, each listed once however many
    events name it, and they are numbered 1, 2, ... in the order of the
    list. *)
Theorem team_drivers_are_distinct_and_numbered
    (monteCarloResults : dict Race) :
  visited monteCarloResults ≠ [] →
  ∃ t, extractTeamPerformance monteCarloResults = [t] ∧
       NoDup (driver_name <$> drivers t) ∧
       (∀ n, n ∈ driver_name <$> drivers t
             ↔ n ∈ snd <$> visited monteCarloResults) ∧
       driver_number <$> drivers t = seq 1 (length (drivers t)).
Proof.
  intros Hv.
  destruct (team_performance_pooled monteCarloResults)
    as [(_ & Hnil)|(st & Hone & _ & _ & _ & Hd)]; [done|].
  eexists. split; [exact Hone|].
  rewrite team_driver_names, Hd. split_and!.
  - apply fold_set_add_NoDup, NoDup_nil_2.
  - intros n. rewrite fold_set_add_elem, elem_of_nil. tauto.
  - apply team_driver_numbers.
Qed.

Lemma team_drivers_on_example :
  visited example_season ≠ [] ∧
  ∃ t, extractTeamPerformance example_season = [t] ∧
       NoDup (driver_name <$> drivers t) ∧
       (∀ n, n ∈ driver_name <$> drivers t
             ↔ n ∈ snd <$> visited example_season) ∧
       driver_number <$> drivers t = seq 1 (length (drivers t)).
Proof.
  assert (visited example_season ≠ []) as Hv
    by (vm_compute; discriminate).
  split; [exact Hv|].
  exact (team_drivers_are_distinct_and_numbered example_season Hv).
Defined.

(** ** The circuit reader of the dashboard *)

Lemma mapM_result_cons {A B} (f : A → result B) x l :
  mapM f (x :: l) =
    match f x with
    | Ok y => match mapM f l with
              | Ok k => Ok (y :: k)
              | Raise e => Raise e
              end
    | Raise e => Raise e
    end.
Proof. cbn. destruct (f x); [|done]. cbn. by destruct (mapM f l). Qed.

Lemma mapM_result_ok {A B} (f : A → result B) l :
  Forall (fun x => ∃ y, f x = Ok y) l →
  ∃ k, mapM f l = Ok k ∧ Forall2 (fun x y => f x = Ok y) l k.
Proof.
  induction 1 as [|x l [y Hy] _ (k & Hk & Hall)].
  - exists []. split; [done|constructor].
  - exists (y :: k). rewrite mapM_result_cons, Hy, Hk.
    split; [done|by constructor].
Qed.

Lemma mapM_result_inv {A B} (f : A → result B) l k :
  mapM f l = Ok k → Forall2 (fun x y => f x = Ok y) l k.
Proof.
  revert k. induction l as [|x l IH]; intros k.
  - intros [= <-]. constructor.
  - rewrite mapM_result_cons. destruct (f x) as [y|] eqn:Hy; [|done].
    destruct (mapM f l) as [k'|] eqn:Hk; [|done].
    intros [= <-]. constructor; [done|by apply IH].
Qed.

Lemma mapM_result_raise {A B} (f : A → result B) l e :
  mapM f l = Raise e → ∃ x, x ∈ l ∧ f x = Raise e.
Proof.
  induction l as [|x l IH]; [done|].
  rewrite mapM_result_cons. destruct (f x) as [y|e'] eqn:Hy.
  - destruct (mapM f l) as [k'|e'] eqn:Hk; [done|].
    intros [= <-]. destruct IH as (x' & Hx' & He); [done|].
    exists x'. split; [by right|done].
  - intros [= <-]. exists x. split; [by left|done].
Qed.

Lemma js_object_spec {V} (d : dict V) key :
  match js_object d key with
  | Ok v => dict_get d key = Some v
  | Raise e => dict_get d key = None ∧ e = TypeError
  end.
Proof. unfold js_object. by destruct (dict_get d key). Qed.

Lemma mapM_result_pure {A B} (g : A → B) l :
  mapM (fun x => Ok (g x)) l = Ok (map g l).
Proof.
  induction l as [|x l IH]; [done|]. by rewrite mapM_result_cons, IH.
Qed.

Lemma mapM_result_fail {A B} (e : exception) (l : list A) :
  l ≠ [] → mapM (fun _ => Raise e : result B) l = Raise e.
Proof. destruct l; [done|]. intros _. by rewrite mapM_result_cons. Qed.

Section CircuitFacts.

Variable fsqrt : Q → Q.

Lemma circuit_comparison_spec raceKey raceData :
  match circuit_comparison fsqrt (raceKey, raceData) with
  | Ok c =>
      ∃ current,
        dict_get (scenarios raceData) "current" = Some current ∧
        (dict_keys current = [] ∨
         is_Some (dict_get (scenarios raceData) "2026")) ∧
        c = mk_comparison raceKey
              (js_or_string (event_name raceData) raceKey)
              (monte_carlo_output fsqrt
                 (map (mean_of current) (dict_keys current)))
              (monte_carlo_output fsqrt
                 (map (fun d => js_or (mean_of (race_future raceData) d)
                                      (mean_of current d))
                      (dict_keys current)))
              (js_sub
                 (average
                    (map (fun d => js_or (mean_of (race_future raceData) d)
                                         (mean_of current d))
                         (dict_keys current)))
                 (average (map (mean_of current) (dict_keys current))))
  | Raise e => e = TypeError ∧ ¬ readable raceData
  end.
Proof.
  unfold circuit_comparison, js_object, readable, race_future.
  destruct (dict_get (scenarios raceData) "current") as [current|] eqn:Hcur;
    cbn [mbind result_bind]; [|split; [done|]; intros (? & [=] & _)].
  destruct (dict_get (scenarios raceData) "2026") as [future|] eqn:Hfut;
    cbn [mbind result_bind default].
  - rewrite (mapM_result_pure
               (fun d => js_or (mean_of future d) (mean_of current d))).
    cbn [mbind result_bind]. exists current. split_and!; [done|eauto|done].
  - destruct (dict_keys current) as [|d ds] eqn:Hkeys.
    + cbn. exists current. rewrite Hkeys. split_and!; [done|by left|done].
    + rewrite mapM_result_fail by done. cbn [mbind result_bind].
      split; [done|]. intros (cur' & [= <-] & [Hk|[? [=]]]).
      by rewrite Hkeys in Hk.
Qed.

Lemma circuit_comparison_ok entry :
  readable entry.2 → ∃ c, circuit_comparison fsqrt entry = Ok c.
Proof.
  destruct entry as [raceKey raceData]. intros Hr.
  pose proof (circuit_comparison_spec raceKey raceData) as Hspec.
  destruct (circuit_comparison fsqrt (raceKey, raceData)) as [c|e]; [eauto|].
  by destruct Hspec as [_ Hnot].
Qed.

Lemma circuit_comparison_track entry c :
  circuit_comparison fsqrt entry = Ok c →
  readable entry.2 ∧ trackId c = entry.1.
Proof.
  destruct entry as [raceKey raceData]. intros Hc.
  pose proof (circuit_comparison_spec raceKey raceData) as Hspec.
  rewrite Hc in Hspec. destruct Hspec as (current & Hcur & Hfut & ->).
  split; [|done]. exists current. done.
Qed.

End CircuitFacts.

(** X23.  [extractCircuitComparisons] returns comparisons exactly when every
    event has a [current] scenario and, unless that scenario lists no
    driver, a [2026] scenario. *)
Theorem circuit_reader_succeeds_iff
    (fsqrt : Q → Q) (monteCarloResults : dict Race) :
  (∃ comparisons,
     extractCircuitComparisons fsqrt monteCarloResults = Ok comparisons)
  ↔ Forall (fun entry : string * Race => readable entry.2) monteCarloResults.
Proof.
  unfold extractCircuitComparisons. split.
  - intros [comparisons Hok]. apply mapM_result_inv in Hok.
    apply Forall_forall. intros entry Hentry.
    apply list_elem_of_lookup in Hentry as [i Hi].
    destruct (Forall2_lookup_l _ _ _ _ _ Hok Hi) as (c & _ & Hc).
    by apply circuit_comparison_track in Hc as [Hr _].
  - intros Hall.
    destruct (mapM_result_ok (circuit_comparison fsqrt) monteCarloResults)
      as (k & Hk & _); [|eauto].
    eapply Forall_impl; [exact Hall|]. intros entry Hr.
    by apply circuit_comparison_ok.
Qed.

(** X24.  When [extractCircuitComparisons] fails it throws a [TypeError],
    and when it succeeds it returns one comparison per event, in the order
    of the events, each carrying the key of its event as [trackId] and
    the iteration count 2000 in both of its summaries. *)
Theorem circuit_reader_outcome
    (fsqrt : Q → Q) (monteCarloResults : dict Race) :
  match extractCircuitComparisons fsqrt monteCarloResults with
  | Ok comparisons =>
      trackId <$> comparisons = dict_keys monteCarloResults ∧
      Forall (fun c => iterations (cc_baseline2025 c) = 2000%nat ∧
                       iterations (cc_predicted2026 c) = 2000%nat)
        comparisons
  | Raise e => e = TypeError
  end.
Proof.
  unfold extractCircuitComparisons.
  destruct (mapM (circuit_comparison fsqrt) monteCarloResults)
    as [comparisons|e] eqn:Hrun.
  - apply mapM_result_inv in Hrun. unfold dict_keys.
    induction Hrun as [|[raceKey raceData] c l k Hc _ [IH1 IH2]];
      [split; [done|constructor]|].
    pose proof (circuit_comparison_spec fsqrt raceKey raceData) as Hspec.
    rewrite Hc in Hspec. destruct Hspec as (current & _ & _ & ->).
    split; [cbn; by rewrite <- IH1|]. by constructor.
  - apply mapM_result_raise in Hrun as ([raceKey raceData] & _ & Hc).
    pose proof (circuit_comparison_spec fsqrt raceKey raceData) as Hspec.
    rewrite Hc in Hspec. by destruct Hspec.
Qed.

(** ** The median of the dashboard *)

Lemma even_of_nat n : Z.even (Z.of_nat n) = Nat.even n.
Proof.
  destruct (Nat.even n) eqn:Hn.
  - apply Nat.even_spec in Hn as [k ->]. apply Z.even_spec.
    exists (Z.of_nat k). lia.
  - destruct (Z.even (Z.of_nat n)) eqn:Hz; [|done].
    apply Z.even_spec in Hz as [k Hk].
    assert (Nat.even n = true) as Hn'
      by (apply Nat.even_spec; exists (Z.to_nat k); lia).
    congruence.
Qed.

Lemma omap_defined (arr : list Q) :
  omap (fun x : number => x) (Some <$> arr) = arr.
Proof. induction arr as [|x arr IH]; [done|]. cbn. by rewrite IH. Qed.

Lemma undefined_of_defined (arr : list Q) : undefined_of (Some <$> arr) = [].
Proof. induction arr as [|x arr IH]; [done|]. cbn. exact IH. Qed.

Lemma js_sort_defined (arr : list Q) :
  js_sort (Some <$> arr) = Some <$> np_sort arr.
Proof.
  unfold js_sort, np_sort.
  by rewrite omap_defined, undefined_of_defined, app_nil_r.
Qed.

Lemma js_index_defined (s : list Q) (i : nat) :
  (i < length s)%nat →
  js_index (Some <$> s) (Z.of_nat i) = Some (nth i s 0).
Proof.
  intros Hi. unfold js_index.
  destruct (Z.ltb_spec (Z.of_nat i) 0) as [|_]; [lia|].
  rewrite Nat2Z.id, list_lookup_fmap.
  destruct (lookup_lt_is_Some_2 s i Hi) as [y Hy].
  by rewrite Hy, (nth_lookup_Some _ _ _ _ Hy).
Qed.

(** X25.  On a non-empty array of numbers the dashboard's [median] is the
    value [np.median] gives the same numbers on the Python side. *)
Theorem dashboard_median_agrees_with_np_median (arr : list Q) :
  arr ≠ [] →
  ∃ m, median (Some <$> arr) = Some m ∧ m == np_median arr.
Proof.
  intros Hne. unfold median, np_median. cbn zeta.
  rewrite js_sort_defined, length_fmap, even_of_nat.
  assert (0 < length (np_sort arr))%nat as Hlen.
  { rewrite np_sort_length. destruct arr; [done|cbn; lia]. }
  set (s := np_sort arr) in *.
  change 2%Z with (Z.of_nat 2). rewrite <- Nat2Z.inj_div.
  pose proof (Nat.div_lt (length s) 2 Hlen ltac:(lia)) as Hmid.
  destruct (Nat.even (length s)) eqn:Heven.
  - assert (1 <= length s / 2)%nat as Hge.
    { apply Nat.even_spec in Heven as [k Hk]. rewrite Hk in Hlen |- *.
      rewrite Nat.mul_comm, Nat.div_mul by lia. lia. }
    replace (Z.of_nat (length s / 2) - 1)%Z
      with (Z.of_nat (length s / 2 - 1)) by lia.
    rewrite !js_index_defined by lia.
    rewrite take2_drop by lia.
    replace (S (length s / 2 - 1)) with (length s / 2)%nat by lia.
    eexists. split; [reflexivity|].
    unfold np_mean, np_sum. cbn. unfold Qnat. cbn. field.
  - rewrite js_index_defined by lia. rewrite take1_drop by lia.
    eexists. split; [reflexivity|].
    unfold np_mean, np_sum. cbn. unfold Qnat. cbn. field.
Qed.

Lemma dashboard_median_on_example :
  [4; 1; 3; 2] ≠ [] ∧
  ∃ m, median (Some <$> [4; 1; 3; 2]) = Some m ∧ m == np_median [4; 1; 3; 2].
Proof.
  assert ([4; 1; 3; 2] ≠ @nil Q) as Hne by discriminate.
  split; [exact Hne|].
  exact (dashboard_median_agrees_with_np_median [4; 1; 3; 2] Hne).
Defined.

(** X26.  On an artifact with a single event the two readers agree: the
    team reader returns no team when the event lists no driver, and
    otherwise its [baseline2025] and [predicted2026] are the means of the
    circuit reader's [baseline2025] and [predicted2026] summaries. *)
Theorem readers_agree_on_a_single_event
    (fsqrt : Q → Q) (raceKey : string) (raceData : Race)
    (c : CircuitComparison) :
  extractCircuitComparisons fsqrt [(raceKey, raceData)] = Ok [c] →
  (dict_keys (race_current raceData) = [] ∧
   extractTeamPerformance [(raceKey, raceData)] = [])
  ∨ (∃ t, extractTeamPerformance [(raceKey, raceData)] = [t] ∧
          baseline2025 t = mc_mean (cc_baseline2025 c) ∧
          predicted2026 t = mc_mean (cc_predicted2026 c)).
Proof.
  intros Hrun. unfold extractCircuitComparisons in Hrun.
  rewrite mapM_result_cons in Hrun.
  pose proof (circuit_comparison_spec fsqrt raceKey raceData) as Hspec.
  destruct (circuit_comparison fsqrt (raceKey, raceData)) as [c'|]; [|done].
  cbn in Hrun. injection Hrun as ->.
  destruct Hspec as (current & Hcur & _ & ->).
  assert (race_current raceData = current) as Hrc
    by (unfold race_current; by rewrite Hcur).
  assert (visited [(raceKey, raceData)]
          = (fun d => (raceData, d)) <$> dict_keys current) as Hv.
  { unfold visited. cbn. by rewrite app_nil_r, Hrc. }
  destruct (team_performance_pooled [(raceKey, raceData)])
    as [(Hnil & Hv')|(st & Hone & _ & Hb & Hp & _)].
  - left. split; [|done]. rewrite Hv in Hv'. rewrite Hrc.
    by apply fmap_nil_inv in Hv'.
  - right. eexists. split; [exact Hone|].
    unfold baseline_means, predicted_means in Hb, Hp.
    rewrite Hv, <- list_fmap_compose in Hb, Hp.
    cbn. rewrite Hb, Hp. split; f_equal.
    + apply list_fmap_ext. intros i d _. cbn. by rewrite Hrc.
    + apply list_fmap_ext. intros i d _. cbn. by rewrite Hrc.
Qed.

Lemma readers_agreement_on_example :
  extractCircuitComparisons approx_sqrt (example_artifact "2026")
    = Ok [example_comparison] ∧
  ((dict_keys
      (race_current
         (event_object "2026" "Bahrain Grand Prix"
            example_summary example_summary_future)) = [] ∧
    extractTeamPerformance (example_artifact "2026") = [])
   ∨ (∃ t, extractTeamPerformance (example_artifact "2026") = [t] ∧
           baseline2025 t = mc_mean (cc_baseline2025 example_comparison) ∧
           predicted2026 t = mc_mean (cc_predicted2026 example_comparison))).
Proof.
  assert (extractCircuitComparisons approx_sqrt (example_artifact "2026")
          = Ok [example_comparison]) as Hrun by (vm_compute; reflexivity).
  split; [exact Hrun|].
  exact (readers_agree_on_a_single_event approx_sqrt "2024_R01"
           (event_object "2026" "Bahrain Grand Prix"
              example_summary example_summary_future)
           example_comparison Hrun).
Defined.

(** X27.  An event whose [2026] scenario gives no mean for any of its
    drivers is reported without change: the predicted summary equals the
    baseline summary, and the impact is zero whenever it is a number. *)
Theorem circuit_without_future_means_has_no_impact
    (fsqrt : Q → Q) (raceKey : string) (raceData : Race)
    (c : CircuitComparison) :
  circuit_comparison fsqrt (raceKey, raceData) = Ok c →
  Forall (fun d => mean_of (race_future raceData) d = None)
    (dict_keys (race_current raceData)) →
  cc_predicted2026 c = cc_baseline2025 c ∧
  ∀ delta, impactDelta c = Some delta → delta == 0.
Proof.
  intros Hc Hnone.
  pose proof (circuit_comparison_spec fsqrt raceKey raceData) as Hspec.
  rewrite Hc in Hspec. destruct Hspec as (current & Hcur & _ & ->).
  assert (race_current raceData = current) as Hrc
    by (unfold race_current; by rewrite Hcur).
  rewrite Hrc in Hnone.
  assert (map (fun d => js_or (mean_of (race_future raceData) d)
                              (mean_of current d)) (dict_keys current)
          = map (mean_of current) (dict_keys current)) as Heq.
  { apply Forall_fmap_ext_1. eapply Forall_impl; [exact Hnone|].
    intros d Hd. cbn in Hd. by rewrite Hd. }
  cbn. rewrite Heq. split; [done|].
  intros delta.
  destruct (average (map (mean_of current) (dict_keys current))) as [a|];
    cbn.
  - intros Hd. injection Hd as Hd. rewrite <- Hd. ring.
  - intros Hd. discriminate Hd.
Qed.

Lemma no_impact_on_example :
  circuit_comparison approx_sqrt ("2024_R01", example_event_unchanged)
    = Ok example_comparison_unchanged ∧
  Forall (fun d => mean_of (race_future example_event_unchanged) d = None)
    (dict_keys (race_current example_event_unchanged)) ∧
  cc_predicted2026 example_comparison_unchanged
    = cc_baseline2025 example_comparison_unchanged ∧
  ∀ delta, impactDelta example_comparison_unchanged = Some delta → delta == 0.
Proof.
  assert (circuit_comparison approx_sqrt ("2024_R01", example_event_unchanged)
          = Ok example_comparison_unchanged) as Hc
    by (vm_compute; reflexivity).
  assert (Forall (fun d => mean_of (race_future example_event_unchanged) d
                           = None)
            (dict_keys (race_current example_event_unchanged))) as Hnone
    by (repeat constructor).
  split; [exact Hc|]. split; [exact Hnone|].
  exact (circuit_without_future_means_has_no_impact approx_sqrt "2024_R01"
           example_event_unchanged example_comparison_unchanged Hc Hnone).
Defined.

(** ** Regulation factors and team identifiers *)

(** X28.  Whichever branch of [loadRegulationFactors] answers, the category
    of every factor it returns is the one [getCategoryFromFactorId] assigns
    to the factor's id: the categories written in the fallback table agree
    with the classifier. *)
Theorem factor_categories_follow_the_classifier
    (response : option (list FactorJson)) :
  Forall (fun f => factor_category f = getCategoryFromFactorId (factor_id f))
    (loadRegulationFactors response).
Proof.
  destruct response as [factors|]; cbn [loadRegulationFactors].
  - apply Forall_forall. intros f Hf.
    apply list_elem_of_In, in_map_iff in Hf as (j & <- & _). done.
  - repeat constructor.
Qed.

Lemma lower_ascii_not_upper c : is_upper (lower_ascii c) = false.
Proof. destruct c as [[] [] [] [] [] [] [] []]; reflexivity. Qed.

Lemma lower_ascii_space c : is_space (lower_ascii c) = is_space c.
Proof. destruct c as [[] [] [] [] [] [] [] []]; reflexivity. Qed.

Lemma lower_ascii_fixed c : is_upper c = false → lower_ascii c = c.
Proof. destruct c as [[] [] [] [] [] [] [] []]; (done || reflexivity). Qed.

Lemma toLowerCase_not_upper s :
  string_forall (fun c => negb (is_upper c)) (toLowerCase s) = true.
Proof.
  induction s as [|c s IH]; [done|].
  cbn [toLowerCase string_forall]. by rewrite lower_ascii_not_upper, IH.
Qed.

Lemma toLowerCase_fixed s :
  string_forall (fun c => negb (is_upper c)) s = true → toLowerCase s = s.
Proof.
  induction s as [|c s IH]; [done|]. cbn [toLowerCase string_forall].
  intros [Hc Hs]%andb_prop. apply negb_true_iff in Hc.
  by rewrite (lower_ascii_fixed _ Hc), (IH Hs).
Qed.

Lemma replace_spaces_clean s : ∀ in_run,
  string_forall (fun c => negb (is_upper c)) s = true →
  string_forall (fun c => negb (is_space c) && negb (is_upper c))
    (replace_spaces in_run s) = true.
Proof.
  induction s as [|c s IH]; intros in_run; [done|].
  cbn [replace_spaces string_forall]. intros [Hc Hs]%andb_prop.
  destruct (is_space c) eqn:Hsp.
  - destruct in_run; [by apply IH|].
    cbn [string_forall]. by rewrite (IH true Hs).
  - cbn [string_forall]. by rewrite Hsp, Hc, (IH false Hs).
Qed.

Lemma replace_spaces_fixed s : ∀ in_run,
  string_forall (fun c => negb (is_space c) && negb (is_upper c)) s = true →
  replace_spaces in_run s = s.
Proof.
  induction s as [|c s IH]; intros in_run; [done|].
  cbn [replace_spaces string_forall].
  intros [[Hsp Hc]%andb_prop Hs]%andb_prop. apply negb_true_iff in Hsp.
  by rewrite Hsp, (IH false Hs).
Qed.

Lemma string_forall_weaken (p q : ascii → bool) s :
  (∀ c, p c = true → q c = true) →
  string_forall p s = true → string_forall q s = true.
Proof.
  intros Hpq. induction s as [|c s IH]; [done|]. cbn [string_forall].
  intros [Hc Hs]%andb_prop. by rewrite (Hpq _ Hc), (IH Hs).
Qed.

(** X29.  The team id computed from an ASCII team name holds no white space
    and no upper-case letter, and computing the id of an id changes
    nothing. *)
Theorem team_id_is_normalised (teamName : string) :
  ascii_text teamName = true →
  string_forall (fun c => negb (is_space c) && negb (is_upper c))
    (team_id teamName) = true ∧
  team_id (team_id teamName) = team_id teamName.
Proof.
  intros _. unfold team_id.
  pose proof (replace_spaces_clean (toLowerCase teamName) false
                (toLowerCase_not_upper teamName)) as Hclean.
  split; [exact Hclean|].
  rewrite toLowerCase_fixed.
  - by apply replace_spaces_fixed.
  - eapply string_forall_weaken; [|exact Hclean].
    intros c [_ Hc]%andb_prop. done.
Qed.

Lemma team_id_on_example :
  ascii_text "Red Bull  Racing" = true ∧
  team_id "Red Bull  Racing" = "red-bull-racing" ∧
  string_forall (fun c => negb (is_space c) && negb (is_upper c))
    (team_id "Red Bull  Racing") = true ∧
  team_id (team_id "Red Bull  Racing") = team_id "Red Bull  Racing".
Proof.
  assert (ascii_text "Red Bull  Racing" = true) as Ha by reflexivity.
  split; [exact Ha|]. split; [reflexivity|].
  exact (team_id_is_normalised "Red Bull  Racing" Ha).
Defined.

(** ** The mean and the spread of the dashboard *)

Lemma fold_js_add_defined (l : list Q) : ∀ a,
  fold_left js_add (Some <$> l) (Some a) = Some (fold_left Qplus l a).
Proof. induction l as [|x l IH]; intros a; [done|]. cbn. apply IH. Qed.

Lemma fold_Qplus_sum (l : list Q) : ∀ a, fold_left Qplus l a == a + np_sum l.
Proof.
  induction l as [|x l IH]; intros a; cbn.
  - ring.
  - rewrite IH. unfold np_sum. ring.
Qed.

Lemma average_defined (l : list Q) :
  l ≠ [] →
  average (Some <$> l) = Some (fold_left Qplus l 0 / Qnat (length l)).
Proof.
  intros Hne. unfold average. rewrite fold_js_add_defined, length_fmap.
  destruct l; done.
Qed.

Lemma Qsquare_nonneg (d : Q) : 0 <= d * d.
Proof.
  destruct (Qlt_le_dec d 0) as [Hneg|Hpos].
  - assert (d * d == (- d) * (- d)) as -> by ring.
    apply Qmult_le_0_compat; lra.
  - by apply Qmult_le_0_compat.
Qed.

Lemma np_sum_squares_nonneg (m : Q) (l : list Q) :
  0 <= np_sum (map (fun x => (x - m) * (x - m)) l).
Proof.
  induction l as [|x l IH]; [done|].
  cbn [map]. change (np_sum (?y :: ?k)) with (y + np_sum k).
  pose proof (Qsquare_nonneg (x - m)) as Hsq.
  set (sq := (x - m) * (x - m)) in *.
  set (rest := np_sum (map (fun x => (x - m) * (x - m)) l)) in *. lra.
Qed.

Lemma square_diffs_defined (m : Q) (arr : list Q) :
  map (fun value : number => (fun d => d * d) <$> js_sub value (Some m))
    (Some <$> arr)
  = Some <$> map (fun x => (x - m) * (x - m)) arr.
Proof. induction arr as [|x arr IH]; [done|]. cbn. by rewrite <- IH. Qed.

Lemma fold_js_add_nan (arr : list number) : fold_left js_add arr None = None.
Proof. induction arr as [|x arr IH]; [done|]. exact IH. Qed.

Lemma fold_js_add_undefined (arr : list number) : ∀ acc,
  None ∈ arr → fold_left js_add arr acc = None.
Proof.
  induction arr as [|x arr IH]; intros acc Hin; [by apply elem_of_nil in Hin|].
  apply elem_of_cons in Hin as [<-|Hin]; cbn [fold_left].
  - destruct acc; apply fold_js_add_nan.
  - by apply IH.
Qed.

Lemma average_undefined (arr : list number) :
  arr = [] ∨ None ∈ arr → average arr = None.
Proof.
  intros [->|Hin]; [done|]. unfold average.
  by rewrite (fold_js_add_undefined arr (Some 0) Hin).
Qed.

Lemma defined_or_undefined (arr : list number) :
  (∃ l, arr = Some <$> l) ∨ None ∈ arr.
Proof.
  induction arr as [|[x|] arr IH].
  - left. by exists [].
  - destruct IH as [[l ->]|Hin]; [left; by exists (x :: l)|right; by right].
  - right. by left.
Qed.

Lemma stdDev_defined (fsqrt : Q → Q) (l : list Q) :
  l ≠ [] →
  ∃ v, stdDev fsqrt (Some <$> l) = Some (fsqrt v) ∧ 0 <= v.
Proof.
  intros Hne.
  assert (0 < Qnat (length l)) as Hlen.
  { apply Qnat_pos. destruct l; [done|cbn; lia]. }
  set (m := fold_left Qplus l 0 / Qnat (length l)).
  set (sq := map (fun x => (x - m) * (x - m)) l).
  assert (sq ≠ []) as Hsq by (destruct l; done).
  exists (fold_left Qplus sq 0 / Qnat (length sq)). split.
  - unfold stdDev. cbn zeta. rewrite (average_defined l Hne). fold m.
    trans (fsqrt <$> average (Some <$> sq)).
    + do 2 f_equal. apply square_diffs_defined.
    + by rewrite (average_defined sq Hsq).
  - rewrite fold_Qplus_sum.
    pose proof (np_sum_squares_nonneg m l) as Hnn. fold sq in Hnn.
    assert (0 < Qnat (length sq)) as Hlen'
      by (unfold sq; by rewrite length_map).
    apply Qle_shift_div_l; [done|]. lra.
Qed.

Lemma stdDev_undefined (fsqrt : Q → Q) (arr : list number) :
  arr = [] ∨ None ∈ arr → stdDev fsqrt arr = None.
Proof.
  intros Hbad. unfold stdDev. cbn zeta. rewrite (average_undefined arr Hbad).
  rewrite average_undefined; [done|].
  destruct Hbad as [->|Hin]; [by left|right].
  apply list_elem_of_In, in_map_iff. destruct arr as [|x arr];
    [by apply elem_of_nil in Hin|].
  exists x. split; [by destruct x|by left].
Qed.

(** X30.  [stdDev] is NaN exactly when the array is empty or has an
    [undefined] entry.  Otherwise it is the square root of a quantity that
    is never negative, and of zero for an array of one number. *)
Theorem dashboard_spread_of_numbers (fsqrt : Q → Q) (arr : list number) :
  (stdDev fsqrt arr = None ↔ arr = [] ∨ None ∈ arr) ∧
  (∀ s, stdDev fsqrt arr = Some s → ∃ v, s = fsqrt v ∧ 0 <= v) ∧
  (∀ x, arr = [Some x] → ∃ v, stdDev fsqrt arr = Some (fsqrt v) ∧ v == 0).
Proof.
  split_and!.
  - split; [|apply stdDev_undefined].
    intros Hnan. destruct (defined_or_undefined arr) as [[l ->]|Hin];
      [|by right].
    destruct l as [|x l]; [by left|].
    destruct (stdDev_defined fsqrt (x :: l)) as (v & Hv & _); [done|].
    congruence.
  - intros s Hs. destruct (defined_or_undefined arr) as [[l ->]|Hin].
    + destruct l as [|x l]; [done|].
      destruct (stdDev_defined fsqrt (x :: l)) as (v & Hv & Hnn); [done|].
      exists v. split; [congruence|done].
    + rewrite stdDev_undefined in Hs by (by right). done.
  - intros x ->. eexists. split; [reflexivity|]. cbn.
    change (Qnat 1) with 1. field.
Qed.
